(** * walk.c : recursive keyword search over a directory tree

    A shallow embedding of [src/walk.c] and the properties of its
    traversal-and-matching engine.

    Conventions of the embedding.
    - A C string is a Rocq [string] holding the characters before the
      terminating NUL; a pointer into a C string is the suffix that starts
      there; a pointer that may be NULL is an [option string].
    - [int] flags are [bool]; [int] and [long] quantities are [Z].  The
      counters of [SearchStats] only ever grow by one per file or per match
      (or by a file size), far below [LONG_MAX], so they are kept as
      mathematical integers.
    - The operating system is a record of functions ([FileSystem]): what
      [opendir], [lstat], [fopen], [fstat] and the stream reads give back.
    - Side effects are threaded through a [World]: the statistics, the
      records written to standard output, and a log of the library calls
      made and of the places where [files_matched] was incremented. *)

From Stdlib Require Import ZArith List String Ascii Bool Lia DecimalString.
Import ListNotations.

Open Scope string_scope.
Open Scope Z_scope.

(** ** Characters and C strings *)

Module CStr.

Definition NUL : ascii := "000"%char.
Definition LF : ascii := "010"%char.

(** [(unsigned char) c], as an [int]. *)
Definition uchar (c : ascii) : Z := Z.of_N (N_of_ascii c).

(** [tolower] of <ctype.h> in the "C" locale (the program never calls
    [setlocale]): only 'A'..'Z' are mapped. *)
Definition tolower (c : Z) : Z :=
  if (65 <=? c) && (c <=? 90) then c + 32 else c.

(** The character a pointer to the C string [s] points at: the terminator
    when [s] is empty. *)
Definition deref (s : string) : ascii :=
  match s with
  | EmptyString => NUL
  | String c _ => c
  end.

(** A Rocq string is the content of a C string when it holds no NUL. *)
Fixpoint no_nul (s : string) : Prop :=
  match s with
  | EmptyString => True
  | String c r => c <> NUL /\ no_nul r
  end.

Fixpoint contains (c : ascii) (s : string) : bool :=
  match s with
  | EmptyString => false
  | String a r => Ascii.eqb a c || contains c r
  end.

Definition strlen (s : string) : Z := Z.of_nat (String.length s).

(** [strrchr(s, c)]: pointer to the last occurrence of [c] in [s], NULL when
    there is none.  The terminator counts as part of the string. *)
Fixpoint strrchr (s : string) (c : ascii) : option string :=
  match s with
  | EmptyString => if Ascii.eqb c NUL then Some EmptyString else None
  | String a r =>
      match strrchr r c with
      | Some t => Some t
      | None => if Ascii.eqb a c then Some s else None
      end
  end.

(** [p + 1] for a pointer [p] that does not point at the terminator. *)
Definition next (p : string) : string :=
  match p with
  | EmptyString => EmptyString
  | String _ r => r
  end.

(** [strcspn(s, reject)]: length of the longest prefix of [s] without a
    character of [reject]. *)
Fixpoint strcspn (s reject : string) : nat :=
  match s with
  | EmptyString => O
  | String a r => if contains a reject then O else S (strcspn r reject)
  end.

(** The C string held by a buffer: the characters before its first NUL. *)
Fixpoint of_buffer (buf : string) : string :=
  match buf with
  | EmptyString => EmptyString
  | String a r => if Ascii.eqb a NUL then EmptyString else String a (of_buffer r)
  end.

(** [s[n] = '\0'] on a C string [s] with [n <= strlen(s)]. *)
Definition cut_at (n : nat) (s : string) : string := substring 0 n s.

(** [strstr] of <string.h> (ISO C 7.24.5.7): pointer to the first occurrence
    of [needle] in [haystack], NULL when there is none; [haystack] itself
    when [needle] is empty. *)
Fixpoint strstr (haystack needle : string) : option string :=
  if prefix needle haystack then Some haystack
  else match haystack with
       | EmptyString => None
       | String _ r => strstr r needle
       end.

(** [snprintf(buf, size, "%s/%s", a, b)]: at most [size - 1] characters are
    stored. *)
Definition snprintf_path (size : nat) (a b : string) : string :=
  substring 0 (size - 1) (a ++ "/" ++ b).

(** [%d] of printf. *)
Definition fmt_d (n : Z) : string := NilZero.string_of_int (Z.to_int n).

End CStr.
Import CStr.

(** ** walk.c *)

Definition MAX_PATH : Z := 4096.
Definition MAX_LINE : N := 2048.
Definition MAX_KEYWORDS : Z := 20.

(** [strcasecmp_safe], lines 64-74. *)
Fixpoint strcasecmp_loop (s1 s2 : string) : Z :=
  match s1, s2 with
  | String a r1, String b r2 =>
      let c1 := tolower (uchar a) in
      let c2 := tolower (uchar b) in
      if negb (c1 =? c2) then c1 - c2 else strcasecmp_loop r1 r2
  | _, _ => tolower (uchar (deref s1)) - tolower (uchar (deref s2))
  end.

Definition strcasecmp_safe (s1 s2 : option string) : Z :=
  match s1, s2 with
  | Some a, Some b => strcasecmp_loop a b
  | _, _ => -1
  end.

(** The inner [while] of [strstr_case], lines 84-87: what is left of the
    needle when the loop stops. *)
Fixpoint strstr_case_inner (h n : string) : string :=
  match h, n with
  | String a h', String b n' =>
      if tolower (uchar a) =? tolower (uchar b) then strstr_case_inner h' n'
      else n
  | _, _ => n
  end.

(** The [for] loop of [strstr_case], lines 80-90. *)
Fixpoint strstr_case_loop (haystack needle : string) : option string :=
  match haystack with
  | EmptyString => None
  | String _ rest =>
      match strstr_case_inner haystack needle with
      | EmptyString => Some haystack
      | String _ _ => strstr_case_loop rest needle
      end
  end.

(** [strstr_case], lines 77-93. *)
Definition strstr_case (haystack needle : option string) : option string :=
  match haystack, needle with
  | Some h, Some n =>
      match n with
      | EmptyString => None
      | String _ _ => strstr_case_loop h n
      end
  | _, _ => None
  end.

(** The basename computation of lines 198-199 and 288-289. *)
Definition basename_of (filename : string) : string :=
  match strrchr filename "/"%char with
  | Some p => next p
  | None => filename
  end.

(** [matches_pattern], lines 194-209. *)
Definition matches_pattern (filename pattern : option string) : bool :=
  match filename, pattern with
  | Some f, Some p =>
      match p with
      | EmptyString => true
      | String p0 p1 =>
          let basename := basename_of f in
          if Ascii.eqb p0 "*"%char && Ascii.eqb (deref p1) "."%char then
            match strrchr basename "."%char with
            | None => false
            | Some ext => strcasecmp_safe (Some (next ext)) (Some (next p1)) =? 0
            end
          else strcasecmp_safe (Some basename) (Some p) =? 0
      end
  | _, _ => false
  end.

(** *** Data model, lines 19-50 *)

Record SearchOptions := mkOptions {
  keywords : list string;        (* keywords[0 .. keyword_count-1] *)
  case_sensitive : bool;
  recursive : bool;
  search_filenames : bool;
  search_content : bool;
  show_line_numbers : bool;
  max_depth : Z;
  only_matching_files : bool;
  count_only : bool;
  min_size : Z;
  max_size : Z;
  file_pattern : string;
  start_dir : string
}.

Record SearchStats := mkStats {
  files_searched : Z;
  files_matched : Z;
  total_matches : Z;
  total_size : Z;
  start_time : Z
}.

(** [init_options], lines 96-111. *)
Definition init_options : SearchOptions :=
  {| keywords := []; case_sensitive := true; recursive := true;
     search_filenames := true; search_content := true;
     show_line_numbers := true; max_depth := -1;
     only_matching_files := false; count_only := false;
     min_size := 0; max_size := -1; file_pattern := ""; start_dir := "." |}.

(** *** The environment *)

(** File types told apart by [S_ISDIR] and [S_ISREG] on [st_mode]. *)
Inductive file_type :=
  S_IFDIR | S_IFREG | S_IFLNK | S_IFCHR | S_IFBLK | S_IFIFO | S_IFSOCK.

Definition S_ISDIR (m : file_type) : bool :=
  match m with S_IFDIR => true | _ => false end.
Definition S_ISREG (m : file_type) : bool :=
  match m with S_IFREG => true | _ => false end.

(** A file that [fopen] opened: its size, whether [fstat] on its descriptor
    succeeds, and the bytes the stream delivers. *)
Record File := mkFile {
  f_size : Z;
  f_fstat_ok : bool;
  f_data : string
}.

(** [fstat(fileno(file), &st)]: [st.st_size] when the call returns 0. *)
Definition fstat (f : File) : option Z :=
  if f_fstat_ok f then Some (f_size f) else None.

(** What the operating system answers.  [fs_opendir p] is the sequence of
    names [readdir] returns for [p] (NULL from [opendir] is [None]);
    [fs_lstat] does not follow a symbolic link, [fs_opendir] does. *)
Record FileSystem := mkFS {
  fs_opendir : string -> option (list string);
  fs_lstat : string -> option file_type;
  fs_fopen : string -> option File
}.

(** *** Effects *)

(** The three statements that increment [files_matched]. *)
Inductive count_site :=
| ContentEarlyExit   (* line 276 *)
| FilenameMatch      (* line 303 *)
| ContentMatch.      (* line 314 *)

Inductive event :=
| Fopen (path : string)
| Fgets (path : string)
| Fclose (path : string)
| Opendir (path : string)
| Closedir (path : string)
| Lstat (path : string)
| Counted (path : string) (site : count_site).

(** One record per [printf] of the core. *)
Inductive out_rec :=
| OutNumbered (path : string) (line_number : Z) (text : string)  (* line 267 *)
| OutPlain (path : string) (text : string)                       (* line 269 *)
| OutFilenameMatch (path : string)                               (* line 306 *)
| OutPath (path : string).                                       (* line 316 *)

Definition render (r : out_rec) : string :=
  match r with
  | OutNumbered p n t => p ++ ":" ++ fmt_d n ++ ":" ++ t ++ String LF ""
  | OutPlain p t => p ++ ":" ++ t ++ String LF ""
  | OutFilenameMatch p => "Filename match: " ++ p ++ String LF ""
  | OutPath p => p ++ String LF ""
  end.

Record World := mkWorld {
  w_stats : SearchStats;
  w_out : list out_rec;
  w_log : list event
}.

Definition stdout (w : World) : string := String.concat "" (map render (w_out w)).

Definition upd_stats (f : SearchStats -> SearchStats) (w : World) : World :=
  mkWorld (f (w_stats w)) (w_out w) (w_log w).
Definition print (r : out_rec) (w : World) : World :=
  mkWorld (w_stats w) (w_out w ++ [r]) (w_log w).
Definition call (e : event) (w : World) : World :=
  mkWorld (w_stats w) (w_out w) (w_log w ++ [e]).

Definition inc_files_searched (s : SearchStats) : SearchStats :=
  mkStats (files_searched s + 1) (files_matched s) (total_matches s)
          (total_size s) (start_time s).
Definition inc_files_matched (s : SearchStats) : SearchStats :=
  mkStats (files_searched s) (files_matched s + 1) (total_matches s)
          (total_size s) (start_time s).
Definition inc_total_matches (s : SearchStats) : SearchStats :=
  mkStats (files_searched s) (files_matched s) (total_matches s + 1)
          (total_size s) (start_time s).
Definition add_total_size (n : Z) (s : SearchStats) : SearchStats :=
  mkStats (files_searched s) (files_matched s) (total_matches s)
          (total_size s + n) (start_time s).

(** [stats->files_matched++] at one of its three sites. *)
Definition count_file (site : count_site) (path : string) (w : World) : World :=
  call (Counted path site) (upd_stats inc_files_matched w).

(** A loop body either goes on with a new state or returns from
    [search_file]. *)
Inductive flow (A : Type) :=
| Next (a : A)
| Return (r : bool * World).
Arguments Next {A} a.
Arguments Return {A} r.

(** *** Reading lines *)

(** The characters one [fgets] call stores when the buffer has room for
    [room] of them, and the rest of the stream. *)
Fixpoint fgets_chars (room : N) (stream : string) : string * string :=
  match stream with
  | EmptyString => (EmptyString, EmptyString)
  | String c r =>
      if (room =? 0)%N then (EmptyString, stream)
      else if Ascii.eqb c LF then (String c EmptyString, r)
      else let '(l, rest) := fgets_chars (room - 1) r in (String c l, rest)
  end.

(** [fgets(line, size, file)]: NULL at end of file. *)
Definition fgets (size : N) (stream : string) : option (string * string) :=
  match stream with
  | EmptyString => None
  | String _ _ => Some (fgets_chars (size - 1) stream)
  end.

(** The buffers the successive [fgets] calls of line 245 fill.  Every call
    that succeeds takes at least one character, so as many calls as the
    stream has characters read it whole ([read_lines_fuel]). *)
Fixpoint read_lines (fuel : nat) (stream : string) : list string :=
  match fuel with
  | O => []
  | S k =>
      match fgets MAX_LINE stream with
      | None => []
      | Some (buf, rest) => buf :: read_lines k rest
      end
  end.

Definition file_lines (f : File) : list string :=
  read_lines (String.length (f_data f)) (f_data f).

(** Line 249: [line[strcspn(line, "\n")] = '\0']. *)
Definition chomp (buf : string) : string :=
  let line := of_buffer buf in
  cut_at (strcspn line (String LF "")) line.

(** *** search_file, lines 212-321 *)

(** Lines 255-259: the test of one keyword against a text. *)
Definition keyword_found (opts : SearchOptions) (text kw : string) : bool :=
  let found :=
    if case_sensitive opts then strstr text kw
    else strstr_case (Some text) (Some kw) in
  match found with Some _ => true | None => false end.

(** Lines 265-271. *)
Definition print_match (opts : SearchOptions) (filename : string)
    (line_number : Z) (line : string) (w : World) : World :=
  if negb (count_only opts) && negb (only_matching_files opts) then
    if show_line_numbers opts then print (OutNumbered filename line_number line) w
    else print (OutPlain filename line) w
  else w.

(** The keyword loop of lines 252-280 on one line; the state is the world
    and [match_in_file]. *)
Fixpoint check_keywords (opts : SearchOptions) (filename : string)
    (line_number : Z) (line : string) (kws : list string)
    (w : World) (match_in_file : bool) : flow (World * bool) :=
  match kws with
  | [] => Next (w, match_in_file)
  | kw :: rest =>
      if keyword_found opts line kw then
        let w1 := upd_stats inc_total_matches w in
        let w2 := print_match opts filename line_number line w1 in
        if only_matching_files opts then
          Return (true, count_file ContentEarlyExit filename
                          (call (Fclose filename) w2))
        else check_keywords opts filename line_number line rest w2 true
      else check_keywords opts filename line_number line rest w match_in_file
  end.

(** The [while (fgets ...)] loop of lines 245-281 over the buffers the
    stream delivers. *)
Fixpoint scan_lines (opts : SearchOptions) (filename : string)
    (bufs : list string) (line_number : Z)
    (w : World) (match_in_file : bool) : flow (World * bool) :=
  match bufs with
  | [] => Next (call (Fgets filename) w, match_in_file)
  | buf :: rest =>
      let w0 := call (Fgets filename) w in
      let line_number' := line_number + 1 in
      let line := chomp buf in
      match check_keywords opts filename line_number' line (keywords opts)
                           w0 match_in_file with
      | Return r => Return r
      | Next (w', m') => scan_lines opts filename rest line_number' w' m'
      end
  end.

(** The keyword loop of lines 291-310 on the basename. *)
Fixpoint check_basename (opts : SearchOptions) (filename basename : string)
    (kws : list string) (w : World) : flow World :=
  match kws with
  | [] => Next w
  | kw :: rest =>
      if keyword_found opts basename kw then
        let w1 := upd_stats inc_total_matches w in
        let w2 := count_file FilenameMatch filename w1 in
        let w3 := if negb (count_only opts)
                  then print (OutFilenameMatch filename) w2 else w2 in
        Return (true, w3)
      else check_basename opts filename basename rest w
  end.

(** Line 224-225. *)
Definition size_rejected (opts : SearchOptions) (st_size : Z) : bool :=
  ((0 <? min_size opts) && (st_size <? min_size opts))
  || ((0 <=? max_size opts) && (max_size opts <? st_size)).

(** Line 232. *)
Definition pattern_rejected (opts : SearchOptions) (filename : string) : bool :=
  negb (String.eqb (file_pattern opts) "")
  && negb (matches_pattern (Some filename) (Some (file_pattern opts))).

(** Lines 239-320: what [search_file] does with a file that passed the
    filters. *)
Definition search_open_file (opts : SearchOptions) (filename : string)
    (file : File) (w : World) : bool * World :=
  let w1 := upd_stats inc_files_searched w in
  let content :=
    if search_content opts
    then scan_lines opts filename (file_lines file) 0 w1 false
    else Next (w1, false) in
  match content with
  | Return r => r
  | Next (w2, match_in_file) =>
      let w3 := call (Fclose filename) w2 in
      let name :=
        if search_filenames opts && negb match_in_file
        then check_basename opts filename (basename_of filename)
                            (keywords opts) w3
        else Next w3 in
      match name with
      | Return r => r
      | Next w4 =>
          if match_in_file then
            let w5 := count_file ContentMatch filename w4 in
            let w6 := if only_matching_files opts && negb (count_only opts)
                      then print (OutPath filename) w5 else w5 in
            (true, w6)
          else (false, w4)
      end
  end.

Definition search_file (fs : FileSystem) (filename : string)
    (opts : SearchOptions) (w : World) : bool * World :=
  let w0 := call (Fopen filename) w in
  match fs_fopen fs filename with
  | None => (false, w0)
  | Some file =>
      let '(w1, rejected) :=
        match fstat file with
        | Some st_size =>
            (upd_stats (add_total_size st_size) w0, size_rejected opts st_size)
        | None => (w0, false)
        end in
      if rejected then (false, call (Fclose filename) w1)
      else if pattern_rejected opts filename
      then (false, call (Fclose filename) w1)
      else search_open_file opts filename file w1
  end.

(** *** search_directory, lines 324-373 *)

(** Line 348. *)
Definition path_too_long (path name : string) : bool :=
  MAX_PATH <? strlen path + strlen name + 2.

(** Line 343. *)
Definition dot_entry (d_name : string) : bool :=
  String.eqb d_name "." || String.eqb d_name "..".

(** Line 352. *)
Definition entry_path (path d_name : string) : string :=
  snprintf_path (Z.to_nat MAX_PATH) path d_name.

(** One turn of the [readdir] loop, lines 342-369; [self] is
    [search_directory] itself, [None] when it did not finish. *)
Definition visit_entry (fs : FileSystem)
    (self : option string -> Z -> SearchOptions -> World -> option World)
    (path : string) (depth : Z) (opts : SearchOptions)
    (w : World) (d_name : string) : option World :=
  if dot_entry d_name then Some w
  else if path_too_long path d_name then Some w
  else
    let fullpath := entry_path path d_name in
    let w1 := call (Lstat fullpath) w in
    match fs_lstat fs fullpath with
    | None => Some w1
    | Some st_mode =>
        if S_ISDIR st_mode then
          if recursive opts then self (Some fullpath) (depth + 1) opts w1
          else Some w1
        else if S_ISREG st_mode then Some (snd (search_file fs fullpath opts w1))
        else Some w1
    end.

(** The [while ((entry = readdir(dir)) != NULL)] loop, line 341. *)
Fixpoint walk_entries (fs : FileSystem)
    (self : option string -> Z -> SearchOptions -> World -> option World)
    (path : string) (depth : Z) (opts : SearchOptions)
    (entries : list string) (w : World) : option World :=
  match entries with
  | [] => Some w
  | d_name :: rest =>
      match visit_entry fs self path depth opts w d_name with
      | None => None
      | Some w' => walk_entries fs self path depth opts rest w'
      end
  end.

(** [search_directory]; [fuel] bounds the nesting of the recursive calls and
    [None] means it ran out. *)
Fixpoint search_directory (fuel : nat) (fs : FileSystem) (path : option string)
    (depth : Z) (opts : SearchOptions) (w : World) : option World :=
  match fuel with
  | O => None
  | S fuel' =>
      match path with
      | None => Some w
      | Some p =>
          if (0 <=? max_depth opts) && (max_depth opts <? depth) then Some w
          else
            let w0 := call (Opendir p) w in
            match fs_opendir fs p with
            | None => Some w0
            | Some entries =>
                match walk_entries fs (search_directory fuel' fs)
                                   p depth opts entries w0 with
                | None => None
                | Some w1 => Some (call (Closedir p) w1)
                end
            end
      end
  end.

(** Fuel that is enough for every path and every file system
    ([search_directory_total]). *)
Definition enough_fuel : nat := S (Z.to_nat MAX_PATH).

(** ** strstr_case on arrays

    The same function with its pointers as offsets into arrays, to see
    which cells it reads. *)

Module Ptr.

(** An array of characters; reading at an offset outside it is undefined. *)
Definition array := list ascii.

Inductive outcome (A : Type) :=
| Done (a : A)
| Overread      (* a read outside an array *)
| OutOfFuel.
Arguments Done {A} a.
Arguments Overread {A}.
Arguments OutOfFuel {A}.

Definition load (a : array) (p : nat) : option ascii := nth_error a p.

Fixpoint chars (s : string) : list ascii :=
  match s with
  | EmptyString => []
  | String c r => c :: chars r
  end.

(** The array that holds exactly the C string [s]: its characters and the
    terminator, with nothing after it. *)
Definition array_of (s : string) : array := (chars s ++ [NUL])%list.

(** The [while] of lines 84-87; the result is the final [n]. *)
Fixpoint inner_loop (fuel : nat) (ha : array) (h : nat) (na : array) (n : nat)
  : outcome nat :=
  match fuel with
  | O => OutOfFuel
  | S k =>
      match load ha h with
      | None => Overread
      | Some ch =>
          if Ascii.eqb ch NUL then Done n
          else
            match load na n with
            | None => Overread
            | Some cn =>
                if Ascii.eqb cn NUL then Done n
                else if tolower (uchar ch) =? tolower (uchar cn)
                     then inner_loop k ha (S h) na (S n)
                     else Done n
            end
      end
  end.

(** The [for] of lines 80-90; the result is NULL or the offset returned. *)
Fixpoint for_loop (fuel : nat) (ha : array) (haystack : nat) (na : array)
    (needle : nat) : outcome (option nat) :=
  match fuel with
  | O => OutOfFuel
  | S k =>
      match load ha haystack with
      | None => Overread
      | Some c =>
          if Ascii.eqb c NUL then Done None
          else
            match inner_loop fuel ha haystack na needle with
            | Done n =>
                match load na n with
                | None => Overread
                | Some cn =>
                    if Ascii.eqb cn NUL then Done (Some haystack)
                    else for_loop k ha (S haystack) na needle
                end
            | Overread => Overread
            | OutOfFuel => OutOfFuel
            end
      end
  end.

(** Lines 77-93 on two pointers that are not NULL. *)
Definition strstr_case (fuel : nat) (ha : array) (haystack : nat) (na : array)
    (needle : nat) : outcome (option nat) :=
  match load na needle with
  | None => Overread
  | Some c =>
      if Ascii.eqb c NUL then Done None
      else for_loop fuel ha haystack na needle
  end.

End Ptr.

(** ** Notions of the specification *)

(** Case-insensitive equality, as the spec words it: the same characters
    once every letter is lowered. *)
Fixpoint lower (s : string) : list Z :=
  match s with
  | EmptyString => []
  | String c r => tolower (uchar c) :: lower r
  end.

Definition eq_nocase (a b : string) : Prop := lower a = lower b.

(** [b] is the substring of [filename] after its last '/', or all of it. *)
Definition last_component (filename b : string) : Prop :=
  contains "/"%char b = false /\
  (filename = b \/ exists d, filename = d ++ String "/"%char b).

(** [e] is the substring of [b] after its last '.'. *)
Definition extension (b e : string) : Prop :=
  contains "."%char e = false /\ exists stem, b = stem ++ String "."%char e.


(** The keywords the line matcher finds in a text, and whether there is
    one. *)
Definition hits (opts : SearchOptions) (text : string) : list string :=
  filter (keyword_found opts text) (keywords opts).

Definition line_matches (opts : SearchOptions) (text : string) : bool :=
  existsb (keyword_found opts text) (keywords opts).

(** Some line of the file, as [fgets] delivers it and line 249 trims it,
    holds a keyword. *)
Definition content_matches (opts : SearchOptions) (file : File) : bool :=
  existsb (fun buf => line_matches opts (chomp buf)) (file_lines file).

(** The basename of the file holds a keyword. *)
Definition name_matches (opts : SearchOptions) (filename : string) : bool :=
  line_matches opts (basename_of filename).

(** The file passes the size filter of lines 221-229 and the pattern filter
    of lines 232-235. *)
Definition passes_filters (opts : SearchOptions) (filename : string)
    (file : File) : bool :=
  negb (match fstat file with
        | Some st_size => size_rejected opts st_size
        | None => false
        end)
  && negb (pattern_rejected opts filename).

(** The sites at which a log says [files_matched] was incremented. *)
Fixpoint sites (log : list event) : list count_site :=
  match log with
  | [] => []
  | Counted _ s :: r => s :: sites r
  | _ :: r => sites r
  end.

(** The record lines 266-270 print for a match. *)
Definition content_record (opts : SearchOptions) (filename : string)
    (line_number : Z) (line : string) : out_rec :=
  if show_line_numbers opts then OutNumbered filename line_number line
  else OutPlain filename line.

(** [k] more matches. *)
Definition add_matches (k : Z) (s : SearchStats) : SearchStats :=
  mkStats (files_searched s) (files_matched s) (total_matches s + k)
          (total_size s) (start_time s).

(** [k] calls of [fgets] on [path]. *)
Definition fgets_calls (path : string) (k : nat) (w : World) : World :=
  mkWorld (w_stats w) (w_out w) (w_log w ++ repeat (Fgets path) k).

(** Lines 262 and 275-277 together: the names-only exit. *)
Definition early_exit (filename : string) (w : World) : World :=
  count_file ContentEarlyExit filename
    (call (Fclose filename) (upd_stats inc_total_matches w)).

(** Index of the first buffer whose line holds a keyword. *)
Fixpoint first_hit (opts : SearchOptions) (bufs : list string) : option nat :=
  match bufs with
  | [] => None
  | buf :: rest =>
      if line_matches opts (chomp buf) then Some O
      else option_map S (first_hit opts rest)
  end.

(** All matches of the content: their number, and the records of lines
    266-270 in the order they are printed, numbering lines from
    [line_number + 1]. *)
Fixpoint content_hits (opts : SearchOptions) (bufs : list string) : Z :=
  match bufs with
  | [] => 0
  | buf :: rest =>
      Z.of_nat (List.length (hits opts (chomp buf))) + content_hits opts rest
  end.

Definition line_records (opts : SearchOptions) (filename : string)
    (line_number : Z) (line : string) : list out_rec :=
  if count_only opts then []
  else repeat (content_record opts filename line_number line)
              (List.length (hits opts line)).

Fixpoint content_records (opts : SearchOptions) (filename : string)
    (line_number : Z) (bufs : list string) : list out_rec :=
  match bufs with
  | [] => []
  | buf :: rest =>
      line_records opts filename (line_number + 1) (chomp buf)
      ++ content_records opts filename (line_number + 1) rest
  end.

(** Lines 301-307 together: the filename match. *)
Definition filename_match (opts : SearchOptions) (filename : string)
    (w : World) : World :=
  let w2 := count_file FilenameMatch filename (upd_stats inc_total_matches w) in
  if negb (count_only opts) then print (OutFilenameMatch filename) w2 else w2.

(** The world when the content loop is over and found nothing: the file was
    read to its end when content search is on, then closed. *)
Definition after_quiet_content (opts : SearchOptions) (filename : string)
    (file : File) (w : World) : World :=
  let w1 := upd_stats inc_files_searched w in
  call (Fclose filename)
    (if search_content opts
     then fgets_calls filename (S (List.length (file_lines file))) w1
     else w1).

(** The site at which [search_file] counts a file it searches, if any. *)
Definition counting_site (opts : SearchOptions) (filename : string)
    (file : File) : option count_site :=
  if search_content opts && content_matches opts file then
    Some (if only_matching_files opts then ContentEarlyExit else ContentMatch)
  else if search_filenames opts && name_matches opts filename then
    Some FilenameMatch
  else None.

(** The world once [search_file] has opened the file and asked for its
    size, lines 214-222. *)
Definition opened (filename : string) (file : File) (w : World) : World :=
  let w0 := call (Fopen filename) w in
  match fstat file with
  | Some st_size => upd_stats (add_total_size st_size) w0
  | None => w0
  end.

(** The events [search_file] logs after [Fopen] all belong to the file. *)
Definition file_event (filename : string) (e : event) : Prop :=
  e = Fgets filename \/ e = Fclose filename \/ exists s, e = Counted filename s.

(** ** Concrete inputs *)

Definition stats0 : SearchStats := mkStats 0 0 0 0 0.
Definition world0 : World := mkWorld stats0 [] [].

(** The options [parse_arguments] leaves for the given keywords and no
    flag. *)
Definition default_options (kws : list string) : SearchOptions :=
  {| keywords := kws; case_sensitive := true; recursive := true;
     search_filenames := true; search_content := true;
     show_line_numbers := true; max_depth := -1;
     only_matching_files := false; count_only := false;
     min_size := 0; max_size := -1; file_pattern := ""; start_dir := "." |}.

(** [-l]: names-only mode. *)
Definition names_only (o : SearchOptions) : SearchOptions :=
  {| keywords := keywords o; case_sensitive := case_sensitive o;
     recursive := recursive o; search_filenames := search_filenames o;
     search_content := search_content o;
     show_line_numbers := show_line_numbers o; max_depth := max_depth o;
     only_matching_files := true; count_only := count_only o;
     min_size := min_size o; max_size := max_size o;
     file_pattern := file_pattern o; start_dir := start_dir o |}.

(** [-i]: case-insensitive search. *)
Definition ignore_case (o : SearchOptions) : SearchOptions :=
  {| keywords := keywords o; case_sensitive := false;
     recursive := recursive o; search_filenames := search_filenames o;
     search_content := search_content o;
     show_line_numbers := show_line_numbers o; max_depth := max_depth o;
     only_matching_files := only_matching_files o; count_only := count_only o;
     min_size := min_size o; max_size := max_size o;
     file_pattern := file_pattern o; start_dir := start_dir o |}.

(** [-s n]: minimum size. *)
Definition with_min_size (n : Z) (o : SearchOptions) : SearchOptions :=
  {| keywords := keywords o; case_sensitive := case_sensitive o;
     recursive := recursive o; search_filenames := search_filenames o;
     search_content := search_content o;
     show_line_numbers := show_line_numbers o; max_depth := max_depth o;
     only_matching_files := only_matching_files o; count_only := count_only o;
     min_size := n; max_size := max_size o;
     file_pattern := file_pattern o; start_dir := start_dir o |}.

(** [-d n]: maximum depth. *)
Definition with_max_depth (n : Z) (o : SearchOptions) : SearchOptions :=
  {| keywords := keywords o; case_sensitive := case_sensitive o;
     recursive := recursive o; search_filenames := search_filenames o;
     search_content := search_content o;
     show_line_numbers := show_line_numbers o; max_depth := n;
     only_matching_files := only_matching_files o; count_only := count_only o;
     min_size := min_size o; max_size := max_size o;
     file_pattern := file_pattern o; start_dir := start_dir o |}.

(** A regular file with the given bytes whose [fstat] succeeds. *)
Definition plain_file (data : string) : File :=
  mkFile (strlen data) true data.

Definition lines (ls : list string) : string :=
  String.concat "" (map (fun l => l ++ String LF "") ls).

(** A file system that holds one file. *)
Definition one_file (name : string) (file : File) : FileSystem :=
  {| fs_opendir := fun _ => None;
     fs_lstat := fun p => if String.eqb p name then Some S_IFREG else None;
     fs_fopen := fun p => if String.eqb p name then Some file else None |}.

(** Five lines that all hold "foo". *)
Definition five_foo : File :=
  plain_file (lines ["foo one"; "two foo"; "foo"; "a foo b"; "foofoo"]).

(** A file of 500 bytes whose [fstat] fails. *)
Definition no_stat_file : File :=
  mkFile 500 false (lines ["needle"]).

(** The tree [{a.txt: "foo\nbar", b/c.txt: "foo foo"}] under ".", with a
    symbolic link [b/up] that points back at ".": [opendir] follows it,
    [lstat] does not. *)
Definition demo_fs : FileSystem :=
  {| fs_opendir := fun p =>
       if String.eqb p "." then Some ["."; ".."; "a.txt"; "b"]
       else if String.eqb p "./b" then Some ["."; ".."; "c.txt"; "up"]
       else if String.eqb p "./b/up" then Some ["."; ".."; "a.txt"; "b"]
       else None;
     fs_lstat := fun p =>
       if String.eqb p "./a.txt" then Some S_IFREG
       else if String.eqb p "./b" then Some S_IFDIR
       else if String.eqb p "./b/c.txt" then Some S_IFREG
       else if String.eqb p "./b/up" then Some S_IFLNK
       else None;
     fs_fopen := fun p =>
       if String.eqb p "./a.txt"
       then Some (plain_file ("foo" ++ String LF "bar"))
       else if String.eqb p "./b/c.txt" then Some (plain_file "foo foo")
       else None |}.

(** An event of the walker on the entries of a directory: the call of
    [opendir] on a subdirectory or of [fopen] on a file. *)
Definition is_opendir (e : event) : bool :=
  match e with Opendir _ => true | _ => false end.

(** What entitles the walker to an event on an entry: [opendir] on what
    [lstat] calls a directory, under the recursive flag; [fopen] on what
    [lstat] calls a regular file. *)
Definition justified (fs : FileSystem) (opts : SearchOptions) (e : event) : Prop :=
  match e with
  | Opendir p => fs_lstat fs p = Some S_IFDIR /\ recursive opts = true
  | Fopen p => fs_lstat fs p = Some S_IFREG
  | _ => True
  end.

(** ** Further notions *)

(** The lexicographic order on lowered strings. *)
Fixpoint lex_lt (a b : list Z) : Prop :=
  match a, b with
  | _, [] => False
  | [], _ :: _ => True
  | x :: a', y :: b' => x < y \/ (x = y /\ lex_lt a' b')
  end.

(** A record of the filename search, line 306. *)
Definition is_filename_record (r : out_rec) : Prop :=
  exists p, r = OutFilenameMatch p.


(** The calls [search_directory] makes itself. *)
Definition walker_call (e : event) : Prop :=
  match e with
  | Opendir _ | Closedir _ | Lstat _ => True
  | _ => False
  end.

(** What a log says was opened: the sizes [fstat] reported for the files
    whose [fopen] succeeded, and how many of these files passed the
    filters. *)
Fixpoint sizes_reported (fs : FileSystem) (log : list event) : Z :=
  match log with
  | [] => 0
  | Fopen p :: r =>
      match fs_fopen fs p with
      | Some file =>
          match fstat file with
          | Some st_size => st_size + sizes_reported fs r
          | None => sizes_reported fs r
          end
      | None => sizes_reported fs r
      end
  | _ :: r => sizes_reported fs r
  end.

Fixpoint files_passed (fs : FileSystem) (opts : SearchOptions)
    (log : list event) : Z :=
  match log with
  | [] => 0
  | Fopen p :: r =>
      match fs_fopen fs p with
      | Some file =>
          (if passes_filters opts p file then 1 else 0) + files_passed fs opts r
      | None => files_passed fs opts r
      end
  | _ :: r => files_passed fs opts r
  end.

(** [q] is reached from [p] through [k] directory entries that the walker
    does not skip at lines 343 and 348. *)
Inductive descends : string -> nat -> string -> Prop :=
| descends_here p : descends p 0 p
| descends_step p d k q :
    dot_entry d = false -> path_too_long p d = false ->
    descends (entry_path p d) k q -> descends p (S k) q.

(** Level [k] below a walk at [depth] is within the depth limit. *)
Definition within_depth (opts : SearchOptions) (depth : Z) (k : nat) : Prop :=
  0 <= max_depth opts -> depth + Z.of_nat k <= max_depth opts.

(** Where an event of a walk from [root] at [depth] takes place: a
    directory call on a directory [k] levels down, any other call on an
    entry of such a directory. *)
Definition located (opts : SearchOptions) (root : string) (depth : Z)
    (e : event) : Prop :=
  match e with
  | Opendir p | Closedir p =>
      exists k, descends root k p /\ within_depth opts depth k /\
                (recursive opts = false -> k = O)
  | Lstat p | Fopen p | Fgets p | Fclose p | Counted p _ =>
      exists k, descends root (S k) p /\ within_depth opts depth k /\
                (recursive opts = false -> k = O)
  end.

Definition event_path (e : event) : string :=
  match e with
  | Opendir p | Closedir p | Lstat p | Fopen p | Fgets p | Fclose p
  | Counted p _ => p
  end.

(** The directory handles and the files a log leaves open: [opendir] and
    [fopen] that succeed open one, [closedir] and [fclose] close one. *)
Fixpoint dirs_open (fs : FileSystem) (log : list event) : Z :=
  match log with
  | [] => 0
  | Opendir p :: r =>
      (match fs_opendir fs p with Some _ => 1 | None => 0 end) + dirs_open fs r
  | Closedir _ :: r => dirs_open fs r - 1
  | _ :: r => dirs_open fs r
  end.

Fixpoint files_open (fs : FileSystem) (log : list event) : Z :=
  match log with
  | [] => 0
  | Fopen p :: r =>
      (match fs_fopen fs p with Some _ => 1 | None => 0 end) + files_open fs r
  | Fclose _ :: r => files_open fs r - 1
  | _ :: r => files_open fs r
  end.

(** A log that closes what it opens, never closes what is not open, and
    never has two files open at once. *)
Definition tidy (fs : FileSystem) (log : list event) : Prop :=
  dirs_open fs log = 0 /\ files_open fs log = 0 /\
  forall pre post, log = (pre ++ post)%list ->
    0 <= dirs_open fs pre /\ 0 <= files_open fs pre <= 1.

(** ** parse_arguments, lines 114-191 *)

Definition EXIT_SUCCESS : Z := 0.
Definition EXIT_FAILURE : Z := 1.

(** What [access(path, F_OK) == 0] and [stat] (which follows links) answer
    for an argument. *)
Record Access := mkAccess {
  env_access : string -> bool;
  env_stat : string -> option file_type
}.

(** What the argument parser writes before it leaves: the help text of
    [print_help] on standard output, a message on standard error. *)
Inductive console :=
| PrintHelp
| Stderr (text : string).

Inductive parsed :=
| Options (opts : SearchOptions)
| Exit (status : Z).

(** [strncpy(dst, src, n)] into a buffer of more than [n] bytes whose last
    byte is the NUL that [memset] in [init_options] wrote, line 179 writing
    it again for a keyword: the first [n] characters of [src]. *)
Definition strncpy (n : nat) (src : string) : string := substring 0 n src.

(** [isspace] and [isdigit] of <ctype.h> in the "C" locale. *)
Definition isspace (c : ascii) : bool :=
  (uchar c =? 32) || ((9 <=? uchar c) && (uchar c <=? 13)).
Definition isdigit (c : ascii) : bool :=
  (48 <=? uchar c) && (uchar c <=? 57).

Fixpoint skip_spaces (s : string) : string :=
  match s with
  | EmptyString => EmptyString
  | String c r => if isspace c then skip_spaces r else s
  end.

Fixpoint digits_value (acc : Z) (s : string) : Z :=
  match s with
  | EmptyString => acc
  | String c r =>
      if isdigit c then digits_value (10 * acc + (uchar c - 48)) r else acc
  end.

(** [atol] and [atoi] of <stdlib.h> (ISO C 7.22.1.2): white space, an
    optional sign, decimal digits; 0 when no digit follows.  This is the
    value when it fits the result type; beyond that ISO C leaves the
    behaviour undefined. *)
Definition atol (s : string) : Z :=
  match skip_spaces s with
  | EmptyString => 0
  | String c r =>
      if Ascii.eqb c "-" then - digits_value 0 r
      else if Ascii.eqb c "+" then digits_value 0 r
      else digits_value 0 (String c r)
  end.
Definition atoi (s : string) : Z := atol s.

(** The assignments of the [switch], and line 178-180. *)
Definition set_recursive (o : SearchOptions) : SearchOptions :=
  {| keywords := keywords o; case_sensitive := case_sensitive o;
     recursive := true; search_filenames := search_filenames o;
     search_content := search_content o;
     show_line_numbers := show_line_numbers o; max_depth := max_depth o;
     only_matching_files := only_matching_files o; count_only := count_only o;
     min_size := min_size o; max_size := max_size o;
     file_pattern := file_pattern o; start_dir := start_dir o |}.

Definition set_count_only (o : SearchOptions) : SearchOptions :=
  {| keywords := keywords o; case_sensitive := case_sensitive o;
     recursive := recursive o; search_filenames := search_filenames o;
     search_content := search_content o;
     show_line_numbers := show_line_numbers o; max_depth := max_depth o;
     only_matching_files := only_matching_files o; count_only := true;
     min_size := min_size o; max_size := max_size o;
     file_pattern := file_pattern o; start_dir := start_dir o |}.

Definition set_show_line_numbers (o : SearchOptions) : SearchOptions :=
  {| keywords := keywords o; case_sensitive := case_sensitive o;
     recursive := recursive o; search_filenames := search_filenames o;
     search_content := search_content o;
     show_line_numbers := true; max_depth := max_depth o;
     only_matching_files := only_matching_files o; count_only := count_only o;
     min_size := min_size o; max_size := max_size o;
     file_pattern := file_pattern o; start_dir := start_dir o |}.

Definition with_max_size (n : Z) (o : SearchOptions) : SearchOptions :=
  {| keywords := keywords o; case_sensitive := case_sensitive o;
     recursive := recursive o; search_filenames := search_filenames o;
     search_content := search_content o;
     show_line_numbers := show_line_numbers o; max_depth := max_depth o;
     only_matching_files := only_matching_files o; count_only := count_only o;
     min_size := min_size o; max_size := n;
     file_pattern := file_pattern o; start_dir := start_dir o |}.

Definition with_file_pattern (p : string) (o : SearchOptions) : SearchOptions :=
  {| keywords := keywords o; case_sensitive := case_sensitive o;
     recursive := recursive o; search_filenames := search_filenames o;
     search_content := search_content o;
     show_line_numbers := show_line_numbers o; max_depth := max_depth o;
     only_matching_files := only_matching_files o; count_only := count_only o;
     min_size := min_size o; max_size := max_size o;
     file_pattern := p; start_dir := start_dir o |}.

Definition with_start_dir (d : string) (o : SearchOptions) : SearchOptions :=
  {| keywords := keywords o; case_sensitive := case_sensitive o;
     recursive := recursive o; search_filenames := search_filenames o;
     search_content := search_content o;
     show_line_numbers := show_line_numbers o; max_depth := max_depth o;
     only_matching_files := only_matching_files o; count_only := count_only o;
     min_size := min_size o; max_size := max_size o;
     file_pattern := file_pattern o; start_dir := d |}.

Definition add_keyword (k : string) (o : SearchOptions) : SearchOptions :=
  {| keywords := (keywords o ++ [k])%list; case_sensitive := case_sensitive o;
     recursive := recursive o; search_filenames := search_filenames o;
     search_content := search_content o;
     show_line_numbers := show_line_numbers o; max_depth := max_depth o;
     only_matching_files := only_matching_files o; count_only := count_only o;
     min_size := min_size o; max_size := max_size o;
     file_pattern := file_pattern o; start_dir := start_dir o |}.

Definition keyword_count (o : SearchOptions) : Z :=
  Z.of_nat (List.length (keywords o)).

(** Lines 167-169: the argument names an existing directory. *)
Definition names_directory (env : Access) (arg : string) : bool :=
  env_access env arg
  && match env_stat env arg with
     | Some st_mode => S_ISDIR st_mode
     | None => false
     end.

(** The [while (i < argc)] loop of lines 117-184 on [argv[i ..]], and the
    check of lines 186-190 when it is over. *)
Fixpoint parse_loop (env : Access) (args : list string) (opts : SearchOptions)
  : list console * parsed :=
  match args with
  | [] =>
      if keyword_count opts =? 0 then
        ([Stderr ("Error: No keywords specified" ++ String LF ""); PrintHelp],
         Exit EXIT_FAILURE)
      else ([], Options opts)
  | arg :: rest =>
      if Ascii.eqb (deref arg) "-" then
        let c := deref (next arg) in
        if Ascii.eqb c "i" then parse_loop env rest (ignore_case opts)
        else if Ascii.eqb c "r" then parse_loop env rest (set_recursive opts)
        else if Ascii.eqb c "l" then parse_loop env rest (names_only opts)
        else if Ascii.eqb c "c" then parse_loop env rest (set_count_only opts)
        else if Ascii.eqb c "n"
        then parse_loop env rest (set_show_line_numbers opts)
        else if Ascii.eqb c "f" then
          match rest with
          | value :: rest' =>
              parse_loop env rest' (with_file_pattern (strncpy 255 value) opts)
          | [] => parse_loop env rest opts
          end
        else if Ascii.eqb c "d" then
          match rest with
          | value :: rest' =>
              parse_loop env rest' (with_max_depth (atoi value) opts)
          | [] => parse_loop env rest opts
          end
        else if Ascii.eqb c "s" then
          match rest with
          | value :: rest' =>
              parse_loop env rest' (with_min_size (atol value) opts)
          | [] => parse_loop env rest opts
          end
        else if Ascii.eqb c "S" then
          match rest with
          | value :: rest' =>
              parse_loop env rest' (with_max_size (atol value) opts)
          | [] => parse_loop env rest opts
          end
        else if Ascii.eqb c "h" then ([PrintHelp], Exit EXIT_SUCCESS)
        else
          ([Stderr ("Unknown option: " ++ arg ++ String LF ""); PrintHelp],
           Exit EXIT_FAILURE)
      else if (keyword_count opts =? 0) && names_directory env arg then
        parse_loop env rest (with_start_dir (strncpy 4095 arg) opts)
      else if keyword_count opts <? MAX_KEYWORDS then
        parse_loop env rest (add_keyword (strncpy 255 arg) opts)
      else parse_loop env rest opts
  end.

(** [parse_arguments(argc, argv, opts)]: the loop starts at [argv[1]]. *)
Definition parse_arguments (env : Access) (argv : list string)
    (opts : SearchOptions) : list console * parsed :=
  parse_loop env (tl argv) opts.

(** The options fit the buffers of [SearchOptions], lines 21-34. *)
Definition fits (o : SearchOptions) : Prop :=
  keyword_count o <= MAX_KEYWORDS /\
  Forall (fun k => strlen k <= 255) (keywords o) /\
  strlen (file_pattern o) <= 255 /\
  strlen (start_dir o) < MAX_PATH.

(** One assignment of the parser: what an option, a directory argument or a
    keyword argument does to the options. *)
Inductive parse_step (env : Access) : SearchOptions -> SearchOptions -> Prop :=
| step_i o : parse_step env o (ignore_case o)
| step_r o : parse_step env o (set_recursive o)
| step_l o : parse_step env o (names_only o)
| step_c o : parse_step env o (set_count_only o)
| step_n o : parse_step env o (set_show_line_numbers o)
| step_f o value : parse_step env o (with_file_pattern (strncpy 255 value) o)
| step_d o value : parse_step env o (with_max_depth (atoi value) o)
| step_s o value : parse_step env o (with_min_size (atol value) o)
| step_S o value : parse_step env o (with_max_size (atol value) o)
| step_dir o arg :
    keyword_count o = 0 -> deref arg <> "-"%char ->
    names_directory env arg = true ->
    parse_step env o (with_start_dir (strncpy 4095 arg) o)
| step_keyword o arg :
    keyword_count o < MAX_KEYWORDS -> deref arg <> "-"%char ->
    parse_step env o (add_keyword (strncpy 255 arg) o).

Inductive parse_steps (env : Access) : SearchOptions -> SearchOptions -> Prop :=
| steps_none o : parse_steps env o o
| steps_more o1 o2 o3 :
    parse_step env o1 o2 -> parse_steps env o2 o3 -> parse_steps env o1 o3.

(** What the parser never changes once it holds: the four flags no option
    clears, and keywords that do not start with '-'. *)
Definition parser_keeps (o : SearchOptions) : Prop :=
  recursive o = true /\ search_filenames o = true /\
  search_content o = true /\ show_line_numbers o = true /\
  Forall (fun k => deref k <> "-"%char) (keywords o).

(** The argument is an option [-h...]. *)
Definition asks_help (arg : string) : Prop :=
  deref arg = "-"%char /\ deref (next arg) = "h"%char.




(** ** main, lines 420-460 *)

(** What the program shows, in order: what [parse_arguments] and
    [print_help] say, the heading of lines 432-446, the records of the walk,
    the empty line of line 454, and the report of [print_stats] on the
    counters at the time [end_time]. *)
Inductive shown :=
| Said (c : console)
| Heading (text : string)
| Line (r : out_rec)
| Blank
| PrintStats (s : SearchStats) (end_time : Z).

Definition DQUOTE : ascii := ascii_of_nat 34.

(** [printf] with a keyword between double quotes and a space, line 434. *)
Definition quoted (k : string) : string :=
  String DQUOTE (k ++ String DQUOTE " ").

(** Lines 432-446. *)
Definition heading (o : SearchOptions) : string :=
  "Searching for: " ++ String.concat "" (map quoted (keywords o))
  ++ String LF ""
  ++ "Starting directory: " ++ start_dir o ++ String LF ""
  ++ "Case " ++ (if case_sensitive o then "sensitive" else "insensitive")
  ++ String LF ""
  ++ (if Ascii.eqb (deref (file_pattern o)) NUL then ""
      else "File pattern: " ++ file_pattern o ++ String LF "")
  ++ "----------------------------------------" ++ String LF "".

Definition set_start_time (t : Z) (s : SearchStats) : SearchStats :=
  mkStats (files_searched s) (files_matched s) (total_matches s)
          (total_size s) t.

(** [main(argc, argv)] with [argc] the length of [argv]; [now] and [later]
    are what [time(NULL)] returns at line 448 and in [print_stats].  The
    result is what was shown, the calls made on the file system, and the
    exit status. *)
Definition main (fuel : nat) (env : Access) (fs : FileSystem)
    (now later : Z) (argv : list string)
  : option (list shown * list event * Z) :=
  if Z.of_nat (List.length argv) <? 2 then
    Some ([Said PrintHelp], [], EXIT_FAILURE)
  else
    match parse_arguments env argv init_options with
    | (msgs, Exit status) => Some (map Said msgs, [], status)
    | (msgs, Options opts) =>
        let w := mkWorld (set_start_time now stats0) [] [] in
        match search_directory fuel fs (Some (start_dir opts)) 0 opts w with
        | None => None
        | Some w' =>
            Some ((map Said msgs ++ [Heading (heading opts)]
                   ++ map Line (w_out w')
                   ++ (if negb (count_only opts)
                          && negb (only_matching_files opts)
                       then [Blank] else [])
                   ++ [PrintStats (w_stats w') later])%list,
                  w_log w', EXIT_SUCCESS)
        end
    end.
(** ** Facts about C strings *)

Lemma uchar_range c : 0 <= uchar c < 256.
Proof.
  unfold uchar. pose proof (N_ascii_bounded c) as H. lia.
Qed.

Lemma uchar_zero c : uchar c = 0 -> c = NUL.
Proof.
  unfold uchar. intros H.
  rewrite <- (ascii_N_embedding c).
  replace (N_of_ascii c) with 0%N by lia. reflexivity.
Qed.

Lemma tolower_zero x : tolower x = 0 -> x = 0.
Proof.
  unfold tolower. destruct ((65 <=? x) && (x <=? 90)) eqn:E; [|auto].
  apply andb_true_iff in E. lia.
Qed.

Lemma tolower_uchar_nonzero c : c <> NUL -> tolower (uchar c) <> 0.
Proof.
  intros Hc H. apply Hc, uchar_zero, tolower_zero, H.
Qed.

Lemma strcasecmp_loop_zero a : forall b,
  no_nul a -> no_nul b -> (strcasecmp_loop a b = 0 <-> eq_nocase a b).
Proof.
  unfold eq_nocase.
  induction a as [|x a IH]; intros [|y b] Ha Hb; simpl in *.
  - split; reflexivity.
  - destruct Hb as [Hy _]. pose proof (tolower_uchar_nonzero y Hy).
    change (tolower (uchar NUL)) with 0. split; [lia | discriminate].
  - destruct Ha as [Hx _]. pose proof (tolower_uchar_nonzero x Hx).
    change (tolower (uchar NUL)) with 0. split; [lia | discriminate].
  - destruct Ha as [_ Ha], Hb as [_ Hb].
    destruct (tolower (uchar x) =? tolower (uchar y)) eqn:E; simpl.
    + apply Z.eqb_eq in E. rewrite E, (IH b Ha Hb).
      split; [intros ->; reflexivity | intros H; injection H; auto].
    + apply Z.eqb_neq in E. split; [lia | intros H; injection H; intros; lia].
Qed.

Lemma no_nul_app a b : no_nul (a ++ b) <-> no_nul a /\ no_nul b.
Proof.
  induction a as [|x a IH]; simpl; [tauto|]. rewrite IH. tauto.
Qed.

Lemma contains_app c a b : contains c (a ++ b) = contains c a || contains c b.
Proof.
  induction a as [|x a IH]; simpl; [reflexivity|].
  rewrite IH. apply orb_assoc.
Qed.

Lemma strrchr_none s c : c <> NUL -> contains c s = false -> strrchr s c = None.
Proof.
  intros Hc. induction s as [|a s IH]; simpl; intros H.
  - destruct (Ascii.eqb_spec c NUL); [contradiction | reflexivity].
  - apply orb_false_iff in H. destruct H as [Ha Hs].
    rewrite (IH Hs), Ha. reflexivity.
Qed.

Lemma strrchr_last pre c post :
  c <> NUL -> contains c post = false ->
  strrchr (pre ++ String c post) c = Some (String c post).
Proof.
  intros Hc Hpost. induction pre as [|a pre IH]; simpl.
  - rewrite (strrchr_none post c Hc Hpost), Ascii.eqb_refl. reflexivity.
  - rewrite IH. reflexivity.
Qed.

Lemma strrchr_inv s c : c <> NUL ->
  match strrchr s c with
  | None => contains c s = false
  | Some t => exists pre post,
      s = pre ++ String c post /\ t = String c post /\ contains c post = false
  end.
Proof.
  intros Hc. induction s as [|a s IH]; simpl.
  - destruct (Ascii.eqb_spec c NUL); [contradiction | reflexivity].
  - destruct (strrchr s c) as [t|].
    + destruct IH as (pre & post & -> & -> & Hp).
      exists (String a pre), post. auto.
    + destruct (Ascii.eqb_spec a c) as [->|Hac].
      * exists EmptyString, s. auto.
      * rewrite IH. reflexivity.
Qed.

Lemma slash_not_nul : "/"%char <> NUL.
Proof. discriminate. Qed.

Lemma dot_not_nul : "."%char <> NUL.
Proof. discriminate. Qed.

Lemma basename_of_unique filename b :
  last_component filename b -> basename_of filename = b.
Proof.
  intros [Hb [->|[d ->]]]; unfold basename_of.
  - rewrite (strrchr_none b _ slash_not_nul Hb). reflexivity.
  - rewrite (strrchr_last d _ b slash_not_nul Hb). reflexivity.
Qed.

Lemma basename_of_last_component filename :
  last_component filename (basename_of filename).
Proof.
  unfold basename_of, last_component.
  pose proof (strrchr_inv filename _ slash_not_nul) as H.
  destruct (strrchr filename "/"%char) as [t|].
  - destruct H as (pre & post & -> & -> & Hp). simpl. eauto.
  - auto.
Qed.

Lemma no_nul_basename_of filename : no_nul filename -> no_nul (basename_of filename).
Proof.
  intros H. destruct (basename_of_last_component filename) as [_ [E|[d E]]].
  - rewrite <- E. exact H.
  - rewrite E in H. apply no_nul_app in H. simpl in H. tauto.
Qed.

Lemma extension_strrchr b e :
  extension b e -> strrchr b "."%char = Some (String "."%char e).
Proof.
  intros [He [stem ->]]. apply strrchr_last; [exact dot_not_nul | exact He].
Qed.

Lemma strrchr_extension b t :
  strrchr b "."%char = Some t -> extension b (next t).
Proof.
  intros H. pose proof (strrchr_inv b _ dot_not_nul) as I. rewrite H in I.
  destruct I as (pre & post & -> & -> & Hp). split; simpl; eauto.
Qed.

Lemma no_extension b e : contains "."%char b = false -> ~ extension b e.
Proof.
  intros Hb [_ [stem ->]]. rewrite contains_app in Hb. simpl in Hb.
  rewrite orb_true_r in Hb. discriminate.
Qed.

Lemma no_nul_extension b e : no_nul b -> extension b e -> no_nul e.
Proof.
  intros Hb [_ [stem ->]]. apply no_nul_app in Hb. simpl in Hb. tauto.
Qed.

(** ** The pattern matcher *)

Create HintDb cstr.
#[local] Hint Resolve basename_of_last_component no_nul_basename_of
  slash_not_nul dot_not_nul : cstr.

(** [matches_pattern] on an extension pattern. *)
Lemma matches_pattern_ext filename ext :
  no_nul filename -> no_nul ext ->
  (matches_pattern (Some filename) (Some ("*." ++ ext)) = true <->
   exists e, extension (basename_of filename) e /\ eq_nocase e ext).
Proof.
  intros Hf He. simpl.
  destruct (strrchr (basename_of filename) "."%char) as [t|] eqn:E.
  - pose proof (strrchr_extension _ _ E) as X.
    assert (Ht : no_nul (next t))
      by (eapply no_nul_extension; [apply no_nul_basename_of, Hf | exact X]).
    rewrite Z.eqb_eq, (strcasecmp_loop_zero _ _ Ht He). split.
    + intros H. exists (next t). auto.
    + intros (e & Xe & H). apply extension_strrchr in Xe.
      rewrite E in Xe. injection Xe as ->. exact H.
  - split; [discriminate|]. intros (e & Xe & _).
    apply extension_strrchr in Xe. rewrite E in Xe. discriminate.
Qed.

(** A pattern that is neither empty nor of the form [*.ext] is compared with
    the basename. *)
Lemma matches_pattern_literal filename p :
  p <> "" -> (forall ext, p <> "*." ++ ext) ->
  matches_pattern (Some filename) (Some p) =
  (strcasecmp_loop (basename_of filename) p =? 0).
Proof.
  intros Hp Hform. destruct p as [|p0 p1]; [congruence|]. simpl.
  destruct (Ascii.eqb_spec p0 "*"%char) as [->|]; [|reflexivity].
  destruct p1 as [|p1 p2]; [reflexivity|]. simpl.
  destruct (Ascii.eqb_spec p1 "."%char) as [->|]; [|reflexivity].
  exfalso. apply (Hform p2). reflexivity.
Qed.

(** C3. For a pattern [*.ext], [matches_pattern] answers true exactly when
    the basename of the file name (what follows its last '/', or the whole
    name) has an extension (what follows its last '.') equal to [ext] up to
    case; a basename without '.' matches no extension pattern;
    [matches_pattern("src/main.C", "*.c")] is true; the empty pattern
    matches every file name; any other pattern matches exactly when it
    equals the basename up to case. *)
Theorem C3_matches_pattern (filename : string) :
  no_nul filename ->
  (forall ext, no_nul ext ->
     (matches_pattern (Some filename) (Some ("*." ++ ext)) = true <->
      exists b e, last_component filename b /\ extension b e /\ eq_nocase e ext))
  /\ (forall b ext, last_component filename b -> contains "."%char b = false ->
        matches_pattern (Some filename) (Some ("*." ++ ext)) = false)
  /\ matches_pattern (Some "src/main.C") (Some "*.c") = true
  /\ matches_pattern (Some filename) (Some "") = true
  /\ (forall p, no_nul p -> p <> "" -> (forall ext, p <> "*." ++ ext) ->
        (matches_pattern (Some filename) (Some p) = true <->
         exists b, last_component filename b /\ eq_nocase b p)).
Proof.
  intros Hf. split; [|split; [|split; [|split]]].
  - intros ext He. split.
    + intros H. apply (matches_pattern_ext filename ext Hf He) in H.
      destruct H as (e & Xe & Heq).
      exists (basename_of filename), e.
      auto with cstr.
    + intros (b & e & Hb & Xe & Heq).
      apply (matches_pattern_ext filename ext Hf He).
      apply basename_of_unique in Hb. subst b. eauto.
  - intros b ext Hb Hdot. apply basename_of_unique in Hb. subst b. simpl.
    rewrite (strrchr_none _ _ dot_not_nul Hdot). reflexivity.
  - reflexivity.
  - reflexivity.
  - intros p Hp Hne Hform.
    rewrite (matches_pattern_literal filename p Hne Hform), Z.eqb_eq.
    rewrite (strcasecmp_loop_zero _ _ (no_nul_basename_of _ Hf) Hp). split.
    + intros H. exists (basename_of filename).
      auto with cstr.
    + intros (b & Hb & Heq). apply basename_of_unique in Hb. subst b. exact Heq.
Qed.

Lemma C3_matches_pattern_witness :
  no_nul "src/main.C" /\
  (matches_pattern (Some "src/main.C") (Some "*.c") = true <->
   exists b e, last_component "src/main.C" b /\ extension b e /\ eq_nocase e "c").
Proof.
  assert (H : no_nul "src/main.C") by (simpl; repeat split; discriminate).
  split; [exact H|].
  apply (proj1 (C3_matches_pattern "src/main.C" H) "c").
  simpl. repeat split; discriminate.
Defined.

Open Scope list_scope.

(** ** What the line matcher finds *)

Lemma prefix_iff : forall n h,
  prefix n h = true <-> exists post, h = (n ++ post)%string.
Proof.
  induction n as [|a n IH]; intros [|b h]; simpl.
  - split; eauto.
  - split; eauto.
  - split; [discriminate | intros [post E]; discriminate].
  - destruct (ascii_dec a b) as [->|Hab].
    + rewrite IH. split; intros [post E]; exists post; congruence.
    + split; [discriminate | intros [post E]; congruence].
Qed.

(** [strstr] finds the needle exactly when it is a substring. *)
Lemma strstr_found : forall h n,
  strstr h n <> None <-> exists pre post, h = (pre ++ n ++ post)%string.
Proof.
  induction h as [|c h IH]; intros n.
  - cbn [strstr]. destruct (prefix n "") eqn:P.
    + apply prefix_iff in P. destruct P as [post E].
      split; [|discriminate]. intros _. exists ""%string, post. exact E.
    + split; [congruence|]. intros (pre & post & E).
      destruct pre; [|discriminate]. simpl in E.
      assert (prefix n "" = true) by (apply prefix_iff; eauto). congruence.
  - cbn [strstr]. destruct (prefix n (String c h)) eqn:P.
    + apply prefix_iff in P. destruct P as [post E].
      split; [|discriminate]. intros _. exists ""%string, post. exact E.
    + rewrite IH. split.
      * intros (pre & post & ->). exists (String c pre), post. reflexivity.
      * intros (pre & post & E). destruct pre as [|x pre]; simpl in E.
        -- assert (prefix n (String c h) = true) by (apply prefix_iff; eauto).
           congruence.
        -- injection E as _ E. eauto.
Qed.

(** The inner loop of [strstr_case] uses the needle up exactly when the
    haystack starts with it, up to case. *)
Lemma strstr_case_inner_done : forall h n,
  strstr_case_inner h n = ""%string <->
  exists mid post, h = (mid ++ post)%string /\ eq_nocase mid n.
Proof.
  unfold eq_nocase.
  induction h as [|a h IH]; intros [|b n]; simpl.
  - split; [|reflexivity]. intros _. exists ""%string, ""%string. auto.
  - split; [discriminate|]. intros (mid & post & E & L).
    destruct mid; discriminate.
  - split; [|reflexivity]. intros _. exists ""%string, (String a h). auto.
  - destruct (Z.eqb_spec (tolower (uchar a)) (tolower (uchar b))) as [E | E].
    + rewrite IH. split.
      * intros (mid & post & -> & L). exists (String a mid), post.
        simpl. rewrite L, E. auto.
      * intros (mid & post & Eh & L). destruct mid as [|x mid]; [discriminate|].
        simpl in Eh, L. injection Eh as -> ->. injection L as _ L. eauto.
    + split; [discriminate|]. intros (mid & post & Eh & L).
      destruct mid as [|x mid]; [discriminate|].
      simpl in Eh, L. injection Eh as -> ->. injection L as L _. contradiction.
Qed.

(** [strstr_case] finds a needle that is not empty exactly when some
    substring equals it up to case. *)
Lemma strstr_case_found h n :
  n <> ""%string ->
  (strstr_case (Some h) (Some n) <> None <->
   exists pre mid post, h = (pre ++ mid ++ post)%string /\ eq_nocase mid n).
Proof.
  intros Hn. unfold strstr_case. destruct n as [|b n]; [congruence|]. clear Hn.
  induction h as [|c h IH].
  - simpl. split; [congruence|]. intros (pre & mid & post & E & L).
    destruct pre; [|discriminate]. destruct mid; discriminate.
  - cbn [strstr_case_loop].
    destruct (strstr_case_inner (String c h) (String b n)) as [|x rem] eqn:I.
    + apply strstr_case_inner_done in I. destruct I as (mid & post & E & L).
      split; [|discriminate]. intros _. exists ""%string, mid, post. auto.
    + rewrite IH. split.
      * intros (pre & mid & post & -> & L).
        exists (String c pre), mid, post. auto.
      * intros (pre & mid & post & E & L). destruct pre as [|y pre].
        -- assert (D : strstr_case_inner (String c h) (String b n) = ""%string)
             by (apply strstr_case_inner_done; exists mid, post; auto).
           congruence.
        -- simpl in E. injection E as _ E. eauto.
Qed.

(** The verdict of the line matcher on a keyword that is not empty. *)
Lemma keyword_found_iff opts text kw :
  kw <> ""%string ->
  (keyword_found opts text kw = true <->
   exists pre mid post,
     text = (pre ++ mid ++ post)%string /\
     if case_sensitive opts then mid = kw else eq_nocase mid kw).
Proof.
  intros Hkw. unfold keyword_found. destruct (case_sensitive opts).
  - pose proof (strstr_found text kw) as F.
    destruct (strstr text kw).
    + split; [|reflexivity]. intros _.
      destruct (proj1 F) as (pre & post & E); [discriminate|]. eauto.
    + split; [discriminate|]. intros (pre & mid & post & E & ->).
      exfalso. apply (proj2 F); eauto.
  - pose proof (strstr_case_found text kw Hkw) as F.
    destruct (strstr_case (Some text) (Some kw)).
    + split; [|reflexivity]. intros _. apply (proj1 F). discriminate.
    + split; [discriminate|]. intros H. exfalso. apply (proj2 F); auto.
Qed.

Example line_matches_ignoring_case :
  keyword_found (ignore_case (default_options ["WORLD"%string]))
                "Hello World" "WORLD" = true.
Proof. reflexivity. Qed.

Example line_matches_case_sensitive :
  keyword_found (default_options ["world"%string]) "Hello World" "world" = false.
Proof. reflexivity. Qed.

(** ** strstr_case stays inside its strings *)

Lemma chars_length s : List.length (Ptr.chars s) = String.length s.
Proof. induction s; simpl; auto. Qed.

Lemma chars_app a b : Ptr.chars (a ++ b)%string = Ptr.chars a ++ Ptr.chars b.
Proof. induction a as [|x a IH]; simpl; [reflexivity | rewrite IH; reflexivity]. Qed.

(** Reading where the rest [s] of a string starts gives its first character,
    the terminator when [s] is empty. *)
Lemma load_rest pre s :
  Ptr.load (pre ++ Ptr.array_of s) (List.length pre) = Some (deref s).
Proof.
  unfold Ptr.load, Ptr.array_of.
  rewrite nth_error_app2, Nat.sub_diag by apply le_n.
  destruct s; reflexivity.
Qed.

Lemma array_step pre c s :
  pre ++ Ptr.array_of (String c s) = (pre ++ [c]) ++ Ptr.array_of s.
Proof. unfold Ptr.array_of. simpl. rewrite <- app_assoc. reflexivity. Qed.

Lemma length_snoc {A} (l : list A) x : List.length (l ++ [x]) = S (List.length l).
Proof. rewrite length_app. simpl. lia. Qed.

Lemma inner_loop_in_bounds : forall h n pa pb fuel,
  no_nul h -> no_nul n -> (String.length h < fuel)%nat ->
  exists used,
    n = (used ++ strstr_case_inner h n)%string /\
    Ptr.inner_loop fuel (pa ++ Ptr.array_of h) (List.length pa)
                        (pb ++ Ptr.array_of n) (List.length pb)
    = Ptr.Done (List.length pb + String.length used)%nat.
Proof.
  induction h as [|a h IH]; intros n pa pb fuel Hh Hn Hfuel;
    (destruct fuel as [|fuel]; [simpl in Hfuel; lia|]);
    cbn [Ptr.inner_loop]; rewrite load_rest; cbn [deref].
  - exists ""%string. simpl. rewrite Nat.add_0_r.
    destruct n; auto.
  - destruct Hh as [Ha Hh].
    destruct (Ascii.eqb_spec a NUL) as [|_]; [contradiction|].
    rewrite load_rest. destruct n as [|b n]; cbn [deref].
    + exists ""%string. simpl. rewrite Nat.add_0_r. auto.
    + destruct Hn as [Hb Hn].
      destruct (Ascii.eqb_spec b NUL) as [|_]; [contradiction|].
      cbn [strstr_case_inner].
      destruct (tolower (uchar a) =? tolower (uchar b)).
      * rewrite !array_step, <- (length_snoc pa a), <- (length_snoc pb b).
        destruct (IH n (pa ++ [a]) (pb ++ [b]) fuel Hh Hn) as (used & E & R).
        { simpl in Hfuel. lia. }
        exists (String b used). split.
        -- simpl. rewrite <- E. reflexivity.
        -- rewrite R, length_snoc. simpl. f_equal. lia.
      * exists ""%string. simpl. rewrite Nat.add_0_r. auto.
Qed.

Lemma deref_nul s : no_nul s -> Ascii.eqb (deref s) NUL = true -> s = ""%string.
Proof.
  destruct s as [|c s]; [reflexivity|]. simpl. intros [Hc _] E.
  apply Ascii.eqb_eq in E. contradiction.
Qed.

Lemma for_loop_in_bounds n : no_nul n -> forall h pa fuel,
  no_nul h -> (String.length h < fuel)%nat ->
  exists r,
    Ptr.for_loop fuel (pa ++ Ptr.array_of h) (List.length pa) (Ptr.array_of n) 0
    = Ptr.Done r /\
    match strstr_case_loop h n with
    | None => r = None
    | Some suffix =>
        exists pre, h = (pre ++ suffix)%string /\
                    r = Some (List.length pa + String.length pre)%nat
    end.
Proof.
  intros Hn. induction h as [|c h IH]; intros pa fuel Hh Hfuel;
    (destruct fuel as [|fuel]; [simpl in Hfuel; lia|]);
    cbn [Ptr.for_loop]; rewrite load_rest; cbn [deref].
  - simpl. eauto.
  - destruct (inner_loop_in_bounds (String c h) n pa [] (S fuel) Hh Hn Hfuel)
      as (used & E & R).
    cbn [app List.length Nat.add] in R. rewrite R. clear R.
    destruct Hh as [Hc Hh].
    destruct (Ascii.eqb_spec c NUL) as [|_]; [contradiction|].
    assert (L : Ptr.load (Ptr.array_of n) (String.length used)
                = Some (deref (strstr_case_inner (String c h) n))).
    { rewrite E at 1. unfold Ptr.array_of. rewrite chars_app, <- app_assoc.
      rewrite <- chars_length. apply (load_rest (Ptr.chars used)). }
    rewrite L. clear L.
    assert (Hrem : no_nul (strstr_case_inner (String c h) n)).
    { rewrite E in Hn. apply no_nul_app in Hn. tauto. }
    cbn [strstr_case_loop].
    destruct (strstr_case_inner (String c h) n) as [|x rem] eqn:I; cbn [deref].
    + simpl. eexists. split; [reflexivity|]. exists ""%string. simpl.
      rewrite Nat.add_0_r. auto.
    + destruct Hrem as [Hx _].
      destruct (Ascii.eqb_spec x NUL) as [|_]; [contradiction|].
      rewrite array_step, <- (length_snoc pa c).
      destruct (IH (pa ++ [c]) fuel Hh) as (r & R & S).
      { simpl in Hfuel. lia. }
      exists r. split; [exact R|].
      destruct (strstr_case_loop h n) as [suffix|]; [|exact S].
      destruct S as (pre & -> & ->). exists (String c pre).
      split; [reflexivity|]. rewrite length_snoc. simpl. f_equal. lia.
Qed.

(** On two arrays that end at the terminators of a haystack and a needle,
    [strstr_case] finishes without a read outside them, for haystacks and
    needles of any length, and returns what the function on strings says:
    NULL, or the offset of the suffix found. *)
Lemma strstr_case_in_bounds h n fuel :
  no_nul h -> no_nul n -> (String.length h < fuel)%nat ->
  exists r,
    Ptr.strstr_case fuel (Ptr.array_of h) 0 (Ptr.array_of n) 0 = Ptr.Done r /\
    match strstr_case (Some h) (Some n) with
    | None => r = None
    | Some suffix =>
        exists pre, h = (pre ++ suffix)%string /\ r = Some (String.length pre)
    end.
Proof.
  intros Hh Hn Hfuel. unfold Ptr.strstr_case, strstr_case.
  pose proof (load_rest [] n) as L. cbn [app List.length] in L. rewrite L.
  clear L. destruct n as [|b n]; cbn [deref].
  - simpl. eauto.
  - destruct (Ascii.eqb_spec b NUL) as [E|_]; [destruct Hn; contradiction|].
    apply (for_loop_in_bounds (String b n) Hn h [] fuel Hh Hfuel).
Qed.

Example strstr_case_on_arrays :
  Ptr.strstr_case 12 (Ptr.array_of "Hello World") 0 (Ptr.array_of "WORLD") 0
  = Ptr.Done (Some 6%nat).
Proof. reflexivity. Qed.
(** ** Reading a file line by line *)

Lemma fgets_chars_split : forall stream room,
  stream = (fst (fgets_chars room stream) ++ snd (fgets_chars room stream))%string.
Proof.
  induction stream as [|c r IH]; intros room; simpl; [reflexivity|].
  destruct (room =? 0)%N; [reflexivity|].
  destruct (Ascii.eqb c LF); [reflexivity|].
  specialize (IH (room - 1)%N).
  destruct (fgets_chars (room - 1) r) as [l rest]. simpl in *.
  rewrite <- IH. reflexivity.
Qed.

Lemma fgets_chars_rest : forall stream room,
  (String.length (snd (fgets_chars room stream)) <= String.length stream)%nat.
Proof.
  induction stream as [|c r IH]; intros room; simpl; [lia|].
  destruct (room =? 0)%N; [simpl; lia|].
  destruct (Ascii.eqb c LF); [simpl; lia|].
  specialize (IH (room - 1)%N).
  destruct (fgets_chars (room - 1) r) as [l rest]. simpl in *. lia.
Qed.

Lemma fgets_chars_progress c r room :
  (0 < room)%N ->
  (String.length (snd (fgets_chars room (String c r))) <= String.length r)%nat.
Proof.
  intros Hroom. cbn [fgets_chars].
  destruct (N.eqb_spec room 0); [lia|].
  destruct (Ascii.eqb c LF); [simpl; lia|].
  pose proof (fgets_chars_rest r (room - 1)%N) as H.
  destruct (fgets_chars (room - 1) r) as [l rest]. exact H.
Qed.

Lemma concat_cons b bs :
  String.concat "" (b :: bs) = (b ++ String.concat "" bs)%string.
Proof.
  destruct bs as [|b' bs]; simpl; [|reflexivity].
  induction b as [|x b IH]; simpl; [reflexivity | rewrite <- IH; reflexivity].
Qed.

(** With as much fuel as the stream has characters, the buffers hold the
    whole stream. *)
Lemma read_lines_whole : forall fuel stream,
  (String.length stream <= fuel)%nat ->
  String.concat "" (read_lines fuel stream) = stream.
Proof.
  induction fuel as [|fuel IH]; intros [|c r] H; try reflexivity.
  - simpl in H. lia.
  - cbn [read_lines fgets].
    pose proof (fgets_chars_split (String c r) (MAX_LINE - 1)) as S.
    pose proof (fgets_chars_progress c r (MAX_LINE - 1) eq_refl) as P.
    destruct (fgets_chars (MAX_LINE - 1) (String c r)) as [buf rest].
    simpl fst in *. simpl snd in *. simpl in H.
    rewrite concat_cons, IH; [symmetry; exact S | lia].
Qed.

(** More fuel reads the same buffers. *)
Lemma read_lines_fuel : forall fuel fuel' stream,
  (String.length stream <= fuel)%nat -> (String.length stream <= fuel')%nat ->
  read_lines fuel stream = read_lines fuel' stream.
Proof.
  induction fuel as [|fuel IH]; intros [|fuel'] [|c r] H H';
    try reflexivity; try (simpl in H, H'; lia).
  cbn [read_lines fgets].
  pose proof (fgets_chars_progress c r (MAX_LINE - 1) eq_refl) as P.
  destruct (fgets_chars (MAX_LINE - 1) (String c r)) as [buf rest].
  simpl snd in *. simpl in H, H'. f_equal. apply IH; lia.
Qed.

Lemma file_lines_whole file : String.concat "" (file_lines file) = f_data file.
Proof. apply read_lines_whole. apply le_n. Qed.

(** ** The keyword loops of search_file *)

Lemma world_eta w : mkWorld (w_stats w) (w_out w) (w_log w) = w.
Proof. destruct w; reflexivity. Qed.

Lemma add_matches_0 s : add_matches 0 s = s.
Proof. destruct s; unfold add_matches; cbn [total_matches files_searched files_matched total_size start_time]. f_equal. lia. Qed.

Lemma add_matches_inc k s :
  add_matches k (inc_total_matches s) = add_matches (1 + k) s.
Proof. destruct s; unfold add_matches, inc_total_matches; cbn [total_matches files_searched files_matched total_size start_time]. f_equal. lia. Qed.

Lemma add_matches_add j k s :
  add_matches k (add_matches j s) = add_matches (j + k) s.
Proof. destruct s; unfold add_matches; cbn [total_matches files_searched files_matched total_size start_time]. f_equal. lia. Qed.

Lemma print_match_names_only opts filename n line w :
  only_matching_files opts = true -> print_match opts filename n line w = w.
Proof.
  intros H. unfold print_match. rewrite H, andb_false_r. reflexivity.
Qed.

Lemma print_match_shown opts filename n line w :
  only_matching_files opts = false ->
  print_match opts filename n line w =
  mkWorld (w_stats w)
          (w_out w ++ (if count_only opts then []
                       else [content_record opts filename n line]))
          (w_log w).
Proof.
  intros H. unfold print_match, content_record. rewrite H, andb_true_r.
  destruct (count_only opts); simpl.
  - rewrite app_nil_r. symmetry. apply world_eta.
  - destruct (show_line_numbers opts); reflexivity.
Qed.

(** Outside names-only mode the keyword loop never leaves [search_file]:
    every keyword found counts and prints for itself. *)
Lemma check_keywords_shown opts filename n line :
  only_matching_files opts = false ->
  forall kws w m,
  check_keywords opts filename n line kws w m =
  Next (mkWorld
          (add_matches (Z.of_nat (List.length (filter (keyword_found opts line) kws)))
                       (w_stats w))
          (w_out w ++ (if count_only opts then []
                       else repeat (content_record opts filename n line)
                              (List.length (filter (keyword_found opts line) kws))))
          (w_log w),
        m || existsb (keyword_found opts line) kws).
Proof.
  intros Hl. induction kws as [|kw kws IH]; intros w m; simpl.
  - rewrite add_matches_0, orb_false_r.
    destruct (count_only opts); simpl; rewrite app_nil_r, world_eta; reflexivity.
  - destruct (keyword_found opts line kw) eqn:F.
    + rewrite Hl, IH, (print_match_shown _ _ _ _ _ Hl). simpl w_stats.
      simpl w_out. simpl w_log. rewrite add_matches_inc, orb_true_r.
      replace (1 + Z.of_nat (List.length (filter (keyword_found opts line) kws)))
        with (Z.of_nat (List.length (kw :: filter (keyword_found opts line) kws)))
        by (simpl List.length; lia).
      destruct (count_only opts); simpl.
      * rewrite app_nil_r. reflexivity.
      * rewrite <- app_assoc. reflexivity.
    + rewrite IH. reflexivity.
Qed.

(** In names-only mode the first keyword found leaves [search_file]. *)
Lemma check_keywords_names_only opts filename n line :
  only_matching_files opts = true ->
  forall kws w m,
  check_keywords opts filename n line kws w m =
  if existsb (keyword_found opts line) kws
  then Return (true, early_exit filename w)
  else Next (w, m).
Proof.
  intros Hl. induction kws as [|kw kws IH]; intros w m; simpl.
  - reflexivity.
  - destruct (keyword_found opts line kw) eqn:F; simpl.
    + rewrite Hl, (print_match_names_only _ _ _ _ _ Hl). reflexivity.
    + apply IH.
Qed.

Lemma fgets_calls_S path k w :
  fgets_calls path k (call (Fgets path) w) = fgets_calls path (S k) w.
Proof.
  unfold fgets_calls, call. simpl. rewrite <- app_assoc. reflexivity.
Qed.

Lemma scan_lines_names_only opts filename :
  only_matching_files opts = true ->
  forall bufs n w m,
  scan_lines opts filename bufs n w m =
  match first_hit opts bufs with
  | Some i => Return (true, early_exit filename (fgets_calls filename (S i) w))
  | None => Next (fgets_calls filename (S (List.length bufs)) w, m)
  end.
Proof.
  intros Hl. induction bufs as [|buf bufs IH]; intros n w m; simpl.
  - reflexivity.
  - rewrite (check_keywords_names_only _ _ _ _ Hl).
    fold (line_matches opts (chomp buf)).
    destruct (line_matches opts (chomp buf)).
    + reflexivity.
    + rewrite IH. destruct (first_hit opts bufs); simpl;
        rewrite fgets_calls_S; reflexivity.
Qed.

Lemma scan_lines_shown opts filename :
  only_matching_files opts = false ->
  forall bufs n w m,
  scan_lines opts filename bufs n w m =
  Next (mkWorld (add_matches (content_hits opts bufs) (w_stats w))
                (w_out w ++ content_records opts filename n bufs)
                (w_log w ++ repeat (Fgets filename) (S (List.length bufs))),
        m || existsb (fun buf => line_matches opts (chomp buf)) bufs).
Proof.
  intros Hl. induction bufs as [|buf bufs IH]; intros n w m; simpl.
  - rewrite add_matches_0, app_nil_r, orb_false_r. reflexivity.
  - rewrite (check_keywords_shown _ _ _ _ Hl), IH. simpl.
    rewrite add_matches_add, <- !app_assoc, orb_assoc. reflexivity.
Qed.

(** The basename loop stops at the first keyword found. *)
Lemma check_basename_spec opts filename base kws w :
  check_basename opts filename base kws w =
  if existsb (keyword_found opts base) kws
  then Return (true, filename_match opts filename w)
  else Next w.
Proof.
  induction kws as [|kw kws IH]; simpl.
  - reflexivity.
  - destruct (keyword_found opts base kw); simpl; [reflexivity | apply IH].
Qed.

Lemma first_hit_none opts bufs :
  existsb (fun buf => line_matches opts (chomp buf)) bufs = false ->
  first_hit opts bufs = None.
Proof.
  induction bufs as [|buf bufs IH]; simpl; [reflexivity|].
  intros H. apply orb_false_iff in H. destruct H as [H1 H2].
  rewrite H1, (IH H2). reflexivity.
Qed.

Lemma first_hit_some opts bufs :
  existsb (fun buf => line_matches opts (chomp buf)) bufs = true ->
  exists i, first_hit opts bufs = Some i /\ (i < List.length bufs)%nat.
Proof.
  induction bufs as [|buf bufs IH]; simpl; [discriminate|].
  destruct (line_matches opts (chomp buf)); simpl.
  - intros _. exists O. split; [reflexivity | lia].
  - intros H. destruct (IH H) as (i & -> & Hi). exists (S i).
    split; [reflexivity | lia].
Qed.

Lemma hits_none opts line : line_matches opts line = false -> hits opts line = [].
Proof.
  unfold line_matches, hits.
  induction (keywords opts) as [|kw kws IH]; simpl; [reflexivity|].
  intros H. apply orb_false_iff in H. destruct H as [H1 H2].
  rewrite H1. auto.
Qed.

Lemma content_quiet opts filename bufs :
  existsb (fun buf => line_matches opts (chomp buf)) bufs = false ->
  content_hits opts bufs = 0 /\
  forall n, content_records opts filename n bufs = [].
Proof.
  induction bufs as [|buf bufs IH]; simpl; [auto|].
  intros H. apply orb_false_iff in H. destruct H as [H1 H2].
  destruct (IH H2) as [Hh Hr]. unfold line_records.
  rewrite (hits_none _ _ H1), Hh. split; [reflexivity|].
  intros n. rewrite Hr. destruct (count_only opts); reflexivity.
Qed.

(** ** search_file on a file that passed the filters *)

(** Path 1: names-only mode, some line matches. *)
Lemma search_open_file_early_exit opts filename file w i :
  search_content opts = true -> only_matching_files opts = true ->
  first_hit opts (file_lines file) = Some i ->
  search_open_file opts filename file w =
  (true, early_exit filename
           (fgets_calls filename (S i) (upd_stats inc_files_searched w))).
Proof.
  intros Hc Hl Hi. unfold search_open_file.
  rewrite Hc, (scan_lines_names_only _ _ Hl), Hi. reflexivity.
Qed.

(** Path 3: some line matches outside names-only mode. *)
Lemma search_open_file_content_match opts filename file w :
  search_content opts = true -> only_matching_files opts = false ->
  content_matches opts file = true ->
  search_open_file opts filename file w =
  (true,
   count_file ContentMatch filename
     (call (Fclose filename)
        (mkWorld
           (add_matches (content_hits opts (file_lines file))
                        (inc_files_searched (w_stats w)))
           (w_out w ++ content_records opts filename 0 (file_lines file))
           (w_log w ++ repeat (Fgets filename)
                         (S (List.length (file_lines file))))))).
Proof.
  intros Hc Hl Hm. unfold search_open_file, content_matches in *.
  rewrite Hc, (scan_lines_shown _ _ Hl), Hm, Hl. simpl.
  rewrite andb_false_r. reflexivity.
Qed.

(** No line matches, or content search is off: the basename decides. *)
Lemma search_open_file_quiet opts filename file w :
  search_content opts && content_matches opts file = false ->
  search_open_file opts filename file w =
  let w3 := after_quiet_content opts filename file w in
  if search_filenames opts && name_matches opts filename
  then (true, filename_match opts filename w3)
  else (false, w3).
Proof.
  intros H. unfold search_open_file, after_quiet_content, name_matches,
    line_matches, content_matches in *.
  destruct (search_content opts); simpl in H |- *.
  - destruct (only_matching_files opts) eqn:Hl.
    + rewrite (scan_lines_names_only _ _ Hl), (first_hit_none _ _ H).
      rewrite andb_true_r, check_basename_spec.
      destruct (search_filenames opts); simpl; [|reflexivity].
      destruct (existsb _ (keywords opts)); reflexivity.
    + rewrite (scan_lines_shown _ _ Hl), H.
      destruct (content_quiet opts filename _ H) as [-> ->].
      simpl. rewrite add_matches_0, app_nil_r, andb_true_r, check_basename_spec.
      destruct (search_filenames opts); simpl; [|reflexivity].
      destruct (existsb _ (keywords opts)); reflexivity.
  - rewrite andb_true_r, check_basename_spec.
    destruct (search_filenames opts); simpl; [|reflexivity].
    destruct (existsb _ (keywords opts)); reflexivity.
Qed.

Lemma search_open_file_cases opts filename file w :
  (exists i,
      search_content opts = true /\ only_matching_files opts = true /\
      content_matches opts file = true /\
      (i < List.length (file_lines file))%nat /\
      search_open_file opts filename file w =
      (true, early_exit filename
               (fgets_calls filename (S i) (upd_stats inc_files_searched w))))
  \/ (search_content opts = true /\ only_matching_files opts = false /\
      content_matches opts file = true /\
      search_open_file opts filename file w =
      (true,
       count_file ContentMatch filename
         (call (Fclose filename)
            (mkWorld
               (add_matches (content_hits opts (file_lines file))
                            (inc_files_searched (w_stats w)))
               (w_out w ++ content_records opts filename 0 (file_lines file))
               (w_log w ++ repeat (Fgets filename)
                             (S (List.length (file_lines file))))))))
  \/ (search_content opts && content_matches opts file = false /\
      search_open_file opts filename file w =
      let w3 := after_quiet_content opts filename file w in
      if search_filenames opts && name_matches opts filename
      then (true, filename_match opts filename w3)
      else (false, w3)).
Proof.
  destruct (search_content opts && content_matches opts file) eqn:H.
  - apply andb_true_iff in H. destruct H as [Hc Hm].
    destruct (only_matching_files opts) eqn:Hl.
    + left. destruct (first_hit_some _ _ Hm) as (i & Hi & Hlt). exists i.
      repeat split; auto using search_open_file_early_exit.
    + right. left. repeat split; auto using search_open_file_content_match.
  - right. right. split; [reflexivity|].
    apply search_open_file_quiet. exact H.
Qed.

Lemma search_file_unopenable fs filename opts w :
  fs_fopen fs filename = None ->
  search_file fs filename opts w = (false, call (Fopen filename) w).
Proof. intros H. unfold search_file. rewrite H. reflexivity. Qed.

Lemma search_file_rejected fs filename opts w file :
  fs_fopen fs filename = Some file ->
  passes_filters opts filename file = false ->
  search_file fs filename opts w =
  (false, call (Fclose filename) (opened filename file w)).
Proof.
  intros Ho Hp. unfold search_file, passes_filters, opened in *. rewrite Ho.
  destruct (fstat file) as [sz|].
  - destruct (size_rejected opts sz); [reflexivity|].
    simpl in Hp. apply negb_false_iff in Hp. rewrite Hp. reflexivity.
  - simpl in Hp. apply negb_false_iff in Hp. rewrite Hp. reflexivity.
Qed.

Lemma search_file_searched fs filename opts w file :
  fs_fopen fs filename = Some file ->
  passes_filters opts filename file = true ->
  search_file fs filename opts w =
  search_open_file opts filename file (opened filename file w).
Proof.
  intros Ho Hp. unfold search_file, passes_filters, opened in *. rewrite Ho.
  apply andb_true_iff in Hp. destruct Hp as [Hs Hn].
  apply negb_true_iff in Hs, Hn.
  destruct (fstat file) as [sz|]; rewrite ?Hs, Hn; reflexivity.
Qed.

Lemma sites_app a b : sites (a ++ b) = sites a ++ sites b.
Proof.
  induction a as [|e a IH]; simpl; [reflexivity|].
  destruct e; simpl; rewrite IH; reflexivity.
Qed.

Lemma sites_fgets path k : sites (repeat (Fgets path) k) = [].
Proof. induction k; simpl; auto. Qed.

Lemma opened_log filename file w :
  w_log (opened filename file w) = w_log w ++ [Fopen filename].
Proof. unfold opened. destruct (fstat file); reflexivity. Qed.

Lemma opened_out filename file w : w_out (opened filename file w) = w_out w.
Proof. unfold opened. destruct (fstat file); reflexivity. Qed.

Lemma opened_files_matched filename file w :
  files_matched (w_stats (opened filename file w)) = files_matched (w_stats w).
Proof. unfold opened. destruct (fstat file); reflexivity. Qed.

Lemma opened_total_matches filename file w :
  total_matches (w_stats (opened filename file w)) = total_matches (w_stats w).
Proof. unfold opened. destruct (fstat file); reflexivity. Qed.

Lemma opened_files_searched filename file w :
  files_searched (w_stats (opened filename file w)) = files_searched (w_stats w).
Proof. unfold opened. destruct (fstat file); reflexivity. Qed.

Lemma opened_total_size filename file w :
  total_size (w_stats (opened filename file w)) =
  total_size (w_stats w)
  + match fstat file with Some st_size => st_size | None => 0 end.
Proof. unfold opened. destruct (fstat file); simpl; lia. Qed.

Ltac world_simpl :=
  unfold early_exit, filename_match, after_quiet_content, count_file,
    fgets_calls, call, print, upd_stats; simpl;
  repeat (progress (rewrite ?sites_app, ?sites_fgets, ?app_nil_r; simpl)).

(** What a searched file adds to the log of counting sites, to
    [files_matched], and what [search_file] returns for it. *)
Lemma search_open_file_counted opts filename file w :
  let r := fst (search_open_file opts filename file w) in
  let w' := snd (search_open_file opts filename file w) in
  let new := match counting_site opts filename file with
             | Some s => [s]
             | None => []
             end in
  sites (w_log w') = sites (w_log w) ++ new /\
  files_matched (w_stats w') =
    files_matched (w_stats w) + Z.of_nat (List.length new) /\
  r = match counting_site opts filename file with
      | Some _ => true
      | None => false
      end.
Proof.
  unfold counting_site.
  destruct (search_open_file_cases opts filename file w)
    as [(i & Hc & Hl & Hm & _ & E) | [(Hc & Hl & Hm & E) | (H & E)]];
    rewrite E; clear E.
  - rewrite Hc, Hm, Hl. world_simpl. repeat split; lia.
  - rewrite Hc, Hm, Hl. world_simpl. repeat split; lia.
  - rewrite H. unfold after_quiet_content, filename_match.
    destruct (search_filenames opts && name_matches opts filename),
      (count_only opts), (search_content opts); world_simpl;
      repeat split; lia.
Qed.

(** C1. One call of [search_file] increments [files_matched] at most once,
    at exactly one of its three sites (names-only early exit, filename
    match, content match), and exactly when it returns true; a file that is
    searched and whose content and filename both hold a keyword is counted
    exactly once. *)
Theorem C1_files_matched_once fs filename opts w :
  let r := fst (search_file fs filename opts w) in
  let w' := snd (search_file fs filename opts w) in
  (exists new,
      sites (w_log w') = sites (w_log w) ++ new /\
      files_matched (w_stats w') =
        files_matched (w_stats w) + Z.of_nat (List.length new) /\
      (new = [] /\ r = false \/ exists s, new = [s] /\ r = true))
  /\ (forall file,
        fs_fopen fs filename = Some file ->
        passes_filters opts filename file = true ->
        search_content opts = true \/ search_filenames opts = true ->
        content_matches opts file = true ->
        name_matches opts filename = true ->
        files_matched (w_stats w') = files_matched (w_stats w) + 1).
Proof.
  cbv zeta. destruct (fs_fopen fs filename) as [file|] eqn:Ho.
  - destruct (passes_filters opts filename file) eqn:Hp.
    + rewrite (search_file_searched _ _ _ _ _ Ho Hp).
      destruct (search_open_file_counted opts filename file
                  (opened filename file w)) as (Hs & Hf & Hr).
      rewrite opened_log, sites_app, app_nil_r in Hs.
      rewrite opened_files_matched in Hf. split.
      * eexists. split; [exact Hs|]. split; [exact Hf|].
        rewrite Hr. destruct (counting_site opts filename file); eauto.
      * intros file' E _ Hany Hm Hn. injection E as <-. rewrite Hf.
        unfold counting_site. rewrite Hm, Hn, !andb_true_r.
        destruct Hany as [-> | ->]; [reflexivity|].
        destruct (search_content opts); reflexivity.
    + rewrite (search_file_rejected _ _ _ _ _ Ho Hp). split.
      * exists []. simpl. rewrite opened_log, opened_files_matched.
        rewrite !sites_app. simpl. rewrite !app_nil_r.
        repeat split; auto; lia.
      * intros file' E Hp'. injection E as <-. congruence.
  - rewrite (search_file_unopenable _ _ _ _ Ho). split.
    + exists []. simpl. rewrite sites_app. simpl. rewrite !app_nil_r.
      repeat split; auto; lia.
    + discriminate.
Qed.

Lemma C1_files_matched_once_witness :
  let fs := one_file "x/foo.txt" (plain_file (lines ["a foo"; "bar"])) in
  let opts := default_options ["foo"] in
  content_matches opts (plain_file (lines ["a foo"; "bar"])) = true /\
  name_matches opts "x/foo.txt" = true /\
  files_matched (w_stats (snd (search_file fs "x/foo.txt" opts world0))) =
  files_matched (w_stats world0) + 1.
Proof.
  cbv zeta. split; [reflexivity|]. split; [reflexivity|].
  apply (proj2 (C1_files_matched_once
                  (one_file "x/foo.txt" (plain_file (lines ["a foo"; "bar"])))
                  "x/foo.txt" (default_options ["foo"]) world0)
               (plain_file (lines ["a foo"; "bar"])));
    try reflexivity.
  left. reflexivity.
Defined.

(** ** The calls search_file makes *)

Lemma Forall_repeat {A} (P : A -> Prop) x n : P x -> Forall P (repeat x n).
Proof. intros H. induction n; simpl; constructor; auto. Qed.

Ltac file_events G C K :=
  repeat (first [ apply Forall_nil
                | apply Forall_cons; [first [exact G | exact C | apply K]|]
                | apply Forall_app; split
                | apply Forall_repeat; exact G ]).

(** After its [fopen], [search_file] only touches the file it was given. *)
Lemma search_file_log fs filename opts w :
  exists evs,
    w_log (snd (search_file fs filename opts w)) =
      w_log w ++ Fopen filename :: evs /\
    Forall (file_event filename) evs.
Proof.
  assert (G : file_event filename (Fgets filename)) by (left; reflexivity).
  assert (C : file_event filename (Fclose filename))
    by (right; left; reflexivity).
  assert (K : forall s, file_event filename (Counted filename s))
    by (intros s; right; right; eauto).
  destruct (fs_fopen fs filename) as [file|] eqn:Ho.
  - destruct (passes_filters opts filename file) eqn:Hp.
    + rewrite (search_file_searched _ _ _ _ _ Ho Hp).
      destruct (search_open_file_cases opts filename file
                  (opened filename file w))
        as [(i & _ & _ & _ & _ & E) | [(_ & _ & _ & E) | (_ & E)]];
        rewrite E; clear E.
      * unfold early_exit, count_file, fgets_calls, call, upd_stats.
        simpl w_log. rewrite opened_log, <- !app_assoc. simpl.
        eexists. split; [reflexivity | file_events G C K].
      * unfold count_file, call, upd_stats.
        simpl w_log. rewrite opened_log, <- !app_assoc. simpl.
        eexists. split; [reflexivity | file_events G C K].
      * unfold after_quiet_content, filename_match, count_file, fgets_calls,
          call, print, upd_stats.
        destruct (search_filenames opts && name_matches opts filename),
          (count_only opts), (search_content opts);
          simpl w_log; rewrite opened_log, <- !app_assoc; simpl;
          (eexists; split; [reflexivity | file_events G C K]).
    + rewrite (search_file_rejected _ _ _ _ _ Ho Hp). simpl.
      rewrite opened_log, <- app_assoc. simpl.
      eexists. split; [reflexivity | file_events G C K].
  - rewrite (search_file_unopenable _ _ _ _ Ho). simpl.
    exists []. split; [reflexivity | constructor].
Qed.

Lemma file_event_not_opendir filename evs :
  Forall (file_event filename) evs ->
  Forall (fun e => is_opendir e = false) evs.
Proof.
  intros H. eapply Forall_impl; [|exact H].
  intros e [-> | [-> | [s ->]]]; reflexivity.
Qed.

(** ** Counters of a searched file *)

Lemma search_open_file_frame opts filename file w :
  let w' := snd (search_open_file opts filename file w) in
  files_searched (w_stats w') = files_searched (w_stats w) + 1 /\
  total_size (w_stats w') = total_size (w_stats w) /\
  start_time (w_stats w') = start_time (w_stats w).
Proof.
  destruct (search_open_file_cases opts filename file w)
    as [(i & _ & _ & _ & _ & E) | [(_ & _ & _ & E) | (_ & E)]];
    rewrite E; clear E.
  - world_simpl. auto.
  - world_simpl. auto.
  - unfold after_quiet_content, filename_match.
    destruct (search_filenames opts && name_matches opts filename),
      (count_only opts), (search_content opts); world_simpl; auto.
Qed.

(** C4, as the code has it. For a file that [search_file] opens and whose
    size [fstat] reports, the size is added to [total_size] whether or not
    the size filter or the pattern filter then rejects the file, and
    [files_searched] grows (by one) only when the file passes both; a
    file of 500 bytes under [min_size = 1000] adds 500 to [total_size] and
    nothing to [files_searched]. *)
Theorem C4_total_size_before_filters fs filename opts w file st_size :
  fs_fopen fs filename = Some file ->
  fstat file = Some st_size ->
  let w' := snd (search_file fs filename opts w) in
  total_size (w_stats w') = total_size (w_stats w) + st_size /\
  files_searched (w_stats w') =
    files_searched (w_stats w)
    + (if negb (size_rejected opts st_size)
          && negb (pattern_rejected opts filename) then 1 else 0) /\
  (st_size = 500 -> min_size opts = 1000 ->
   total_size (w_stats w') = total_size (w_stats w) + 500 /\
   files_searched (w_stats w') = files_searched (w_stats w)).
Proof.
  intros Ho Hs. cbv zeta.
  assert (Hp : passes_filters opts filename file =
               negb (size_rejected opts st_size)
               && negb (pattern_rejected opts filename))
    by (unfold passes_filters; rewrite Hs; reflexivity).
  assert (Main :
    total_size (w_stats (snd (search_file fs filename opts w))) =
      total_size (w_stats w) + st_size /\
    files_searched (w_stats (snd (search_file fs filename opts w))) =
      files_searched (w_stats w)
      + (if negb (size_rejected opts st_size)
            && negb (pattern_rejected opts filename) then 1 else 0)).
  { rewrite <- Hp. destruct (passes_filters opts filename file) eqn:P.
    - rewrite (search_file_searched _ _ _ _ _ Ho P).
      destruct (search_open_file_frame opts filename file
                  (opened filename file w)) as (F & T & _).
      rewrite F, T, opened_files_searched, opened_total_size, Hs. auto.
    - rewrite (search_file_rejected _ _ _ _ _ Ho P). simpl.
      rewrite opened_files_searched, opened_total_size, Hs. split; lia. }
  destruct Main as [T F]. split; [exact T|]. split; [exact F|].
  intros -> Hmin. split; [exact T|]. rewrite F.
  unfold size_rejected. rewrite Hmin. simpl. lia.
Qed.

Lemma C4_total_size_before_filters_witness :
  let file := plain_file (lines ["needle"]) in
  let fs := one_file "x/foo.txt" file in
  let opts := with_min_size 1000 (default_options ["needle"]) in
  let w' := snd (search_file fs "x/foo.txt" opts world0) in
  fs_fopen fs "x/foo.txt" = Some file /\ fstat file = Some 7 /\
  total_size (w_stats w') = total_size (w_stats world0) + 7 /\
  files_searched (w_stats w') = files_searched (w_stats world0) + 0.
Proof.
  cbv zeta. split; [reflexivity|]. split; [reflexivity|].
  pose proof (C4_total_size_before_filters
                (one_file "x/foo.txt" (plain_file (lines ["needle"])))
                "x/foo.txt" (with_min_size 1000 (default_options ["needle"]))
                world0 (plain_file (lines ["needle"])) 7
                eq_refl eq_refl) as H.
  cbv zeta in H. destruct H as (T & F & _). split; [exact T | exact F].
Defined.

(** When [fstat] fails nothing is added and the size filter is not applied. *)
Lemma search_file_fstat_fails fs filename opts w file :
  fs_fopen fs filename = Some file ->
  fstat file = None ->
  let w' := snd (search_file fs filename opts w) in
  total_size (w_stats w') = total_size (w_stats w) /\
  files_searched (w_stats w') =
    files_searched (w_stats w)
    + (if pattern_rejected opts filename then 0 else 1).
Proof.
  intros Ho Hs. cbv zeta.
  assert (Hp : passes_filters opts filename file =
               negb (pattern_rejected opts filename))
    by (unfold passes_filters; rewrite Hs; reflexivity).
  destruct (pattern_rejected opts filename); simpl in Hp.
  - rewrite (search_file_rejected _ _ _ _ _ Ho Hp). simpl.
    rewrite opened_files_searched, opened_total_size, Hs. split; lia.
  - rewrite (search_file_searched _ _ _ _ _ Ho Hp).
    destruct (search_open_file_frame opts filename file
                (opened filename file w)) as (F & T & _).
    rewrite F, T, opened_files_searched, opened_total_size, Hs. split; lia.
Qed.

(** C4 as the specification states it fails on a file whose [fstat] fails:
    the file is opened, has 500 bytes and [min_size] is 1000, yet its size is
    not added to [total_size] and [files_searched] counts it. *)
Lemma C4_counterexample :
  let fs := one_file "x/foo.txt" no_stat_file in
  let opts := with_min_size 1000 (default_options ["needle"]) in
  let w' := snd (search_file fs "x/foo.txt" opts world0) in
  fs_fopen fs "x/foo.txt" = Some no_stat_file /\
  f_size no_stat_file = 500 /\
  min_size opts = 1000 /\
  total_size (w_stats w') <> total_size (w_stats world0) + f_size no_stat_file /\
  files_searched (w_stats w') = files_searched (w_stats world0) + 1.
Proof.
  cbv zeta. repeat split. vm_compute. discriminate.
Qed.

(** ** Filename search *)

Lemma existsb_first_found {A} (f : A -> bool) pre x post :
  existsb f pre = false -> f x = true -> existsb f (pre ++ x :: post) = true.
Proof.
  intros _ Hx. rewrite existsb_app. simpl. rewrite Hx.
  apply orb_true_iff. right. reflexivity.
Qed.

(** C7. Filename search runs only when it is enabled and the content had no
    match.  On the first keyword the basename holds, [total_matches] and
    [files_matched] each grow by one, the "Filename match:" line is printed
    unless count-only mode is on (whatever names-only mode is), and
    [search_file] returns true without testing the keywords that follow. *)
Theorem C7_filename_search fs filename opts w file :
  fs_fopen fs filename = Some file ->
  passes_filters opts filename file = true ->
  let r := fst (search_file fs filename opts w) in
  let w' := snd (search_file fs filename opts w) in
  let content := search_content opts && content_matches opts file in
  (sites (w_log w') = sites (w_log w) ++ [FilenameMatch] <->
   search_filenames opts = true /\ content = false /\
   name_matches opts filename = true)
  /\ (search_filenames opts = true -> content = false ->
      name_matches opts filename = true ->
      r = true /\
      total_matches (w_stats w') = total_matches (w_stats w) + 1 /\
      files_matched (w_stats w') = files_matched (w_stats w) + 1 /\
      w_out w' = w_out w ++ (if count_only opts then []
                             else [OutFilenameMatch filename]))
  /\ (forall base pre kw post w0,
        existsb (keyword_found opts base) pre = false ->
        keyword_found opts base kw = true ->
        check_basename opts filename base (pre ++ kw :: post) w0 =
        Return (true, filename_match opts filename w0))
  /\ render (OutFilenameMatch filename) =
     ("Filename match: " ++ filename ++ String LF "")%string.
Proof.
  intros Ho Hp. cbv zeta.
  rewrite (search_file_searched _ _ _ _ _ Ho Hp).
  split; [|split; [|split]].
  - destruct (search_open_file_counted opts filename file
                (opened filename file w)) as (Hs & _ & _).
    rewrite opened_log, sites_app, app_nil_r in Hs. rewrite Hs.
    unfold counting_site.
    destruct (search_content opts && content_matches opts file).
    + split.
      * intros H. apply app_inv_head in H.
        destruct (only_matching_files opts); discriminate.
      * intros (_ & H & _). discriminate.
    + destruct (search_filenames opts); simpl.
      * destruct (name_matches opts filename); split; auto.
        -- intros H. apply app_inv_head in H. discriminate.
        -- intros (_ & _ & H). discriminate.
      * split; [|intros (H & _); discriminate].
        intros H. apply app_inv_head in H. discriminate.
  - intros Hf Hc Hn. rewrite (search_open_file_quiet _ _ _ _ Hc), Hf, Hn.
    cbv zeta. simpl andb. cbv iota.
    unfold filename_match, after_quiet_content.
    destruct (count_only opts), (search_content opts); world_simpl;
      rewrite ?opened_total_matches, ?opened_files_matched, ?opened_out;
      auto.
  - intros base pre kw post w0 Hpre Hkw. rewrite check_basename_spec.
    rewrite (existsb_first_found _ _ _ _ Hpre Hkw). reflexivity.
  - reflexivity.
Qed.

Lemma C7_filename_search_witness :
  let file := plain_file (lines ["nothing here"]) in
  let fs := one_file "x/foo.txt" file in
  let opts := names_only (default_options ["bar"; "foo"; "txt"]) in
  let r := fst (search_file fs "x/foo.txt" opts world0) in
  let w' := snd (search_file fs "x/foo.txt" opts world0) in
  fs_fopen fs "x/foo.txt" = Some file /\
  passes_filters opts "x/foo.txt" file = true /\
  r = true /\
  total_matches (w_stats w') = total_matches (w_stats world0) + 1 /\
  files_matched (w_stats w') = files_matched (w_stats world0) + 1 /\
  w_out w' = w_out world0 ++ [OutFilenameMatch "x/foo.txt"].
Proof.
  cbv zeta. split; [reflexivity|]. split; [reflexivity|].
  pose proof (C7_filename_search
                (one_file "x/foo.txt" (plain_file (lines ["nothing here"])))
                "x/foo.txt" (names_only (default_options ["bar"; "foo"; "txt"]))
                world0 (plain_file (lines ["nothing here"]))
                eq_refl eq_refl) as H.
  cbv zeta in H. destruct H as (_ & H & _).
  exact (H eq_refl eq_refl eq_refl).
Defined.

(** ** Files that cannot be opened *)

(** C8. A file that cannot be opened makes [search_file] return false with
    every counter and the output unchanged, after the one [fopen] call; in
    the directory loop such an entry changes neither the counters nor the
    output, and the loop goes on with the entries that follow. *)
Theorem C8_unopenable_file fs filename opts w :
  fs_fopen fs filename = None ->
  let r := fst (search_file fs filename opts w) in
  let w' := snd (search_file fs filename opts w) in
  (r = false /\ w_stats w' = w_stats w /\ w_out w' = w_out w /\
   w_log w' = w_log w ++ [Fopen filename])
  /\ (forall self path depth d_name rest,
        dot_entry d_name = false ->
        path_too_long path d_name = false ->
        entry_path path d_name = filename ->
        fs_lstat fs filename = Some S_IFREG ->
        exists w1,
          walk_entries fs self path depth opts (d_name :: rest) w =
          walk_entries fs self path depth opts rest w1 /\
          w_stats w1 = w_stats w /\ w_out w1 = w_out w /\
          w_log w1 = w_log w ++ [Lstat filename; Fopen filename]).
Proof.
  intros Ho. cbv zeta. split.
  - rewrite (search_file_unopenable _ _ _ _ Ho). auto.
  - intros self path depth d_name rest Hdot Hlong Hpath Hreg.
    exists (call (Fopen filename) (call (Lstat filename) w)).
    split; [|simpl; rewrite <- app_assoc; auto].
    simpl. unfold visit_entry. rewrite Hdot, Hlong, Hpath, Hreg. simpl.
    rewrite (search_file_unopenable _ _ _ _ Ho). reflexivity.
Qed.

Lemma C8_unopenable_file_witness :
  let opts := default_options ["foo"] in
  fs_fopen demo_fs "./b/up" = None /\
  fst (search_file demo_fs "./b/up" opts world0) = false /\
  w_stats (snd (search_file demo_fs "./b/up" opts world0)) = stats0 /\
  w_out (snd (search_file demo_fs "./b/up" opts world0)) = [].
Proof.
  cbv zeta. split; [reflexivity|].
  destruct (proj1 (C8_unopenable_file demo_fs "./b/up"
                     (default_options ["foo"]) world0 eq_refl))
    as (R & S & O & _).
  split; [exact R|]. split; [exact S | exact O].
Defined.

(** ** Several keywords on one line *)

(** C10. Outside names-only mode every configured keyword is tested on
    every line on its own: a line in which [k] of them are found adds [k]
    to [total_matches] and, unless count-only mode is on, prints [k]
    records; over a searched file whose content matches, the numbers and
    the records of its lines add up.  A keyword that is not empty is found
    exactly when it occurs in the line, up to case in case-insensitive
    mode. *)
Theorem C10_every_keyword_counts opts filename :
  only_matching_files opts = false ->
  (forall n line w m,
     let k := List.length (hits opts line) in
     exists w',
       check_keywords opts filename n line (keywords opts) w m =
         Next (w', m || line_matches opts line) /\
       total_matches (w_stats w') = total_matches (w_stats w) + Z.of_nat k /\
       files_matched (w_stats w') = files_matched (w_stats w) /\
       w_out w' =
         w_out w ++ (if count_only opts then []
                     else repeat (content_record opts filename n line) k) /\
       w_log w' = w_log w)
  /\ (forall fs w file,
        fs_fopen fs filename = Some file ->
        passes_filters opts filename file = true ->
        search_content opts = true ->
        content_matches opts file = true ->
        let w' := snd (search_file fs filename opts w) in
        total_matches (w_stats w') =
          total_matches (w_stats w) + content_hits opts (file_lines file) /\
        w_out w' = w_out w ++ content_records opts filename 0 (file_lines file))
  /\ (forall line kw, kw <> ""%string ->
        (In kw (hits opts line) <->
         In kw (keywords opts) /\
         exists pre mid post,
           line = (pre ++ mid ++ post)%string /\
           if case_sensitive opts then mid = kw else eq_nocase mid kw)).
Proof.
  intros Hl. split; [|split].
  - intros n line w m. cbv zeta. eexists. split.
    + apply (check_keywords_shown _ _ _ _ Hl).
    + simpl. auto.
  - intros fs w file Ho Hp Hc Hm. cbv zeta.
    rewrite (search_file_searched _ _ _ _ _ Ho Hp).
    rewrite (search_open_file_content_match _ _ _ _ Hc Hl Hm).
    world_simpl. rewrite opened_total_matches, opened_out. auto.
  - intros line kw Hkw. unfold hits.
    rewrite filter_In, (keyword_found_iff opts line kw Hkw). reflexivity.
Qed.

Lemma C10_every_keyword_counts_witness :
  let opts := default_options ["foo"; "zzz"; "bar"; "foo"] in
  only_matching_files opts = false /\
  exists w',
    check_keywords opts "x/a.txt" 7 "bar and foo" (keywords opts) world0 false =
      Next (w', true) /\
    total_matches (w_stats w') = 3 /\
    w_out w' = repeat (OutNumbered "x/a.txt" 7 "bar and foo") 3.
Proof.
  cbv zeta. split; [reflexivity|].
  destruct (proj1 (C10_every_keyword_counts
                     (default_options ["foo"; "zzz"; "bar"; "foo"])
                     "x/a.txt" eq_refl) 7 "bar and foo"%string world0 false)
    as (w' & E & T & _ & O & _).
  exists w'. split; [exact E|]. split; [exact T | exact O].
Defined.

(** ** Names-only mode *)

(** What names-only mode does with a searched file whose content matches:
    it stops at the first matching line, counts one match and the file,
    closes the file and returns true; it prints nothing. *)
Lemma names_only_early_exit fs filename opts w file :
  fs_fopen fs filename = Some file ->
  passes_filters opts filename file = true ->
  only_matching_files opts = true ->
  search_content opts = true ->
  content_matches opts file = true ->
  let r := fst (search_file fs filename opts w) in
  let w' := snd (search_file fs filename opts w) in
  exists i,
    first_hit opts (file_lines file) = Some i /\
    r = true /\
    total_matches (w_stats w') = total_matches (w_stats w) + 1 /\
    files_matched (w_stats w') = files_matched (w_stats w) + 1 /\
    w_out w' = w_out w /\
    w_log w' = w_log w ++ Fopen filename :: repeat (Fgets filename) (S i)
                 ++ [Fclose filename; Counted filename ContentEarlyExit].
Proof.
  intros Ho Hp Hl Hc Hm. cbv zeta.
  rewrite (search_file_searched _ _ _ _ _ Ho Hp).
  destruct (first_hit_some _ _ Hm) as (i & Hi & _). exists i.
  rewrite (search_open_file_early_exit _ _ _ _ _ Hc Hl Hi).
  unfold early_exit, count_file, fgets_calls, call, upd_stats. simpl.
  rewrite opened_total_matches, opened_files_matched, opened_out, opened_log.
  rewrite <- !app_assoc. simpl. repeat split; auto.
Qed.

Lemma content_records_no_path opts filename p : forall bufs n,
  ~ In (OutPath p) (content_records opts filename n bufs).
Proof.
  induction bufs as [|buf bufs IH]; intros n; simpl; [tauto|].
  intros H. apply in_app_or in H. destruct H as [H | H]; [|exact (IH _ H)].
  unfold line_records in H. destruct (count_only opts); [exact H|].
  apply repeat_spec in H. unfold content_record in H.
  destruct (show_line_numbers opts); discriminate.
Qed.

(** The [printf] of line 316 is never reached: [search_file] prints no bare
    path, in any mode, for any file. *)
Lemma search_file_never_prints_path fs filename opts w :
  exists recs,
    w_out (snd (search_file fs filename opts w)) = w_out w ++ recs /\
    forall p, ~ In (OutPath p) recs.
Proof.
  destruct (fs_fopen fs filename) as [file|] eqn:Ho.
  - destruct (passes_filters opts filename file) eqn:Hp.
    + rewrite (search_file_searched _ _ _ _ _ Ho Hp).
      destruct (search_open_file_cases opts filename file
                  (opened filename file w))
        as [(i & _ & _ & _ & _ & E) | [(_ & _ & _ & E) | (_ & E)]];
        rewrite E; clear E.
      * exists []. world_simpl. rewrite opened_out. auto.
      * world_simpl. rewrite opened_out.
        eexists. split; [reflexivity|].
        intros p. apply content_records_no_path.
      * unfold after_quiet_content, filename_match.
        destruct (search_filenames opts && name_matches opts filename),
          (count_only opts), (search_content opts); world_simpl;
          rewrite opened_out;
          first [ exists []; rewrite app_nil_r; split; [reflexivity | auto]
                | eexists; split; [reflexivity|];
                  intros p [H | []]; discriminate ].
    + rewrite (search_file_rejected _ _ _ _ _ Ho Hp). exists []. simpl.
      rewrite opened_out, app_nil_r. auto.
  - rewrite (search_file_unopenable _ _ _ _ Ho). exists []. simpl.
    rewrite app_nil_r. auto.
Qed.

(** C2, on the code. In names-only mode a file whose five lines all hold the
    keyword is read up to its first line only, counted once with one match,
    and [search_file] returns true; but no bare path line is printed for
    it: the output stays empty. *)
Theorem C2_names_only_prints_no_path :
  let opts := names_only (default_options ["foo"]) in
  let fs := one_file "x/five.txt" five_foo in
  map (fun buf => line_matches opts (chomp buf)) (file_lines five_foo)
    = [true; true; true; true; true] /\
  search_file fs "x/five.txt" opts world0 =
    (true,
     mkWorld (mkStats 1 1 1 35 0) []
       [Fopen "x/five.txt"; Fgets "x/five.txt"; Fclose "x/five.txt";
        Counted "x/five.txt" ContentEarlyExit]) /\
  stdout (snd (search_file fs "x/five.txt" opts world0)) = ""%string.
Proof. cbv zeta. repeat split; vm_compute; reflexivity. Qed.

(** ** The empty keyword *)

Lemma strstr_empty_needle haystack : strstr haystack "" = Some haystack.
Proof. destruct haystack; reflexivity. Qed.

Lemma strstr_case_empty_needle haystack : strstr_case haystack (Some ""%string) = None.
Proof. destruct haystack; reflexivity. Qed.

(** The empty keyword is found in every text in case-sensitive mode and in
    none in case-insensitive mode. *)
Lemma keyword_found_empty opts text :
  keyword_found opts text "" = case_sensitive opts.
Proof.
  unfold keyword_found. destruct (case_sensitive opts).
  - rewrite strstr_empty_needle. reflexivity.
  - reflexivity.
Qed.

(** C6, on the code. With the empty keyword configured, the case-sensitive
    line matcher reports a match on a line (and so on every line: the five
    lines of the file give five matches), where the case-insensitive one
    reports none. *)
Theorem C6_empty_keyword_matches :
  let sensitive := default_options [""%string] in
  let insensitive := ignore_case (default_options [""%string]) in
  let fs := one_file "x/five.txt" five_foo in
  keyword_found sensitive "some text" "" = true /\
  keyword_found insensitive "some text" "" = false /\
  total_matches (w_stats (snd (search_file fs "x/five.txt" sensitive world0))) = 5 /\
  total_matches (w_stats (snd (search_file fs "x/five.txt" insensitive world0))) = 0.
Proof. cbv zeta. repeat split; vm_compute; reflexivity. Qed.

(** ** The directory walker *)

Section Walker.

Variable fs : FileSystem.
Variable opts : SearchOptions.

Lemma substring_all s : forall n,
  (String.length s <= n)%nat -> substring 0 n s = s.
Proof.
  induction s as [|a s IH]; intros [|n] H; simpl in *; try reflexivity.
  - lia.
  - rewrite IH; [reflexivity | lia].
Qed.

Lemma string_length_app (a b : string) :
  String.length (a ++ b)%string = (String.length a + String.length b)%nat.
Proof. induction a as [|x a IH]; simpl; [reflexivity | rewrite IH; reflexivity]. Qed.

(** Under the guard of line 348 [snprintf] truncates nothing. *)
Lemma entry_path_exact path d_name :
  path_too_long path d_name = false ->
  entry_path path d_name = (path ++ "/" ++ d_name)%string.
Proof.
  unfold path_too_long, entry_path, snprintf_path, strlen, MAX_PATH.
  intros H. apply Z.ltb_ge in H. apply substring_all.
  rewrite string_length_app. simpl String.length. lia.
Qed.

Lemma entry_path_longer path d_name :
  path_too_long path d_name = false ->
  strlen path < strlen (entry_path path d_name) < MAX_PATH.
Proof.
  intros H. rewrite (entry_path_exact _ _ H).
  unfold path_too_long, strlen, MAX_PATH in *. apply Z.ltb_ge in H.
  rewrite string_length_app. simpl String.length. lia.
Qed.

(** Every path gets a result from a walker with more fuel than there is
    room left below [MAX_PATH]: each recursive call is on a strictly longer
    path, and line 348 bounds the paths. *)
Lemma search_directory_enough : forall fuel path depth w,
  (0 < fuel)%nat -> MAX_PATH - strlen path < Z.of_nat fuel ->
  exists w', search_directory fuel fs (Some path) depth opts w = Some w'.
Proof.
  induction fuel as [|fuel IH]; intros path depth w Hpos Hfuel; [lia|].
  simpl.
  destruct ((0 <=? max_depth opts) && (max_depth opts <? depth)); [eauto|].
  destruct (fs_opendir fs path) as [entries|]; [|eauto].
  assert (W : forall entries w0, exists w1,
    walk_entries fs (search_directory fuel fs) path depth opts entries w0
    = Some w1).
  { clear entries. induction entries as [|d rest IHe]; intros w0; simpl.
    - eauto.
    - assert (V : exists w1,
        visit_entry fs (search_directory fuel fs) path depth opts w0 d
        = Some w1).
      { unfold visit_entry. destruct (dot_entry d); [eauto|].
        destruct (path_too_long path d) eqn:L; [eauto|].
        destruct (fs_lstat fs (entry_path path d)) as [m|]; [|eauto].
        destruct (S_ISDIR m); [|destruct (S_ISREG m); eauto].
        destruct (recursive opts); [|eauto].
        pose proof (entry_path_longer _ _ L). apply IH; lia. }
      destruct V as (w1 & ->). apply IHe. }
  destruct (W entries (call (Opendir path) w)) as (w1 & ->). eauto.
Qed.

(** The result does not depend on the fuel once there is enough. *)
Lemma search_directory_mono : forall fuel fuel' path depth w w',
  (fuel <= fuel')%nat ->
  search_directory fuel fs path depth opts w = Some w' ->
  search_directory fuel' fs path depth opts w = Some w'.
Proof.
  induction fuel as [|fuel IH]; intros fuel' path depth w w' Hle H;
    [discriminate|].
  destruct fuel' as [|fuel']; [lia|]. simpl in *.
  destruct path as [p|]; [|exact H].
  destruct ((0 <=? max_depth opts) && (max_depth opts <? depth)); [exact H|].
  destruct (fs_opendir fs p) as [entries|]; [|exact H].
  assert (W : forall entries w0 w1,
    walk_entries fs (search_directory fuel fs) p depth opts entries w0
      = Some w1 ->
    walk_entries fs (search_directory fuel' fs) p depth opts entries w0
      = Some w1).
  { clear entries H. induction entries as [|d rest IHe]; intros w0 w1 H;
      simpl in *; [exact H|].
    destruct (visit_entry fs (search_directory fuel fs) p depth opts w0 d)
      as [w2|] eqn:V; [|discriminate].
    assert (V' : visit_entry fs (search_directory fuel' fs) p depth opts w0 d
                 = Some w2).
    { unfold visit_entry in *. destruct (dot_entry d); [exact V|].
      destruct (path_too_long p d); [exact V|].
      destruct (fs_lstat fs (entry_path p d)) as [m|]; [|exact V].
      destruct (S_ISDIR m); [|exact V].
      destruct (recursive opts); [|exact V].
      apply (IH fuel'); [lia | exact V]. }
    rewrite V'. apply IHe. exact H. }
  destruct (walk_entries fs (search_directory fuel fs) p depth opts entries
              (call (Opendir p) w)) as [w1|] eqn:E; [|discriminate].
  rewrite (W _ _ _ E). exact H.
Qed.

(** [search_directory] returns, whatever the file system answers. *)
Lemma search_directory_total path depth w :
  exists w',
    search_directory enough_fuel fs path depth opts w = Some w' /\
    forall fuel, (enough_fuel <= fuel)%nat ->
      search_directory fuel fs path depth opts w = Some w'.
Proof.
  assert (E : exists w',
    search_directory enough_fuel fs path depth opts w = Some w').
  { destruct path as [p|]; [|simpl; eauto].
    apply search_directory_enough; unfold enough_fuel, strlen, MAX_PATH; lia. }
  destruct E as (w' & E). exists w'. split; [exact E|].
  intros fuel Hle. apply (search_directory_mono enough_fuel); assumption.
Qed.

(** What one turn of the [readdir] loop does, by the type [lstat] reports. *)
Lemma visit_entry_classified self path depth w d_name :
  dot_entry d_name = false ->
  path_too_long path d_name = false ->
  let full := entry_path path d_name in
  let w1 := call (Lstat full) w in
  visit_entry fs self path depth opts w d_name =
  match fs_lstat fs full with
  | Some S_IFDIR =>
      if recursive opts then self (Some full) (depth + 1) opts w1 else Some w1
  | Some S_IFREG => Some (snd (search_file fs full opts w1))
  | _ => Some w1
  end.
Proof.
  intros Hdot Hlong. unfold visit_entry. rewrite Hdot, Hlong. cbv zeta.
  destruct (fs_lstat fs (entry_path path d_name)) as [[]|]; reflexivity.
Qed.

Lemma file_event_justified filename evs :
  Forall (file_event filename) evs -> Forall (justified fs opts) evs.
Proof.
  intros H. eapply Forall_impl; [|exact H].
  intros e [-> | [-> | [s ->]]]; exact I.
Qed.

(** Every [opendir] below the start and every [fopen] of a walk is on an
    entry that [lstat] classified as a directory, respectively as a regular
    file. *)
Lemma search_directory_log : forall fuel path depth w w',
  search_directory fuel fs (Some path) depth opts w = Some w' ->
  exists new,
    w_log w' = w_log w ++ new /\
    Forall (fun e => e = Opendir path \/ justified fs opts e) new.
Proof.
  induction fuel as [|fuel IH]; intros path depth w w' H; [discriminate|].
  simpl in H.
  destruct ((0 <=? max_depth opts) && (max_depth opts <? depth)).
  { injection H as <-. exists []. rewrite app_nil_r. auto. }
  destruct (fs_opendir fs path) as [entries|].
  2:{ injection H as <-. exists [Opendir path]. simpl. auto. }
  assert (W : forall entries w0 w1,
    walk_entries fs (search_directory fuel fs) path depth opts entries w0
      = Some w1 ->
    exists new, w_log w1 = w_log w0 ++ new /\ Forall (justified fs opts) new).
  { clear entries H. induction entries as [|d rest IHe]; intros w0 w1 H;
      simpl in H.
    - injection H as <-. exists []. rewrite app_nil_r. auto.
    - destruct (visit_entry fs (search_directory fuel fs) path depth opts w0 d)
        as [w2|] eqn:V; [|discriminate].
      destruct (IHe _ _ H) as (new2 & L2 & F2).
      assert (V' : exists new1,
        w_log w2 = w_log w0 ++ new1 /\ Forall (justified fs opts) new1).
      { unfold visit_entry in V.
        destruct (dot_entry d).
        { injection V as <-. exists []. rewrite app_nil_r. auto. }
        destruct (path_too_long path d).
        { injection V as <-. exists []. rewrite app_nil_r. auto. }
        destruct (fs_lstat fs (entry_path path d)) as [m|] eqn:Lm.
        2:{ injection V as <-. exists [Lstat (entry_path path d)].
            simpl. repeat constructor. }
        destruct m; simpl in V;
          try solve [injection V as <-; exists [Lstat (entry_path path d)];
                     simpl; repeat constructor].
        - destruct (recursive opts) eqn:R.
          + destruct (IH _ _ _ _ V) as (new & L & F).
            exists (Lstat (entry_path path d) :: new). simpl in L.
            rewrite L, <- app_assoc. split; [reflexivity|].
            constructor; [exact I|].
            eapply Forall_impl; [|exact F].
            intros e [-> | J]; [simpl; auto | exact J].
          + injection V as <-. exists [Lstat (entry_path path d)].
            simpl. repeat constructor.
        - destruct (search_file_log fs (entry_path path d) opts
                      (call (Lstat (entry_path path d)) w0))
            as (evs & L & F).
          injection V as <-.
          exists (Lstat (entry_path path d) :: Fopen (entry_path path d) :: evs).
          simpl in L. rewrite L, <- app_assoc. split; [reflexivity|].
          constructor; [exact I|]. constructor; [exact Lm|].
          eapply file_event_justified, F. }
      destruct V' as (new1 & L1 & F1).
      exists (new1 ++ new2). rewrite L2, L1, <- app_assoc.
      split; [reflexivity|]. apply Forall_app. auto. }
  destruct (walk_entries fs (search_directory fuel fs) path depth opts entries
              (call (Opendir path) w)) as [w1|] eqn:E; [|discriminate].
  injection H as <-. destruct (W _ _ _ E) as (new & L & F).
  exists (Opendir path :: new ++ [Closedir path]). simpl in *.
  rewrite L, <- !app_assoc. split; [reflexivity|].
  constructor; [auto|]. apply Forall_app. split.
  - eapply Forall_impl; [|exact F]. auto.
  - constructor; [right; exact I | constructor].
Qed.

(** C9. Entries are classified by [lstat], which does not follow links:
    what [lstat] calls a directory is walked (under the recursive flag),
    what it calls a regular file is scanned, anything else, a symbolic link
    among them, is left alone; the walker returns whatever the file system
    looks like, and in a whole walk every [opendir] below the start is on
    an [lstat] directory and every [fopen] on an [lstat] regular file, so
    that a link to an ancestor is never entered. *)
Theorem C9_link_aware_walk :
  (forall self path depth w d_name,
     dot_entry d_name = false ->
     path_too_long path d_name = false ->
     let full := entry_path path d_name in
     let w1 := call (Lstat full) w in
     visit_entry fs self path depth opts w d_name =
     match fs_lstat fs full with
     | Some S_IFDIR =>
         if recursive opts then self (Some full) (depth + 1) opts w1
         else Some w1
     | Some S_IFREG => Some (snd (search_file fs full opts w1))
     | _ => Some w1
     end)
  /\ (forall path depth w,
        exists w' new,
          search_directory enough_fuel fs (Some path) depth opts w = Some w' /\
          (forall fuel, (enough_fuel <= fuel)%nat ->
             search_directory fuel fs (Some path) depth opts w = Some w') /\
          w_log w' = w_log w ++ new /\
          (forall p, In (Opendir p) new ->
             p = path \/ fs_lstat fs p = Some S_IFDIR /\ recursive opts = true) /\
          (forall p, In (Fopen p) new -> fs_lstat fs p = Some S_IFREG) /\
          (forall p, fs_lstat fs p = Some S_IFLNK -> p <> path ->
             ~ In (Opendir p) new /\ ~ In (Fopen p) new)).
Proof.
  split.
  - intros. apply visit_entry_classified; assumption.
  - intros path depth w.
    destruct (search_directory_total (Some path) depth w)
      as (w' & E & Efuel).
    destruct (search_directory_log _ _ _ _ _ E) as (new & L & F).
    rewrite Forall_forall in F.
    assert (O : forall p, In (Opendir p) new ->
              p = path \/ fs_lstat fs p = Some S_IFDIR /\ recursive opts = true).
    { intros p Hin. destruct (F _ Hin) as [Eq | J]; [|right; exact J].
      left. congruence. }
    assert (P : forall p, In (Fopen p) new -> fs_lstat fs p = Some S_IFREG).
    { intros p Hin. destruct (F _ Hin) as [Eq | J]; [discriminate | exact J]. }
    exists w', new. repeat (split; [assumption|]).
    intros p Hl Hne. split; intros Hin.
    + destruct (O _ Hin) as [-> | [Hd _]]; congruence.
    + apply P in Hin. congruence.
Qed.

(** *** Depth limit *)

Lemma search_directory_too_deep fuel path depth w :
  0 <= max_depth opts -> max_depth opts < depth ->
  search_directory (S fuel) fs path depth opts w = Some w.
Proof.
  intros H0 Hd. simpl. destruct path as [p|]; [|reflexivity].
  replace (0 <=? max_depth opts) with true by (symmetry; apply Z.leb_le; lia).
  replace (max_depth opts <? depth) with true by (symmetry; apply Z.ltb_lt; lia).
  reflexivity.
Qed.

(** One turn of the loop at depth 0 under [max_depth = 0]. *)
Lemma visit_entry_depth0 fuel path w d_name :
  max_depth opts = 0 ->
  exists w' evs,
    visit_entry fs (search_directory (S fuel) fs) path 0 opts w d_name
      = Some w' /\
    w_log w' = w_log w ++ evs /\
    Forall (fun e => is_opendir e = false) evs /\
    (dot_entry d_name = false -> path_too_long path d_name = false ->
     fs_lstat fs (entry_path path d_name) = Some S_IFREG ->
     In (Fopen (entry_path path d_name)) evs).
Proof.
  intros Hmax. unfold visit_entry.
  destruct (dot_entry d_name).
  { exists w, []. rewrite app_nil_r. repeat split; auto; discriminate. }
  destruct (path_too_long path d_name).
  { exists w, []. rewrite app_nil_r. repeat split; auto; discriminate. }
  destruct (fs_lstat fs (entry_path path d_name)) as [m|].
  2:{ exists (call (Lstat (entry_path path d_name)) w), [Lstat (entry_path path d_name)].
      repeat split; auto; discriminate. }
  destruct m; simpl S_ISDIR; simpl S_ISREG; cbv iota;
    try solve [ exists (call (Lstat (entry_path path d_name)) w),
                  [Lstat (entry_path path d_name)];
                repeat split; auto; discriminate ].
  - exists (call (Lstat (entry_path path d_name)) w),
      [Lstat (entry_path path d_name)].
    split.
    + destruct (recursive opts); [|reflexivity].
      apply search_directory_too_deep; lia.
    + repeat split; auto; discriminate.
  - destruct (search_file_log fs (entry_path path d_name) opts
                (call (Lstat (entry_path path d_name)) w)) as (evs & L & F).
    eexists. exists (Lstat (entry_path path d_name)
                       :: Fopen (entry_path path d_name) :: evs).
    split; [reflexivity|]. simpl in L. rewrite L, <- app_assoc.
    split; [reflexivity|]. split.
    + constructor; [reflexivity|]. constructor; [reflexivity|].
      apply (file_event_not_opendir _ _ F).
    + intros _ _ _. simpl. auto.
Qed.

Lemma walk_entries_depth0 fuel path :
  max_depth opts = 0 ->
  forall entries w,
  exists w' evs,
    walk_entries fs (search_directory (S fuel) fs) path 0 opts entries w
      = Some w' /\
    w_log w' = w_log w ++ evs /\
    Forall (fun e => is_opendir e = false) evs /\
    (forall d_name, In d_name entries ->
       dot_entry d_name = false -> path_too_long path d_name = false ->
       fs_lstat fs (entry_path path d_name) = Some S_IFREG ->
       In (Fopen (entry_path path d_name)) evs).
Proof.
  intros Hmax. induction entries as [|d rest IH]; intros w;
    cbn [walk_entries].
  - exists w, []. rewrite app_nil_r. repeat split; auto.
  - destruct (visit_entry_depth0 fuel path w d Hmax)
      as (w1 & ev1 & -> & L1 & F1 & I1).
    destruct (IH w1) as (w2 & ev2 & E2 & L2 & F2 & I2).
    exists w2, (ev1 ++ ev2). rewrite L2, L1, <- app_assoc.
    repeat split; auto.
    + apply Forall_app. auto.
    + intros d_name [<- | Hin] Hdot Hlong Hreg; apply in_or_app; auto.
Qed.

(** C5. Under a non-negative [max_depth], [search_directory] called deeper
    than [max_depth] returns with no call made and nothing changed; with
    [max_depth = 0] the walk of the start directory opens no directory but
    the start, and hands every regular file directly inside it to
    [search_file]. *)
Theorem C5_depth_limit :
  0 <= max_depth opts ->
  (forall fuel path depth w,
     max_depth opts < depth ->
     search_directory (S fuel) fs path depth opts w = Some w)
  /\ (max_depth opts = 0 ->
      forall path entries w fuel,
        fs_opendir fs path = Some entries -> (2 <= fuel)%nat ->
        exists w' new,
          search_directory fuel fs (Some path) 0 opts w = Some w' /\
          w_log w' = w_log w ++ new /\
          (forall p, In (Opendir p) new -> p = path) /\
          (forall d_name, In d_name entries ->
             dot_entry d_name = false -> path_too_long path d_name = false ->
             fs_lstat fs (entry_path path d_name) = Some S_IFREG ->
             In (Fopen (entry_path path d_name)) new)).
Proof.
  intros H0. split.
  - intros fuel path depth w Hd. apply search_directory_too_deep; assumption.
  - intros Hmax path entries w fuel Ho Hfuel.
    destruct fuel as [|fuel1]; [lia|]. simpl. rewrite Hmax, Ho. simpl.
    destruct fuel1 as [|fuel]; [lia|].
    destruct (walk_entries_depth0 fuel path Hmax entries
                (call (Opendir path) w)) as (w1 & evs & -> & L & F & I).
    eexists. exists (Opendir path :: evs ++ [Closedir path]).
    split; [reflexivity|]. simpl in *. rewrite L, <- !app_assoc.
    split; [reflexivity|]. split.
    + intros p [E | Hin]; [congruence|]. apply in_app_or in Hin.
      destruct Hin as [Hin | [E | []]]; [|discriminate].
      rewrite Forall_forall in F. apply F in Hin. discriminate.
    + intros d_name Hin Hdot Hlong Hreg. right. apply in_or_app. left.
      apply I; assumption.
Qed.

End Walker.

Lemma C9_link_aware_walk_witness :
  let opts := default_options ["foo"] in
  dot_entry "up" = false /\ path_too_long "./b" "up" = false /\
  fs_lstat demo_fs "./b/up" = Some S_IFLNK /\
  fs_opendir demo_fs "./b/up" = fs_opendir demo_fs "." /\
  forall self w,
    visit_entry demo_fs self "./b" 1 opts w "up" = Some (call (Lstat "./b/up") w).
Proof.
  cbv zeta. repeat (split; [reflexivity|]). intros self w.
  exact (proj1 (C9_link_aware_walk demo_fs (default_options ["foo"]))
           self "./b"%string 1 w "up"%string eq_refl eq_refl).
Defined.

Lemma C5_depth_limit_witness :
  let opts := with_max_depth 0 (default_options ["foo"]) in
  0 <= max_depth opts /\
  search_directory 1 demo_fs (Some "./b") 1 opts world0 = Some world0 /\
  exists w' new,
    search_directory 2 demo_fs (Some ".") 0 opts world0 = Some w' /\
    w_log w' = w_log world0 ++ new /\
    (forall p, In (Opendir p) new -> p = "."%string) /\
    In (Fopen "./a.txt") new.
Proof.
  cbv zeta.
  assert (H0 : 0 <= max_depth (with_max_depth 0 (default_options ["foo"])))
    by (simpl; lia).
  split; [exact H0|].
  destruct (C5_depth_limit demo_fs (with_max_depth 0 (default_options ["foo"]))
              H0) as [Deep Flat].
  split.
  - apply Deep. simpl. lia.
  - destruct (Flat eq_refl "."%string ["."; ".."; "a.txt"; "b"]%string
                 world0 2%nat eq_refl (le_n 2))
      as (w' & new & E & L & O & F).
    exists w', new. repeat (split; [assumption|]).
    apply (F "a.txt"%string); try reflexivity. simpl. auto.
Defined.

(** ** Examples *)

Example matches_pattern_main_C :
  matches_pattern (Some "src/main.C") (Some "*.c") = true.
Proof. reflexivity. Qed.

(** The walk of the demonstration tree, link to the start included. *)
Example demo_walk :
  option_map (fun w => (w_stats w, stdout w))
    (search_directory enough_fuel demo_fs (Some "."%string) 0
       (default_options ["foo"%string]) world0)
  = Some (mkStats 2 2 2 14 0,
          ("./a.txt:1:foo" ++ String LF "" ++
           "./b/c.txt:1:foo foo" ++ String LF "")%string).
Proof. vm_compute. reflexivity. Qed.

(** * Further properties of the code *)

(** ** The string functions *)

Lemma tolower_range x : 0 <= x < 256 -> 0 <= tolower x < 256.
Proof.
  intros H. unfold tolower.
  destruct ((65 <=? x) && (x <=? 90)) eqn:E; [|exact H].
  apply andb_true_iff in E. lia.
Qed.

Lemma strcasecmp_loop_swap : forall a b,
  strcasecmp_loop a b = - strcasecmp_loop b a.
Proof.
  induction a as [|x a IH]; intros [|y b]; simpl;
    change (tolower (uchar NUL)) with 0; try lia.
  rewrite (Z.eqb_sym (tolower (uchar y))).
  destruct (tolower (uchar x) =? tolower (uchar y)); simpl; [apply IH | lia].
Qed.

Lemma strcasecmp_loop_range : forall a b, -255 <= strcasecmp_loop a b <= 255.
Proof.
  assert (R : forall c, 0 <= tolower (uchar c) < 256)
    by (intros c; apply tolower_range, uchar_range).
  induction a as [|x a IH]; intros [|y b]; simpl.
  - change (tolower (uchar NUL)) with 0. lia.
  - change (tolower (uchar NUL)) with 0. pose proof (R y). lia.
  - change (tolower (uchar NUL)) with 0. pose proof (R x). lia.
  - destruct (tolower (uchar x) =? tolower (uchar y)); simpl; [apply IH|].
    pose proof (R x). pose proof (R y). lia.
Qed.

Lemma strcasecmp_loop_negative : forall a b,
  no_nul a -> no_nul b ->
  (strcasecmp_loop a b < 0 <-> lex_lt (lower a) (lower b)).
Proof.
  induction a as [|x a IH]; intros [|y b] Ha Hb; simpl in *.
  - change (tolower (uchar NUL)) with 0. lia.
  - destruct Hb as [Hy _]. pose proof (tolower_uchar_nonzero y Hy).
    pose proof (tolower_range _ (uchar_range y)).
    change (tolower (uchar NUL)) with 0. split; [auto | lia].
  - pose proof (tolower_range _ (uchar_range x)).
    change (tolower (uchar NUL)) with 0. lia.
  - destruct Ha as [_ Ha], Hb as [_ Hb].
    destruct (Z.eqb_spec (tolower (uchar x)) (tolower (uchar y))) as [E | E];
      simpl.
    + rewrite (IH b Ha Hb). split; [auto | intros [H | [_ H]]; [lia | exact H]].
    + split; [intros H; left; lia | intros [H | [H _]]; [lia | contradiction]].
Qed.

(** X1. [strcasecmp_safe] is a three-way comparison up to case: on two
    strings it is 0 exactly when they are equal up to case, negative exactly
    when the first comes first in the lexicographic order of the lowered
    characters, it changes sign when the arguments are swapped and stays
    within -255..255; with a NULL argument it is -1, so that NULL equals
    nothing. *)
Theorem X1_strcasecmp_safe_order a b :
  no_nul a -> no_nul b ->
  (strcasecmp_safe (Some a) (Some b) = 0 <-> eq_nocase a b) /\
  (strcasecmp_safe (Some a) (Some b) < 0 <-> lex_lt (lower a) (lower b)) /\
  strcasecmp_safe (Some a) (Some b) = - strcasecmp_safe (Some b) (Some a) /\
  -255 <= strcasecmp_safe (Some a) (Some b) <= 255 /\
  (forall s, strcasecmp_safe None s = -1 /\ strcasecmp_safe s None = -1).
Proof.
  intros Ha Hb. simpl. repeat split.
  - apply strcasecmp_loop_zero; assumption.
  - apply strcasecmp_loop_zero; assumption.
  - apply strcasecmp_loop_negative; assumption.
  - apply strcasecmp_loop_negative; assumption.
  - apply strcasecmp_loop_swap.
  - apply strcasecmp_loop_range.
  - apply strcasecmp_loop_range.
  - destruct s; reflexivity.
Qed.

Lemma X1_strcasecmp_safe_order_witness :
  no_nul "Makefile" /\ no_nul "makefile.am" /\
  strcasecmp_safe (Some "Makefile"%string) (Some "makefile.am"%string) < 0 /\
  lex_lt (lower "Makefile") (lower "makefile.am").
Proof.
  assert (Ha : no_nul "Makefile") by (simpl; repeat split; discriminate).
  assert (Hb : no_nul "makefile.am") by (simpl; repeat split; discriminate).
  split; [exact Ha|]. split; [exact Hb|].
  destruct (X1_strcasecmp_safe_order "Makefile" "makefile.am" Ha Hb)
    as (_ & N & _).
  assert (L : strcasecmp_safe (Some "Makefile"%string)
                (Some "makefile.am"%string) < 0) by (vm_compute; reflexivity).
  split; [exact L | exact (proj1 N L)].
Defined.

Lemma strstr_case_loop_leftmost b n' : forall h,
  match strstr_case_loop h (String b n') with
  | Some suffix =>
      exists pre mid post,
        h = (pre ++ suffix)%string /\ suffix = (mid ++ post)%string /\
        eq_nocase mid (String b n') /\
        forall pre' mid' post',
          h = (pre' ++ mid' ++ post')%string ->
          eq_nocase mid' (String b n') ->
          (String.length pre <= String.length pre')%nat
  | None =>
      forall pre mid post,
        h = (pre ++ mid ++ post)%string -> ~ eq_nocase mid (String b n')
  end.
Proof.
  induction h as [|c h IH].
  - simpl. intros pre mid post E L.
    destruct pre; [|discriminate]. destruct mid; discriminate.
  - cbn [strstr_case_loop].
    destruct (strstr_case_inner (String c h) (String b n')) as [|x rem] eqn:I.
    + apply strstr_case_inner_done in I. destruct I as (mid & post & E & L).
      exists ""%string, mid, post. repeat split; auto. simpl. lia.
    + assert (Not_here : forall mid post,
                String c h = (mid ++ post)%string ->
                ~ eq_nocase mid (String b n')).
      { intros mid post E L.
        assert (D : strstr_case_inner (String c h) (String b n') = ""%string)
          by (apply strstr_case_inner_done; eauto).
        congruence. }
      destruct (strstr_case_loop h (String b n')) as [suffix|].
      * destruct IH as (pre & mid & post & -> & -> & L & Min).
        exists (String c pre), mid, post. repeat split; auto.
        intros pre' mid' post' E L'. destruct pre' as [|y pre'].
        -- exfalso. exact (Not_here mid' post' E L').
        -- simpl in E. injection E as _ E. simpl.
           specialize (Min pre' mid' post' E L'). lia.
      * intros pre mid post E L. destruct pre as [|y pre].
        -- exact (Not_here mid post E L).
        -- simpl in E. injection E as _ E. exact (IH pre mid post E L).
Qed.

(** X2. [strstr_case] returns the leftmost place where the haystack holds
    the needle up to case: what it returns is a suffix of the haystack that
    starts with such an occurrence, and no occurrence starts before it; it
    returns NULL exactly when the needle is empty or occurs nowhere. *)
Theorem X2_strstr_case_leftmost h n :
  match strstr_case (Some h) (Some n) with
  | Some suffix =>
      n <> ""%string /\
      exists pre mid post,
        h = (pre ++ suffix)%string /\ suffix = (mid ++ post)%string /\
        eq_nocase mid n /\
        forall pre' mid' post',
          h = (pre' ++ mid' ++ post')%string -> eq_nocase mid' n ->
          (String.length pre <= String.length pre')%nat
  | None =>
      n = ""%string \/
      forall pre mid post,
        h = (pre ++ mid ++ post)%string -> ~ eq_nocase mid n
  end.
Proof.
  unfold strstr_case. destruct n as [|b n']; [left; reflexivity|].
  pose proof (strstr_case_loop_leftmost b n' h) as L.
  destruct (strstr_case_loop h (String b n')).
  - split; [discriminate | exact L].
  - right. exact L.
Qed.

(** X3. On two arrays that end at the terminators of a haystack and of a
    needle, [strstr_case] finishes, for haystacks and needles of any
    length, without a read outside the arrays, and returns NULL or the
    offset of the suffix the function on strings returns. *)
Theorem X3_strstr_case_no_overread h n fuel :
  no_nul h -> no_nul n -> (String.length h < fuel)%nat ->
  exists r,
    Ptr.strstr_case fuel (Ptr.array_of h) 0 (Ptr.array_of n) 0 = Ptr.Done r /\
    match strstr_case (Some h) (Some n) with
    | None => r = None
    | Some suffix =>
        exists pre, h = (pre ++ suffix)%string /\ r = Some (String.length pre)
    end.
Proof. apply strstr_case_in_bounds. Qed.

Lemma X3_strstr_case_no_overread_witness :
  no_nul "Hello World" /\ no_nul "WORLD" /\
  exists r,
    Ptr.strstr_case 12 (Ptr.array_of "Hello World") 0 (Ptr.array_of "WORLD") 0
    = Ptr.Done r.
Proof.
  assert (Ha : no_nul "Hello World") by (simpl; repeat split; discriminate).
  assert (Hb : no_nul "WORLD") by (simpl; repeat split; discriminate).
  split; [exact Ha|]. split; [exact Hb|].
  destruct (X3_strstr_case_no_overread "Hello World" "WORLD" 12 Ha Hb)
    as (r & E & _); [simpl; lia|].
  exists r. exact E.
Defined.

Lemma eq_nocase_refl a : eq_nocase a a.
Proof. reflexivity. Qed.

(** X4. With a keyword that is not empty, the case-insensitive matcher finds
    whatever the case-sensitive one finds: [-i] loses no match, on a
    keyword and on a line. *)
Theorem X4_ignore_case_finds_more o text :
  case_sensitive o = true ->
  (forall kw, kw <> ""%string ->
     keyword_found o text kw = true ->
     keyword_found (ignore_case o) text kw = true) /\
  (Forall (fun kw => kw <> ""%string) (keywords o) ->
   line_matches o text = true -> line_matches (ignore_case o) text = true).
Proof.
  intros Hs.
  assert (K : forall kw, kw <> ""%string ->
            keyword_found o text kw = true ->
            keyword_found (ignore_case o) text kw = true).
  { intros kw Hkw H. apply (keyword_found_iff o text kw Hkw) in H.
    rewrite Hs in H. destruct H as (pre & mid & post & E & ->).
    apply (keyword_found_iff (ignore_case o) text kw Hkw). simpl.
    exists pre, kw, post. split; [exact E | apply eq_nocase_refl]. }
  split; [exact K|].
  intros Hne H. unfold line_matches in *. simpl keywords.
  apply existsb_exists in H. destruct H as (kw & Hin & Hf).
  apply existsb_exists. exists kw. split; [exact Hin|].
  rewrite Forall_forall in Hne. apply K; auto.
Qed.

Lemma X4_ignore_case_finds_more_witness :
  let o := default_options ["World"%string] in
  case_sensitive o = true /\
  keyword_found o "Hello World" "World" = true /\
  keyword_found (ignore_case o) "Hello World" "World" = true.
Proof.
  cbv zeta. split; [reflexivity|]. split; [reflexivity|].
  apply (proj1 (X4_ignore_case_finds_more (default_options ["World"%string])
                  "Hello World" eq_refl));
    [discriminate | reflexivity].
Defined.

Lemma uchar_inj x c : uchar x = uchar c -> x = c.
Proof.
  unfold uchar. intros H.
  rewrite <- (ascii_N_embedding x), <- (ascii_N_embedding c).
  f_equal. lia.
Qed.

(** A character that is no letter is only equal to itself up to case. *)
Lemma tolower_no_letter c x :
  uchar c < 65 \/ 90 < uchar c < 97 \/ 122 < uchar c ->
  tolower (uchar x) = tolower (uchar c) -> x = c.
Proof.
  intros Hc. unfold tolower.
  destruct ((65 <=? uchar c) && (uchar c <=? 90)) eqn:C.
  { apply andb_true_iff in C. lia. }
  destruct ((65 <=? uchar x) && (uchar x <=? 90)) eqn:X.
  - apply andb_true_iff in X. lia.
  - apply uchar_inj.
Qed.

Lemma contains_nocase c :
  uchar c < 65 \/ 90 < uchar c < 97 \/ 122 < uchar c ->
  forall a b, eq_nocase a b -> contains c a = contains c b.
Proof.
  intros Hc. unfold eq_nocase.
  induction a as [|x a IH]; intros [|y b] E; simpl in *; try discriminate;
    [reflexivity|].
  injection E as Exy E. rewrite (IH b E). f_equal.
  destruct (Ascii.eqb_spec x c) as [-> | Nx], (Ascii.eqb_spec y c) as [-> | Ny];
    try reflexivity.
  - exfalso. apply Ny. apply (tolower_no_letter c y Hc). congruence.
  - exfalso. apply Nx. apply (tolower_no_letter c x Hc). congruence.
Qed.

Lemma slash_no_letter :
  uchar "/"%char < 65 \/ 90 < uchar "/"%char < 97 \/ 122 < uchar "/"%char.
Proof. left. vm_compute. reflexivity. Qed.

Lemma dot_no_letter :
  uchar "."%char < 65 \/ 90 < uchar "."%char < 97 \/ 122 < uchar "."%char.
Proof. left. vm_compute. reflexivity. Qed.

Lemma extension_contains c b e :
  extension b e -> contains c b = false -> contains c e = false.
Proof.
  intros [_ [stem ->]] H. rewrite contains_app in H. simpl in H.
  apply orb_false_iff in H. destruct H as [_ H].
  apply orb_false_iff in H. tauto.
Qed.

Lemma pattern_form p :
  p = ""%string \/ (exists ext, p = ("*." ++ ext)%string) \/
  (p <> ""%string /\ forall ext, p <> ("*." ++ ext)%string).
Proof.
  destruct p as [|p0 p1]; [auto|]. right.
  destruct (Ascii.eqb_spec p0 "*"%char) as [-> | N0].
  - destruct p1 as [|p1 p2].
    + right. split; [discriminate | intros ext E; discriminate].
    + destruct (Ascii.eqb_spec p1 "."%char) as [-> | N1].
      * left. exists p2. reflexivity.
      * right. split; [discriminate|]. intros ext E. injection E as E _.
        contradiction.
  - right. split; [discriminate|]. intros ext E. injection E as E _.
    contradiction.
Qed.

Lemma matches_pattern_basename filename p :
  matches_pattern (Some filename) (Some p) =
  matches_pattern (Some (basename_of filename)) (Some p).
Proof.
  assert (B : basename_of (basename_of filename) = basename_of filename).
  { apply basename_of_unique.
    destruct (basename_of_last_component filename) as [H _].
    split; [exact H | left; reflexivity]. }
  unfold matches_pattern. rewrite B. reflexivity.
Qed.

(** X5. [matches_pattern] looks at the last component of the file name
    only; a pattern that holds a '/' matches no file, and neither does an
    extension pattern whose extension holds a '.' (such as "*.tar.gz"). *)
Theorem X5_matches_pattern_edges filename p :
  no_nul filename -> no_nul p ->
  (forall d b, filename = (d ++ String "/"%char b)%string ->
     contains "/"%char b = false ->
     matches_pattern (Some filename) (Some p) = matches_pattern (Some b) (Some p))
  /\ (contains "/"%char p = true ->
      matches_pattern (Some filename) (Some p) = false)
  /\ (forall ext, p = ("*." ++ ext)%string -> contains "."%char ext = true ->
      matches_pattern (Some filename) (Some p) = false).
Proof.
  intros Hf Hp.
  pose proof (basename_of_last_component filename) as [Bslash _].
  pose proof (no_nul_basename_of filename Hf) as Bnul.
  split; [|split].
  - intros d b -> Hb. rewrite matches_pattern_basename.
    rewrite (basename_of_unique (d ++ String "/"%char b) b); [reflexivity|].
    split; [exact Hb | right; eauto].
  - intros Hs. destruct (matches_pattern (Some filename) (Some p)) eqn:M;
      [exfalso | reflexivity].
    destruct (pattern_form p) as [-> | [[ext ->] | [Hne Hform]]].
    + discriminate.
    + assert (He : no_nul ext) by (simpl in Hp; tauto).
      apply (matches_pattern_ext filename ext Hf He) in M.
      destruct M as (e & Xe & L).
      pose proof (extension_contains "/"%char _ _ Xe Bslash) as Ce.
      rewrite (contains_nocase _ slash_no_letter _ _ L) in Ce.
      simpl in Hs. congruence.
    + rewrite (matches_pattern_literal filename p Hne Hform) in M.
      apply Z.eqb_eq in M. apply (strcasecmp_loop_zero _ _ Bnul Hp) in M.
      rewrite (contains_nocase _ slash_no_letter _ _ M) in Bslash. congruence.
  - intros ext -> Hdot.
    destruct (matches_pattern (Some filename) (Some ("*." ++ ext)%string)) eqn:M;
      [exfalso | reflexivity].
    assert (He : no_nul ext) by (simpl in Hp; tauto).
    apply (matches_pattern_ext filename ext Hf He) in M.
    destruct M as (e & [Ce _] & L).
    rewrite (contains_nocase _ dot_no_letter _ _ L) in Ce. congruence.
Qed.

Lemma X5_matches_pattern_edges_witness :
  no_nul "dist/app.tar.gz" /\ no_nul "*.tar.gz" /\
  matches_pattern (Some "dist/app.tar.gz"%string) (Some "*.tar.gz"%string)
  = false.
Proof.
  assert (Hf : no_nul "dist/app.tar.gz") by (simpl; repeat split; discriminate).
  assert (Hp : no_nul "*.tar.gz") by (simpl; repeat split; discriminate).
  split; [exact Hf|]. split; [exact Hp|].
  apply (proj2 (proj2 (X5_matches_pattern_edges "dist/app.tar.gz" "*.tar.gz"
                         Hf Hp)) "tar.gz"%string); reflexivity.
Defined.

(** ** Lines *)

Lemma chomp_unfold a r :
  chomp (String a r) =
  if Ascii.eqb a NUL then ""%string
  else if Ascii.eqb a LF then ""%string
  else String a (chomp r).
Proof.
  unfold chomp. cbn [of_buffer]. destruct (Ascii.eqb a NUL); [reflexivity|].
  cbn [strcspn contains]. rewrite orb_false_r, (Ascii.eqb_sym LF a).
  destruct (Ascii.eqb a LF); reflexivity.
Qed.

Lemma chomp_clean : forall buf,
  contains LF (chomp buf) = false /\ no_nul (chomp buf) /\
  (String.length (chomp buf) <= String.length buf)%nat.
Proof.
  induction buf as [|a r IH]; [simpl; auto|].
  rewrite chomp_unfold.
  destruct (Ascii.eqb_spec a NUL); [simpl; repeat split; auto; lia|].
  destruct (Ascii.eqb_spec a LF) as [|NL]; [simpl; repeat split; auto; lia|].
  destruct IH as (C & N & L). simpl. rewrite C.
  destruct (Ascii.eqb_spec a LF); [contradiction|]. repeat split; auto. lia.
Qed.

Lemma chomp_body : forall body tail,
  contains LF body = false -> no_nul body ->
  tail = ""%string \/ tail = String LF "" ->
  chomp (body ++ tail) = body.
Proof.
  induction body as [|a r IH]; intros tail C N T.
  - destruct T as [-> | ->]; reflexivity.
  - simpl in C, N. apply orb_false_iff in C. destruct C as [Ca Cr].
    destruct N as [Na Nr]. simpl. rewrite chomp_unfold, Ca.
    destruct (Ascii.eqb_spec a NUL); [contradiction|].
    rewrite (IH tail Cr Nr T). reflexivity.
Qed.

(** What one [fgets] call stores: no more than there is room for, and a
    newline only as its last character. *)
Lemma fgets_chars_shape : forall stream room,
  (N.of_nat (String.length (fst (fgets_chars room stream))) <= room)%N /\
  exists body,
    contains LF body = false /\
    (fst (fgets_chars room stream) = body \/
     fst (fgets_chars room stream) = (body ++ String LF "")%string).
Proof.
  induction stream as [|c r IH]; intros room; cbn [fgets_chars].
  - simpl. split; [lia|]. exists ""%string. auto.
  - destruct (N.eqb_spec room 0) as [-> | Hroom].
    + simpl. split; [lia|]. exists ""%string. auto.
    + destruct (Ascii.eqb_spec c LF) as [-> | Hc].
      * simpl. split; [lia|]. exists ""%string. auto.
      * destruct (IH (room - 1)%N) as (L & body & C & S).
        destruct (fgets_chars (room - 1) r) as [l rest]. cbn [fst] in *.
        split; [simpl String.length; lia|].
        exists (String c body). split.
        -- simpl. rewrite C. destruct (Ascii.eqb_spec c LF); [contradiction|].
           reflexivity.
        -- destruct S as [-> | ->]; [left | right]; reflexivity.
Qed.

Lemma fgets_chars_nonempty c r room :
  (0 < room)%N -> fst (fgets_chars room (String c r)) <> ""%string.
Proof.
  intros H. cbn [fgets_chars]. destruct (N.eqb_spec room 0); [lia|].
  destruct (Ascii.eqb c LF); [discriminate|].
  destruct (fgets_chars (room - 1) r). discriminate.
Qed.

Lemma read_lines_shape : forall fuel stream,
  Forall (fun buf =>
            buf <> ""%string /\
            (N.of_nat (String.length buf) <= MAX_LINE - 1)%N /\
            exists body,
              contains LF body = false /\
              (buf = body \/ buf = (body ++ String LF "")%string))
         (read_lines fuel stream).
Proof.
  induction fuel as [|fuel IH]; intros [|c r]; cbn [read_lines fgets];
    try constructor.
  pose proof (fgets_chars_shape (String c r) (MAX_LINE - 1)) as (L & S).
  pose proof (fgets_chars_nonempty c r (MAX_LINE - 1) eq_refl) as N.
  destruct (fgets_chars (MAX_LINE - 1) (String c r)) as [buf rest].
  constructor; [auto | apply IH].
Qed.

(** X6. The buffers the [fgets] loop fills cut the bytes of the file into
    consecutive pieces with nothing lost; no piece is empty or longer than
    [MAX_LINE - 1], and a newline can only be its last character.  The line
    the matcher gets holds neither a newline nor a NUL, and is the piece
    without its newline when the piece holds no NUL. *)
Theorem X6_lines_of_a_file file :
  String.concat "" (file_lines file) = f_data file /\
  Forall (fun buf =>
            buf <> ""%string /\
            (N.of_nat (String.length buf) <= MAX_LINE - 1)%N /\
            exists body,
              contains LF body = false /\
              (buf = body \/ buf = (body ++ String LF "")%string) /\
              (no_nul body -> chomp buf = body))
         (file_lines file) /\
  (forall buf, contains LF (chomp buf) = false /\ no_nul (chomp buf)).
Proof.
  split; [apply file_lines_whole|]. split.
  - eapply Forall_impl; [|apply read_lines_shape].
    intros buf (N & L & body & C & S). repeat split; auto.
    exists body. repeat split; auto.
    intros Hn. destruct S as [-> | ->].
    + rewrite <- (chomp_body body ""%string C Hn) at 2; [|auto].
      f_equal. clear. induction body; simpl; congruence.
    + apply chomp_body; auto.
  - intros buf. destruct (chomp_clean buf) as (C & N & _). auto.
Qed.

Lemma X6_lines_of_a_file_witness :
  String.concat "" (file_lines five_foo) = f_data five_foo /\
  List.length (file_lines five_foo) = 5%nat.
Proof.
  split; [exact (proj1 (X6_lines_of_a_file five_foo)) | reflexivity].
Defined.

(** ** One file *)

(** The calls of [search_file], in order. *)
Lemma search_file_shape fs filename opts w :
  let w' := snd (search_file fs filename opts w) in
  match fs_fopen fs filename with
  | None => w_log w' = w_log w ++ [Fopen filename]
  | Some _ =>
      exists k tail,
        w_log w' = w_log w ++ Fopen filename :: repeat (Fgets filename) k
                     ++ Fclose filename :: tail /\
        (tail = [] \/ exists s, tail = [Counted filename s])
  end.
Proof.
  cbv zeta. destruct (fs_fopen fs filename) as [file|] eqn:Ho.
  - destruct (passes_filters opts filename file) eqn:Hp.
    + rewrite (search_file_searched _ _ _ _ _ Ho Hp).
      destruct (search_open_file_cases opts filename file
                  (opened filename file w))
        as [(i & _ & _ & _ & _ & E) | [(_ & _ & _ & E) | (_ & E)]];
        rewrite E; clear E.
      * exists (S i), [Counted filename ContentEarlyExit].
        unfold early_exit, count_file, fgets_calls, call, upd_stats.
        simpl w_log. rewrite opened_log, <- !app_assoc. simpl. eauto.
      * exists (S (List.length (file_lines file))),
          [Counted filename ContentMatch].
        unfold count_file, call, upd_stats.
        simpl w_log. rewrite opened_log, <- !app_assoc. simpl. eauto.
      * unfold after_quiet_content, filename_match, count_file, fgets_calls,
          call, print, upd_stats.
        destruct (search_filenames opts && name_matches opts filename),
          (count_only opts), (search_content opts);
          simpl w_log; rewrite opened_log, <- !app_assoc; simpl;
          first [ exists (S (List.length (file_lines file))),
                    [Counted filename FilenameMatch]; simpl; solve [eauto]
                | exists O, [Counted filename FilenameMatch]; simpl;
                    solve [eauto]
                | exists (S (List.length (file_lines file))), [];
                    simpl; solve [eauto]
                | exists O, []; simpl; solve [eauto] ].
    + rewrite (search_file_rejected _ _ _ _ _ Ho Hp). simpl.
      rewrite opened_log, <- app_assoc. exists O, []. simpl. auto.
  - rewrite (search_file_unopenable _ _ _ _ Ho). reflexivity.
Qed.

(** X7. [search_file] closes the file it opened exactly once, after its
    last read and before anything is counted, on every path out of the
    function; when [fopen] fails it makes no other call.  It touches no
    other file. *)
Theorem X7_file_closed_once fs filename opts w :
  let w' := snd (search_file fs filename opts w) in
  match fs_fopen fs filename with
  | None => w_log w' = w_log w ++ [Fopen filename]
  | Some _ =>
      exists k tail,
        w_log w' = w_log w ++ Fopen filename :: repeat (Fgets filename) k
                     ++ Fclose filename :: tail /\
        (tail = [] \/ exists s, tail = [Counted filename s])
  end.
Proof. apply search_file_shape. Qed.

(** ** A property kept by every step of a walk is kept by the walk *)

Section WalkInvariant.

Variable fs : FileSystem.
Variable opts : SearchOptions.
Variable R : World -> World -> Prop.

Hypothesis R_refl : forall w, R w w.
Hypothesis R_trans : forall a b c, R a b -> R b c -> R a c.
Hypothesis R_call : forall e w, walker_call e -> R w (call e w).
Hypothesis R_file : forall f w, R w (snd (search_file fs f opts w)).

Lemma search_directory_invariant : forall fuel path depth w w',
  search_directory fuel fs path depth opts w = Some w' -> R w w'.
Proof.
  induction fuel as [|fuel IH]; intros path depth w w' H; [discriminate|].
  simpl in H. destruct path as [p|]; [|injection H as <-; apply R_refl].
  destruct ((0 <=? max_depth opts) && (max_depth opts <? depth));
    [injection H as <-; apply R_refl|].
  destruct (fs_opendir fs p) as [entries|];
    [|injection H as <-; apply R_call; exact I].
  assert (W : forall entries w0 w1,
    walk_entries fs (search_directory fuel fs) p depth opts entries w0
      = Some w1 -> R w0 w1).
  { clear entries H. induction entries as [|d rest IHe]; intros w0 w1 H;
      simpl in H; [injection H as <-; apply R_refl|].
    destruct (visit_entry fs (search_directory fuel fs) p depth opts w0 d)
      as [w2|] eqn:V; [|discriminate].
    apply (R_trans w0 w2 w1); [|apply IHe; exact H].
    unfold visit_entry in V.
    destruct (dot_entry d); [injection V as <-; apply R_refl|].
    destruct (path_too_long p d); [injection V as <-; apply R_refl|].
    destruct (fs_lstat fs (entry_path p d)) as [m|];
      [|injection V as <-; apply R_call; exact I].
    destruct (S_ISDIR m).
    - destruct (recursive opts); [|injection V as <-; apply R_call; exact I].
      apply (R_trans _ (call (Lstat (entry_path p d)) w0));
        [apply R_call; exact I | eapply IH, V].
    - destruct (S_ISREG m); injection V as <-; [|apply R_call; exact I].
      apply (R_trans _ (call (Lstat (entry_path p d)) w0));
        [apply R_call; exact I | apply R_file]. }
  destruct (walk_entries fs (search_directory fuel fs) p depth opts entries
              (call (Opendir p) w)) as [w1|] eqn:E; [|discriminate].
  injection H as <-.
  apply (R_trans _ (call (Opendir p) w)); [apply R_call; exact I|].
  apply (R_trans _ w1); [eapply W, E | apply R_call; exact I].
Qed.

(** The walk returns, and the property holds of what it returns. *)
Lemma search_directory_establishes path depth w :
  exists w',
    search_directory enough_fuel fs path depth opts w = Some w' /\ R w w'.
Proof.
  destruct (search_directory_total fs opts path depth w) as (w' & E & _).
  exists w'. split; [exact E | eapply search_directory_invariant, E].
Qed.

End WalkInvariant.

(** ** Counters and output over a whole walk *)

Lemma content_records_count_only opts filename :
  count_only opts = true ->
  forall bufs n, content_records opts filename n bufs = [].
Proof.
  intros Hc. induction bufs as [|buf bufs IH]; intros n; simpl; [reflexivity|].
  unfold line_records. rewrite Hc, IH. reflexivity.
Qed.

Lemma content_records_length opts filename :
  count_only opts = false ->
  forall bufs n,
    Z.of_nat (List.length (content_records opts filename n bufs))
    = content_hits opts bufs.
Proof.
  intros Hc. induction bufs as [|buf bufs IH]; intros n; simpl; [reflexivity|].
  unfold line_records. rewrite Hc, length_app, repeat_length, Nat2Z.inj_add, IH.
  reflexivity.
Qed.



(** The five ways through [search_file]. *)
Ltac search_file_paths fs filename opts w :=
  let file := fresh "file" in
  let Ho := fresh "Ho" in
  let Hp := fresh "Hp" in
  let E := fresh "E" in
  destruct (fs_fopen fs filename) as [file|] eqn:Ho;
  [ destruct (passes_filters opts filename file) eqn:Hp;
    [ rewrite (search_file_searched _ _ _ _ _ Ho Hp);
      destruct (search_open_file_cases opts filename file
                  (opened filename file w))
        as [(?i & ?Hc & ?Hl & ?Hm & _ & E) | [(?Hc & ?Hl & ?Hm & E) | (?Hq & E)]];
      rewrite E; clear E
    | rewrite (search_file_rejected _ _ _ _ _ Ho Hp) ]
  | rewrite (search_file_unopenable _ _ _ _ Ho) ].

Lemma search_file_count_only fs filename opts w :
  count_only opts = true ->
  w_out (snd (search_file fs filename opts w)) = w_out w.
Proof.
  intros Hco. search_file_paths fs filename opts w.
  - world_simpl. apply opened_out.
  - world_simpl. rewrite (content_records_count_only _ _ Hco), app_nil_r.
    apply opened_out.
  - unfold after_quiet_content, filename_match. rewrite Hco.
    destruct (search_filenames opts && name_matches opts filename),
      (search_content opts); world_simpl; apply opened_out.
  - simpl. apply opened_out.
  - reflexivity.
Qed.

(** X8. In count-only mode nothing is printed: not by [search_file], and
    not by a whole walk, which returns with the output as it was. *)
Theorem X8_count_only_prints_nothing fs opts :
  count_only opts = true ->
  (forall filename w, w_out (snd (search_file fs filename opts w)) = w_out w) /\
  (forall path depth w,
     exists w',
       search_directory enough_fuel fs path depth opts w = Some w' /\
       w_out w' = w_out w).
Proof.
  intros Hco. split.
  - intros filename w. apply search_file_count_only, Hco.
  - intros path depth w.
    apply (search_directory_establishes fs opts
             (fun w w' => w_out w' = w_out w)).
    + reflexivity.
    + intros a b c H1 H2. congruence.
    + reflexivity.
    + intros f w0. apply search_file_count_only, Hco.
Qed.

Lemma search_file_plain fs filename opts w :
  count_only opts = false -> only_matching_files opts = false ->
  exists recs,
    w_out (snd (search_file fs filename opts w)) = w_out w ++ recs /\
    total_matches (w_stats (snd (search_file fs filename opts w)))
    = total_matches (w_stats w) + Z.of_nat (List.length recs).
Proof.
  intros Hco Hno. search_file_paths fs filename opts w.
  - congruence.
  - world_simpl. rewrite opened_out, opened_total_matches.
    eexists. split; [reflexivity|].
    rewrite (content_records_length _ _ Hco). reflexivity.
  - unfold after_quiet_content, filename_match. rewrite Hco.
    destruct (search_filenames opts && name_matches opts filename),
      (search_content opts); world_simpl;
      rewrite opened_out, opened_total_matches;
      first [ exists [OutFilenameMatch filename]; split; reflexivity
            | exists []; rewrite app_nil_r; split; [reflexivity | simpl; lia] ].
  - simpl. rewrite opened_out, opened_total_matches. exists [].
    rewrite app_nil_r. split; [reflexivity | simpl; lia].
  - simpl. exists []. rewrite app_nil_r. split; [reflexivity | simpl; lia].
Qed.

(** X9. Outside count-only and names-only mode, [total_matches] grows by
    exactly the number of records printed: over one file, and over a whole
    walk. *)
Theorem X9_matches_are_the_lines_printed fs opts :
  count_only opts = false -> only_matching_files opts = false ->
  (forall filename w,
     exists recs,
       w_out (snd (search_file fs filename opts w)) = w_out w ++ recs /\
       total_matches (w_stats (snd (search_file fs filename opts w)))
       = total_matches (w_stats w) + Z.of_nat (List.length recs)) /\
  (forall path depth w,
     exists w' recs,
       search_directory enough_fuel fs path depth opts w = Some w' /\
       w_out w' = w_out w ++ recs /\
       total_matches (w_stats w')
       = total_matches (w_stats w) + Z.of_nat (List.length recs)).
Proof.
  intros Hco Hno. split.
  - intros filename w. apply search_file_plain; assumption.
  - intros path depth w.
    destruct (search_directory_establishes fs opts
                (fun w w' => exists recs,
                   w_out w' = w_out w ++ recs /\
                   total_matches (w_stats w')
                   = total_matches (w_stats w) + Z.of_nat (List.length recs)))
      with (path := path) (depth := depth) (w := w) as (w' & E & recs & O & T).
    + intros w0. exists []. rewrite app_nil_r. split; [reflexivity | simpl; lia].
    + intros a b c (r1 & O1 & T1) (r2 & O2 & T2). exists (r1 ++ r2).
      rewrite O2, O1, T2, T1, app_assoc, length_app, Nat2Z.inj_add.
      split; [reflexivity | lia].
    + intros e w0 _. exists []. simpl. rewrite app_nil_r.
      split; [reflexivity | lia].
    + intros f w0. apply search_file_plain; assumption.
    + exists w', recs. auto.
Qed.

Lemma X9_matches_are_the_lines_printed_witness :
  let opts := default_options ["foo"%string] in
  count_only opts = false /\ only_matching_files opts = false /\
  exists w' recs,
    search_directory enough_fuel demo_fs (Some "."%string) 0 opts world0
    = Some w' /\
    w_out w' = recs /\ total_matches (w_stats w') = Z.of_nat (List.length recs).
Proof.
  cbv zeta. split; [reflexivity|]. split; [reflexivity|].
  destruct (proj2 (X9_matches_are_the_lines_printed demo_fs
                     (default_options ["foo"%string]) eq_refl eq_refl)
              (Some "."%string) 0 world0) as (w' & recs & E & O & T).
  exists w', recs. simpl in O, T. auto.
Defined.

Lemma X8_count_only_prints_nothing_witness :
  let opts := mkOptions ["foo"%string] true true true true true (-1) false true
                0 (-1) "" "." in
  count_only opts = true /\
  exists w',
    search_directory enough_fuel demo_fs (Some "."%string) 0 opts world0
    = Some w' /\ w_out w' = [].
Proof.
  cbv zeta. split; [reflexivity|].
  exact (proj2 (X8_count_only_prints_nothing demo_fs
                  (mkOptions ["foo"%string] true true true true true (-1)
                     false true 0 (-1) "" ".") eq_refl)
           (Some "."%string) 0 world0).
Defined.











Lemma search_file_names_only fs filename opts w :
  only_matching_files opts = true ->
  exists recs,
    w_out (snd (search_file fs filename opts w)) = w_out w ++ recs /\
    Forall is_filename_record recs /\
    total_matches (w_stats (snd (search_file fs filename opts w)))
      - total_matches (w_stats w)
    = files_matched (w_stats (snd (search_file fs filename opts w)))
      - files_matched (w_stats w) /\
    0 <= files_matched (w_stats (snd (search_file fs filename opts w)))
         - files_matched (w_stats w) <= 1.
Proof.
  intros Hl. search_file_paths fs filename opts w.
  - world_simpl. rewrite opened_out, opened_total_matches, opened_files_matched.
    exists []. rewrite app_nil_r. repeat split; auto; lia.
  - congruence.
  - unfold after_quiet_content, filename_match.
    destruct (search_filenames opts && name_matches opts filename),
      (count_only opts), (search_content opts); world_simpl;
      rewrite opened_out, opened_total_matches, opened_files_matched;
      first [ exists [OutFilenameMatch filename];
              repeat split; try lia; repeat constructor; eexists; reflexivity
            | exists []; rewrite app_nil_r; repeat split; auto; lia ].
  - simpl. rewrite opened_out, opened_total_matches, opened_files_matched.
    exists []. rewrite app_nil_r. repeat split; auto; lia.
  - simpl. exists []. rewrite app_nil_r. repeat split; auto; lia.
Qed.

(** X12. In names-only mode every file adds the same amount, 0 or 1, to
    [total_matches] and to [files_matched], and the only records printed
    are those of the filename search; so over a whole walk the two counters
    grow by the same amount and a file whose content matched is listed
    nowhere in the output. *)
Theorem X12_names_only_walk fs opts :
  only_matching_files opts = true ->
  (forall filename w,
     exists recs,
       w_out (snd (search_file fs filename opts w)) = w_out w ++ recs /\
       Forall is_filename_record recs /\
       total_matches (w_stats (snd (search_file fs filename opts w)))
         - total_matches (w_stats w)
       = files_matched (w_stats (snd (search_file fs filename opts w)))
         - files_matched (w_stats w) /\
       0 <= files_matched (w_stats (snd (search_file fs filename opts w)))
            - files_matched (w_stats w) <= 1) /\
  (forall path depth w,
     exists w' recs,
       search_directory enough_fuel fs path depth opts w = Some w' /\
       w_out w' = w_out w ++ recs /\
       Forall is_filename_record recs /\
       total_matches (w_stats w') - total_matches (w_stats w)
       = files_matched (w_stats w') - files_matched (w_stats w)).
Proof.
  intros Hl. split.
  - intros filename w. apply search_file_names_only, Hl.
  - intros path depth w.
    destruct (search_directory_establishes fs opts
                (fun w w' => exists recs,
                   w_out w' = w_out w ++ recs /\
                   Forall is_filename_record recs /\
                   total_matches (w_stats w') - total_matches (w_stats w)
                   = files_matched (w_stats w') - files_matched (w_stats w)))
      with (path := path) (depth := depth) (w := w)
      as (w' & E & recs & O & F & T).
    + intros w0. exists []. rewrite app_nil_r. repeat split; auto; lia.
    + intros a b c (r1 & O1 & F1 & T1) (r2 & O2 & F2 & T2). exists (r1 ++ r2).
      rewrite O2, O1, app_assoc. repeat split; [apply Forall_app; auto | lia].
    + intros e w0 _. exists []. simpl. rewrite app_nil_r.
      repeat split; auto; lia.
    + intros f w0. destruct (search_file_names_only fs f opts w0 Hl)
        as (recs & O & F & T & _). eauto.
    + exists w', recs. auto.
Qed.

Lemma X12_names_only_walk_witness :
  let opts := names_only (default_options ["foo"%string]) in
  only_matching_files opts = true /\
  exists w',
    search_directory enough_fuel demo_fs (Some "."%string) 0 opts world0
    = Some w' /\
    total_matches (w_stats w') = files_matched (w_stats w') /\
    Forall is_filename_record (w_out w').
Proof.
  cbv zeta. split; [reflexivity|].
  destruct (proj2 (X12_names_only_walk demo_fs
                     (names_only (default_options ["foo"%string])) eq_refl)
              (Some "."%string) 0 world0) as (w' & recs & E & O & F & T).
  exists w'. split; [exact E|]. simpl in O, T. rewrite O.
  split; [lia | exact F].
Defined.

(** X13. When [fstat] fails on a file that was opened, nothing is added to
    [total_size] and the size filter is not applied: whatever [min_size] and
    [max_size] are, the file is searched as soon as its name passes the
    pattern filter. *)
Theorem X13_fstat_failure fs filename opts w file :
  fs_fopen fs filename = Some file ->
  fstat file = None ->
  let w' := snd (search_file fs filename opts w) in
  total_size (w_stats w') = total_size (w_stats w) /\
  files_searched (w_stats w') =
    files_searched (w_stats w)
    + (if pattern_rejected opts filename then 0 else 1).
Proof. apply search_file_fstat_fails. Qed.

Lemma X13_fstat_failure_witness :
  let fs := one_file "x/foo.txt" no_stat_file in
  let opts := with_min_size 1000 (default_options ["needle"%string]) in
  fs_fopen fs "x/foo.txt" = Some no_stat_file /\
  fstat no_stat_file = None /\
  files_searched (w_stats (snd (search_file fs "x/foo.txt" opts world0))) = 1.
Proof.
  cbv zeta. split; [reflexivity|]. split; [reflexivity|].
  exact (proj2 (X13_fstat_failure (one_file "x/foo.txt" no_stat_file)
                  "x/foo.txt"
                  (with_min_size 1000 (default_options ["needle"%string]))
                  world0 no_stat_file eq_refl eq_refl)).
Defined.

Lemma sizes_reported_app fs a b :
  sizes_reported fs (a ++ b) = sizes_reported fs a + sizes_reported fs b.
Proof.
  induction a as [|e a IH]; simpl; [reflexivity|].
  destruct e; try exact IH.
  destruct (fs_fopen fs path) as [file|]; [|exact IH].
  destruct (fstat file); lia.
Qed.

Lemma files_passed_app fs opts a b :
  files_passed fs opts (a ++ b) = files_passed fs opts a + files_passed fs opts b.
Proof.
  induction a as [|e a IH]; simpl; [reflexivity|].
  destruct e; try exact IH.
  destruct (fs_fopen fs path) as [file|]; [lia | exact IH].
Qed.

Lemma file_events_account fs opts filename evs :
  Forall (file_event filename) evs ->
  sizes_reported fs evs = 0 /\ files_passed fs opts evs = 0.
Proof.
  induction 1 as [|e evs He _ [IH1 IH2]]; [auto|].
  destruct He as [-> | [-> | [s ->]]]; simpl; auto.
Qed.

Lemma search_file_sites fs filename opts w :
  exists new,
    sites (w_log (snd (search_file fs filename opts w)))
    = sites (w_log w) ++ new /\
    files_matched (w_stats (snd (search_file fs filename opts w)))
    = files_matched (w_stats w) + Z.of_nat (List.length new).
Proof.
  destruct (fs_fopen fs filename) as [file|] eqn:Ho.
  - destruct (passes_filters opts filename file) eqn:Hp.
    + rewrite (search_file_searched _ _ _ _ _ Ho Hp).
      destruct (search_open_file_counted opts filename file
                  (opened filename file w)) as (Hs & Hf & _).
      rewrite opened_log, sites_app, app_nil_r in Hs.
      rewrite opened_files_matched in Hf. eauto.
    + rewrite (search_file_rejected _ _ _ _ _ Ho Hp). exists []. simpl.
      rewrite opened_log, opened_files_matched, !sites_app. simpl.
      rewrite !app_nil_r. split; [reflexivity | lia].
  - rewrite (search_file_unopenable _ _ _ _ Ho). exists []. simpl.
    rewrite sites_app. simpl. rewrite !app_nil_r. split; [reflexivity | lia].
Qed.

(** What one file adds to the counters, read off the log. *)
Lemma search_file_account fs filename opts w :
  exists new,
    w_log (snd (search_file fs filename opts w)) = w_log w ++ new /\
    total_size (w_stats (snd (search_file fs filename opts w)))
    = total_size (w_stats w) + sizes_reported fs new /\
    files_searched (w_stats (snd (search_file fs filename opts w)))
    = files_searched (w_stats w) + files_passed fs opts new /\
    files_matched (w_stats (snd (search_file fs filename opts w)))
    = files_matched (w_stats w) + Z.of_nat (List.length (sites new)).
Proof.
  destruct (search_file_log fs filename opts w) as (evs & L & F).
  destruct (file_events_account fs opts filename evs F) as [S0 P0].
  exists (Fopen filename :: evs). split; [exact L|].
  assert (M : files_matched (w_stats (snd (search_file fs filename opts w)))
              = files_matched (w_stats w)
                + Z.of_nat (List.length (sites (Fopen filename :: evs)))).
  { destruct (search_file_sites fs filename opts w) as (new & Sn & Fm).
    rewrite L, sites_app in Sn. apply app_inv_head in Sn. simpl in Sn.
    simpl. rewrite Sn. exact Fm. }
  simpl. rewrite S0, P0.
  destruct (fs_fopen fs filename) as [file|] eqn:Ho.
  - destruct (passes_filters opts filename file) eqn:Hp.
    + rewrite (search_file_searched _ _ _ _ _ Ho Hp) in *.
      destruct (search_open_file_frame opts filename file
                  (opened filename file w)) as (Fs & Ts & _).
      rewrite Fs, Ts, opened_files_searched, opened_total_size.
      destruct (fstat file); repeat split; auto; lia.
    + rewrite (search_file_rejected _ _ _ _ _ Ho Hp) in *. simpl.
      rewrite opened_files_searched, opened_total_size.
      destruct (fstat file); repeat split; auto; simpl in M; lia.
  - rewrite (search_file_unopenable _ _ _ _ Ho) in *. simpl.
    repeat split; auto; simpl in M; lia.
Qed.

(** X14. The counters of a walk account for what its log says was done:
    [total_size] grows by the sum of the sizes [fstat] reported for the
    files opened, [files_searched] by the number of opened files that passed
    the size and pattern filters, and [files_matched] by the number of
    times a file was counted. *)
Theorem X14_counters_account_for_the_log fs opts path depth w :
  exists w' new,
    search_directory enough_fuel fs path depth opts w = Some w' /\
    w_log w' = w_log w ++ new /\
    total_size (w_stats w') = total_size (w_stats w) + sizes_reported fs new /\
    files_searched (w_stats w')
    = files_searched (w_stats w) + files_passed fs opts new /\
    files_matched (w_stats w')
    = files_matched (w_stats w) + Z.of_nat (List.length (sites new)).
Proof.
  destruct (search_directory_establishes fs opts
              (fun w w' => exists new,
                 w_log w' = w_log w ++ new /\
                 total_size (w_stats w')
                 = total_size (w_stats w) + sizes_reported fs new /\
                 files_searched (w_stats w')
                 = files_searched (w_stats w) + files_passed fs opts new /\
                 files_matched (w_stats w')
                 = files_matched (w_stats w) + Z.of_nat (List.length (sites new))))
    with (path := path) (depth := depth) (w := w)
    as (w' & E & new & L & T & S & M).
  - intros w0. exists []. simpl. rewrite app_nil_r. repeat split; lia.
  - intros a b c (n1 & L1 & T1 & S1 & M1) (n2 & L2 & T2 & S2 & M2).
    exists (n1 ++ n2).
    rewrite L2, L1, T2, T1, S2, S1, M2, M1, app_assoc, sizes_reported_app,
      files_passed_app, sites_app, length_app, Nat2Z.inj_add.
    repeat split; lia.
  - intros e w0 He. exists [e]. destruct e; try contradiction; simpl;
      repeat split; lia.
  - intros f w0. apply search_file_account.
  - exists w', new. auto.
Qed.

(** ** Where a walk goes *)

Lemma descends_shift p d k q :
  dot_entry d = false -> path_too_long p d = false ->
  descends (entry_path p d) k q -> descends p (S k) q.
Proof. apply descends_step. Qed.

Lemma descends_snoc : forall p k q, descends p k q ->
  forall d, dot_entry d = false -> path_too_long q d = false ->
  descends p (S k) (entry_path q d).
Proof.
  induction 1 as [p | p d0 k q D0 L0 H IH]; intros d Hd Hl.
  - apply (descends_step p d O); auto. constructor.
  - apply (descends_step p d0 (S k)); auto.
Qed.

Lemma located_deeper opts p d depth e :
  dot_entry d = false -> path_too_long p d = false ->
  recursive opts = true ->
  located opts (entry_path p d) (depth + 1) e -> located opts p depth e.
Proof.
  intros Hd Hl Hr. unfold located, within_depth.
  destruct e; intros (k & D & W & R); exists (S k);
    (split; [apply (descends_step p d); assumption|]);
    (split; [intros H; specialize (W H); lia | congruence]).
Qed.

Lemma located_entry opts p d depth e :
  dot_entry d = false -> path_too_long p d = false ->
  ~ (0 <= max_depth opts /\ max_depth opts < depth) ->
  event_path e = entry_path p d ->
  match e with Opendir _ | Closedir _ => False | _ => True end ->
  located opts p depth e.
Proof.
  intros Hd Hl Hdepth Hp He. unfold located, within_depth.
  destruct e; simpl in Hp; subst; try contradiction; exists O;
    (split; [apply (descends_step p d O); auto; constructor|]);
    (split; [intros H; lia | reflexivity]).
Qed.

(** Every event of a walk takes place at or below its start, within the
    depth limit. *)
Lemma search_directory_located fs opts : forall fuel path depth w w',
  search_directory fuel fs (Some path) depth opts w = Some w' ->
  exists new,
    w_log w' = w_log w ++ new /\ Forall (located opts path depth) new.
Proof.
  induction fuel as [|fuel IH]; intros path depth w w' H; [discriminate|].
  simpl in H.
  destruct ((0 <=? max_depth opts) && (max_depth opts <? depth)) eqn:Deep.
  { injection H as <-. exists []. rewrite app_nil_r. auto. }
  assert (Hdepth : ~ (0 <= max_depth opts /\ max_depth opts < depth)).
  { intros [A B]. apply andb_false_iff in Deep.
    destruct Deep as [D | D]; [apply Z.leb_gt in D | apply Z.ltb_ge in D]; lia. }
  assert (Here : forall e, event_path e = path ->
            match e with Opendir _ | Closedir _ => True | _ => False end ->
            located opts path depth e).
  { intros e Hp He. unfold located, within_depth.
    destruct e; simpl in Hp; subst; try contradiction; exists O;
      (split; [constructor|]); (split; [intros A; lia | reflexivity]). }
  destruct (fs_opendir fs path) as [entries|].
  2:{ injection H as <-. exists [Opendir path]. simpl.
      split; [reflexivity|]. constructor; [apply Here; simpl; auto | constructor]. }
  assert (W : forall entries w0 w1,
    walk_entries fs (search_directory fuel fs) path depth opts entries w0
      = Some w1 ->
    exists new, w_log w1 = w_log w0 ++ new /\
                Forall (located opts path depth) new).
  { clear entries H. induction entries as [|d rest IHe]; intros w0 w1 H;
      simpl in H.
    - injection H as <-. exists []. rewrite app_nil_r. auto.
    - destruct (visit_entry fs (search_directory fuel fs) path depth opts w0 d)
        as [w2|] eqn:V; [|discriminate].
      destruct (IHe _ _ H) as (new2 & L2 & F2).
      assert (V' : exists new1,
        w_log w2 = w_log w0 ++ new1 /\ Forall (located opts path depth) new1).
      { unfold visit_entry in V.
        destruct (dot_entry d) eqn:Hd.
        { injection V as <-. exists []. rewrite app_nil_r. auto. }
        destruct (path_too_long path d) eqn:Hl.
        { injection V as <-. exists []. rewrite app_nil_r. auto. }
        assert (Entry : forall e, event_path e = entry_path path d ->
                  match e with Opendir _ | Closedir _ => False | _ => True end ->
                  located opts path depth e)
          by (intros e; apply located_entry; assumption).
        assert (Ls : located opts path depth (Lstat (entry_path path d)))
          by (apply Entry; simpl; auto).
        destruct (fs_lstat fs (entry_path path d)) as [m|].
        2:{ injection V as <-. exists [Lstat (entry_path path d)].
            simpl. auto. }
        destruct (S_ISDIR m).
        - destruct (recursive opts) eqn:R.
          + destruct (IH _ _ _ _ V) as (new & L & F).
            exists (Lstat (entry_path path d) :: new). simpl in L.
            rewrite L, <- app_assoc. split; [reflexivity|].
            constructor; [exact Ls|].
            eapply Forall_impl; [|exact F].
            intros e. apply located_deeper; assumption.
          + injection V as <-. exists [Lstat (entry_path path d)].
            simpl. auto.
        - destruct (S_ISREG m); injection V as <-.
          + destruct (search_file_log fs (entry_path path d) opts
                        (call (Lstat (entry_path path d)) w0))
              as (evs & L & F).
            exists (Lstat (entry_path path d)
                      :: Fopen (entry_path path d) :: evs).
            simpl in L. rewrite L, <- app_assoc. split; [reflexivity|].
            constructor; [exact Ls|].
            constructor; [apply Entry; simpl; auto|].
            eapply Forall_impl; [|exact F].
            intros e [-> | [-> | [s ->]]]; apply Entry; simpl; auto.
          + exists [Lstat (entry_path path d)]. simpl. auto. }
      destruct V' as (new1 & L1 & F1).
      exists (new1 ++ new2). rewrite L2, L1, <- app_assoc.
      split; [reflexivity|]. apply Forall_app. auto. }
  destruct (walk_entries fs (search_directory fuel fs) path depth opts entries
              (call (Opendir path) w)) as [w1|] eqn:E; [|discriminate].
  injection H as <-. destruct (W _ _ _ E) as (new & L & F).
  exists (Opendir path :: new ++ [Closedir path]). simpl in *.
  rewrite L, <- !app_assoc. split; [reflexivity|].
  constructor; [apply Here; simpl; auto|]. apply Forall_app. split; [exact F|].
  constructor; [apply Here; simpl; auto | constructor].
Qed.

Lemma string_app_assoc (a b c : string) :
  ((a ++ b) ++ c = a ++ (b ++ c))%string.
Proof. induction a as [|x a IH]; simpl; [reflexivity | rewrite IH; reflexivity]. Qed.

(** A path reached from [p] extends [p]; below [p] it goes on with a '/'
    and is shorter than [MAX_PATH]. *)
Lemma descends_path : forall p k q, descends p k q ->
  (k = O -> q = p) /\
  ((0 < k)%nat ->
   strlen q < MAX_PATH /\ exists rest, q = (p ++ "/" ++ rest)%string).
Proof.
  induction 1 as [p | p d k q Hd Hl H [IH0 IH1]].
  - split; [reflexivity | lia].
  - split; [discriminate|]. intros _.
    pose proof (entry_path_exact _ _ Hl) as E.
    pose proof (entry_path_longer _ _ Hl) as [_ Len].
    destruct k as [|k].
    + rewrite (IH0 eq_refl). split; [exact Len|]. exists d. exact E.
    + destruct IH1 as (Lq & rest & ->); [lia|]. split; [exact Lq|].
      exists (d ++ "/" ++ rest)%string.
      rewrite E, !string_app_assoc. reflexivity.
Qed.

(** X15. Every call of a walk is on the start directory itself (its
    [opendir] and [closedir]) or on a path that extends the start path with
    a '/' and further characters and is shorter than [MAX_PATH]: the walker
    never leaves the tree under its start and never builds a path that the
    buffer of line 339 could not hold. *)
Theorem X15_walk_stays_under_its_start fs opts path depth w :
  exists w' new,
    search_directory enough_fuel fs (Some path) depth opts w = Some w' /\
    w_log w' = w_log w ++ new /\
    forall e, In e new ->
      (event_path e = path /\
       match e with Opendir _ | Closedir _ => True | _ => False end)
      \/ (strlen (event_path e) < MAX_PATH /\
          exists rest, event_path e = (path ++ "/" ++ rest)%string).
Proof.
  destruct (search_directory_total fs opts (Some path) depth w)
    as (w' & E & _).
  destruct (search_directory_located fs opts _ _ _ _ _ E) as (new & L & F).
  exists w', new. split; [exact E|]. split; [exact L|].
  rewrite Forall_forall in F. intros e Hin. specialize (F e Hin).
  unfold located in F.
  destruct e; destruct F as (k & D & _);
    apply descends_path in D; destruct D as [D0 D1]; simpl;
    try (right; apply D1; lia);
    (destruct k as [|k]; [left; split; [apply D0; reflexivity | exact I]
                         | right; apply D1; lia]).
Qed.

Lemma descends_one p q : descends p 1 q -> exists d, q = entry_path p d.
Proof.
  inversion 1 as [| p' d k q' Hd Hl H']; subst.
  inversion H'; subst. eauto.
Qed.

(** X16. Under a non-negative [max_depth], a walk at [depth] opens only
    directories reached through [k] entries with [depth + k <= max_depth],
    and scans only files that are entries of such directories; without the
    recursive flag it opens the start directory only and scans only its own
    entries. *)
Theorem X16_depth_limit_everywhere fs opts path depth w :
  exists w' new,
    search_directory enough_fuel fs (Some path) depth opts w = Some w' /\
    w_log w' = w_log w ++ new /\
    (forall p, In (Opendir p) new ->
       exists k, descends path k p /\
                 (0 <= max_depth opts -> depth + Z.of_nat k <= max_depth opts) /\
                 (recursive opts = false -> p = path)) /\
    (forall p, In (Fopen p) new ->
       exists k, descends path (S k) p /\
                 (0 <= max_depth opts -> depth + Z.of_nat k <= max_depth opts) /\
                 (recursive opts = false -> exists d, p = entry_path path d)).
Proof.
  destruct (search_directory_total fs opts (Some path) depth w)
    as (w' & E & _).
  destruct (search_directory_located fs opts _ _ _ _ _ E) as (new & L & F).
  exists w', new. split; [exact E|]. split; [exact L|].
  rewrite Forall_forall in F. split; intros p Hin; specialize (F _ Hin);
    destruct F as (k & D & W & R); exists k; (split; [exact D|]);
    (split; [exact W|]); intros Hr; specialize (R Hr); subst k.
  - apply descends_path in D. apply D. reflexivity.
  - apply descends_one. exact D.
Qed.

(** ** What a walk leaves open *)

Section WalkTrace.

Variable fs : FileSystem.
Variable opts : SearchOptions.
Variable P : list event -> Prop.

Hypothesis P_nil : P [].
Hypothesis P_app : forall a b, P a -> P b -> P (a ++ b).
Hypothesis P_lstat : forall p, P [Lstat p].
Hypothesis P_file : forall f w,
  exists new, w_log (snd (search_file fs f opts w)) = w_log w ++ new /\ P new.
Hypothesis P_failed : forall p, fs_opendir fs p = None -> P [Opendir p].
Hypothesis P_dir : forall p body,
  fs_opendir fs p <> None -> P body -> P (Opendir p :: body ++ [Closedir p]).

Lemma search_directory_trace : forall fuel path depth w w',
  search_directory fuel fs path depth opts w = Some w' ->
  exists new, w_log w' = w_log w ++ new /\ P new.
Proof.
  assert (Nil : forall w, exists new, w_log w = w_log w ++ new /\ P new)
    by (intros w; exists []; rewrite app_nil_r; auto).
  induction fuel as [|fuel IH]; intros path depth w w' H; [discriminate|].
  simpl in H. destruct path as [p|]; [|injection H as <-; apply Nil].
  destruct ((0 <=? max_depth opts) && (max_depth opts <? depth));
    [injection H as <-; apply Nil|].
  destruct (fs_opendir fs p) as [entries|] eqn:Ho.
  2:{ injection H as <-. exists [Opendir p]. split; [reflexivity | auto]. }
  assert (W : forall entries w0 w1,
    walk_entries fs (search_directory fuel fs) p depth opts entries w0
      = Some w1 ->
    exists new, w_log w1 = w_log w0 ++ new /\ P new).
  { clear entries Ho H. induction entries as [|d rest IHe]; intros w0 w1 H;
      simpl in H; [injection H as <-; apply Nil|].
    destruct (visit_entry fs (search_directory fuel fs) p depth opts w0 d)
      as [w2|] eqn:V; [|discriminate].
    destruct (IHe _ _ H) as (new2 & L2 & P2).
    assert (V' : exists new1, w_log w2 = w_log w0 ++ new1 /\ P new1).
    { unfold visit_entry in V.
      destruct (dot_entry d); [injection V as <-; apply Nil|].
      destruct (path_too_long p d); [injection V as <-; apply Nil|].
      destruct (fs_lstat fs (entry_path p d)) as [m|].
      2:{ injection V as <-. exists [Lstat (entry_path p d)]. auto. }
      destruct (S_ISDIR m).
      - destruct (recursive opts).
        + destruct (IH _ _ _ _ V) as (new & L & Pn).
          exists ([Lstat (entry_path p d)] ++ new). simpl in L.
          rewrite L, <- app_assoc. auto.
        + injection V as <-. exists [Lstat (entry_path p d)]. auto.
      - destruct (S_ISREG m); injection V as <-.
        + destruct (P_file (entry_path p d) (call (Lstat (entry_path p d)) w0))
            as (new & L & Pn).
          exists ([Lstat (entry_path p d)] ++ new). simpl in L.
          rewrite L, <- app_assoc. auto.
        + exists [Lstat (entry_path p d)]. auto. }
    destruct V' as (new1 & L1 & P1).
    exists (new1 ++ new2). rewrite L2, L1, <- app_assoc. auto. }
  destruct (walk_entries fs (search_directory fuel fs) p depth opts entries
              (call (Opendir p) w)) as [w1|] eqn:E; [|discriminate].
  injection H as <-. destruct (W _ _ _ E) as (new & L & Pn).
  exists (Opendir p :: new ++ [Closedir p]). simpl in *.
  rewrite L, <- !app_assoc. split; [reflexivity|].
  apply P_dir; [congruence | exact Pn].
Qed.

End WalkTrace.

Lemma dirs_open_app fs a b :
  dirs_open fs (a ++ b) = dirs_open fs a + dirs_open fs b.
Proof.
  induction a as [|e a IH]; simpl; [reflexivity|]. destruct e; lia.
Qed.

Lemma files_open_app fs a b :
  files_open fs (a ++ b) = files_open fs a + files_open fs b.
Proof.
  induction a as [|e a IH]; simpl; [reflexivity|]. destruct e; lia.
Qed.

Lemma tidy_nil fs : tidy fs [].
Proof.
  repeat split; try reflexivity;
    symmetry in H; apply app_eq_nil in H; destruct H as [-> _]; simpl; lia.
Qed.

Lemma tidy_app fs a b : tidy fs a -> tidy fs b -> tidy fs (a ++ b).
Proof.
  intros (Da & Fa & Pa) (Db & Fb & Pb). split; [|split].
  - rewrite dirs_open_app. lia.
  - rewrite files_open_app. lia.
  - intros pre post E. apply app_eq_app in E.
    destruct E as (l & [[-> ->] | [-> ->]]).
    + apply (Pa pre l). reflexivity.
    + rewrite dirs_open_app, files_open_app, Da, Fa.
      destruct (Pb l post eq_refl). lia.
Qed.

(** A log with no directory or file call is tidy. *)
Lemma tidy_quiet fs e :
  match e with Lstat _ | Fgets _ | Counted _ _ => True | _ => False end ->
  tidy fs [e].
Proof.
  intros He. split; [|split].
  - destruct e; try contradiction; reflexivity.
  - destruct e; try contradiction; reflexivity.
  - intros pre post E. destruct pre as [|x pre]; [simpl; lia|].
    injection E as <- E. symmetry in E. apply app_eq_nil in E.
    destruct E as [-> _]. destruct e; try contradiction; simpl; lia.
Qed.

Lemma tidy_repeat fs e k :
  match e with Lstat _ | Fgets _ | Counted _ _ => True | _ => False end ->
  tidy fs (repeat e k).
Proof.
  intros He. induction k as [|k IH]; simpl; [apply tidy_nil|].
  apply (tidy_app fs [e]); [apply tidy_quiet, He | exact IH].
Qed.

(** An opened handle around a tidy log. *)
Lemma tidy_bracket fs o c body :
  dirs_open fs [o] + dirs_open fs [c] = 0 ->
  files_open fs [o] + files_open fs [c] = 0 ->
  0 <= dirs_open fs [o] -> 0 <= files_open fs [o] ->
  (files_open fs [o] = 1 -> forall pre post, body = pre ++ post ->
                            files_open fs pre = 0) ->
  tidy fs body -> tidy fs (o :: body ++ [c]).
Proof.
  intros Hd Hf Hd0 Hf0 Hone (Db & Fb & Pb).
  change (o :: body ++ [c]) with ([o] ++ body ++ [c]). split; [|split].
  - rewrite !dirs_open_app. lia.
  - rewrite !files_open_app. lia.
  - intros pre post E. destruct pre as [|x pre]; [simpl; lia|].
    simpl in E. injection E as <- E.
    change (o :: pre) with ([o] ++ pre).
    rewrite dirs_open_app, files_open_app.
    apply app_eq_app in E. destruct E as (l & [[-> ->] | [-> E]]).
    + destruct (Pb pre l eq_refl) as [A B].
      assert (files_open fs [o] = 1 -> files_open fs pre = 0)
        by (intros H1; apply (Hone H1 pre l); reflexivity).
      assert (files_open fs [o] <= 1).
      { destruct o; simpl; try lia. destruct (fs_fopen fs path); lia. }
      lia.
    + rewrite dirs_open_app, files_open_app, Db, Fb.
      assert (files_open fs [o] <= 1).
      { destruct o; simpl; try lia. destruct (fs_fopen fs path); lia. }
      destruct l as [|y l].
      * change (dirs_open fs []) with 0. change (files_open fs []) with 0. lia.
      * injection E as <- E. symmetry in E. apply app_eq_nil in E.
        destruct E as [-> _]. lia.
Qed.

Lemma tidy_single fs e :
  dirs_open fs [e] = 0 -> files_open fs [e] = 0 -> tidy fs [e].
Proof.
  intros Hd Hf. split; [exact Hd|]. split; [exact Hf|].
  intros pre post E. destruct pre as [|x pre].
  - change (dirs_open fs []) with 0. change (files_open fs []) with 0. lia.
  - injection E as <- E. symmetry in E. apply app_eq_nil in E.
    destruct E as [-> _]. lia.
Qed.

Lemma search_file_tidy fs filename opts w :
  exists new,
    w_log (snd (search_file fs filename opts w)) = w_log w ++ new /\
    tidy fs new.
Proof.
  pose proof (search_file_shape fs filename opts w) as S. cbv zeta in S.
  destruct (fs_fopen fs filename) as [file|] eqn:Ho.
  - destruct S as (k & tail & L & T).
    exists ((Fopen filename :: repeat (Fgets filename) k ++ [Fclose filename])
              ++ tail).
    split.
    { rewrite L. simpl. rewrite <- app_assoc. reflexivity. }
    apply tidy_app.
    + apply tidy_bracket; simpl; rewrite ?Ho; try lia.
      * intros _ pre post E.
        assert (Z0 : forall j, files_open fs (repeat (Fgets filename) j) = 0)
          by (induction j; simpl; auto).
        pose proof (Z0 k) as Zk. rewrite E, files_open_app in Zk.
        assert (P0 : forall l, Forall (fun e => e = Fgets filename) l ->
                               files_open fs l = 0).
        { induction 1 as [|e l -> _ IH]; simpl; auto. }
        apply P0. apply Forall_forall. intros e Hin.
        apply (repeat_spec k (Fgets filename)). rewrite E.
        apply in_or_app. auto.
      * apply tidy_repeat. exact I.
    + destruct T as [-> | [s ->]]; [apply tidy_nil | apply tidy_quiet; exact I].
  - exists [Fopen filename]. split; [exact S|].
    apply tidy_single; simpl; rewrite ?Ho; reflexivity.
Qed.

(** X17. A walk closes every directory and every file it opened, closes
    nothing that is not open, and at no moment has more than one file
    open. *)
Theorem X17_walk_leaves_nothing_open fs opts path depth w :
  exists w' new,
    search_directory enough_fuel fs path depth opts w = Some w' /\
    w_log w' = w_log w ++ new /\
    dirs_open fs new = 0 /\ files_open fs new = 0 /\
    forall pre post, new = pre ++ post ->
      0 <= dirs_open fs pre /\ 0 <= files_open fs pre <= 1.
Proof.
  destruct (search_directory_total fs opts path depth w) as (w' & E & _).
  destruct (search_directory_trace fs opts (tidy fs)) with (1 := tidy_nil fs)
    (fuel := enough_fuel) (path := path) (depth := depth) (w := w) (w' := w')
    as (new & L & T).
  - apply tidy_app.
  - intros p. apply tidy_quiet. exact I.
  - intros f w0. apply search_file_tidy.
  - intros p Hp. apply tidy_single; simpl; rewrite ?Hp; reflexivity.
  - intros p body Hp Hb. apply tidy_bracket; simpl; try lia.
    + destruct (fs_opendir fs p); [lia | congruence].
    + destruct (fs_opendir fs p); lia.
    + exact Hb.
  - exact E.
  - exists w', new. unfold tidy in T. tauto.
Qed.

(** ** The argument parser *)

Example parse_plain :
  parse_arguments (mkAccess (fun _ => false) (fun _ => None))
    ["fwalker"; "-i"; "-d"; "2"; "-f"; "*.c"; "main"; "-l"; "init"]%string
    init_options
  = ([], Options (mkOptions ["main"; "init"]%string false true true true true
                    2 true false 0 (-1) "*.c" ".")).
Proof. reflexivity. Qed.

Example parse_empty_keyword :
  parse_arguments (mkAccess (fun _ => false) (fun _ => None))
    ["fwalker"; ""]%string init_options
  = ([], Options (default_options [""%string])).
Proof. reflexivity. Qed.

(** A run of the parser that returns options went through assignments
    only, printed nothing and stored a keyword. *)
Lemma parse_loop_steps env : forall n args o msgs o',
  (List.length args <= n)%nat ->
  parse_loop env args o = (msgs, Options o') ->
  parse_steps env o o' /\ msgs = [] /\ keyword_count o' <> 0.
Proof.
  induction n as [|n IH]; intros args o msgs o' Hlen H.
  - destruct args; [|simpl in Hlen; lia]. simpl in H.
    destruct (Z.eqb_spec (keyword_count o) 0); [discriminate|].
    injection H as <- <-. repeat split; [constructor | assumption].
  - destruct args as [|arg rest].
    { simpl in H. destruct (Z.eqb_spec (keyword_count o) 0); [discriminate|].
      injection H as <- <-. repeat split; [constructor | assumption]. }
    simpl in Hlen. cbn [parse_loop] in H.
    assert (Step : forall o2, parse_step env o o2 ->
              forall args', (List.length args' <= n)%nat ->
              parse_loop env args' o2 = (msgs, Options o') ->
              parse_steps env o o' /\ msgs = [] /\ keyword_count o' <> 0).
    { intros o2 S args' L H'. destruct (IH _ _ _ _ L H') as (A & B & C).
      split; [econstructor; eassumption | auto]. }
    assert (Value : forall (f : string -> SearchOptions),
              (forall v, parse_step env o (f v)) ->
              match rest with
              | value :: rest' => parse_loop env rest' (f value)
              | [] => parse_loop env rest o
              end = (msgs, Options o') ->
              parse_steps env o o' /\ msgs = [] /\ keyword_count o' <> 0).
    { intros f Hf H'. destruct rest as [|value rest'].
      - apply (IH [] o msgs o'); [simpl; lia | exact H'].
      - apply (Step (f value) (Hf value) rest'); [simpl in Hlen; lia | exact H']. }
    destruct (Ascii.eqb_spec (deref arg) "-"%char) as [Dash | NoDash].
    + destruct (Ascii.eqb (deref (next arg)) "i");
        [apply (Step _ (step_i env o) rest); [lia | exact H]|].
      destruct (Ascii.eqb (deref (next arg)) "r");
        [apply (Step _ (step_r env o) rest); [lia | exact H]|].
      destruct (Ascii.eqb (deref (next arg)) "l");
        [apply (Step _ (step_l env o) rest); [lia | exact H]|].
      destruct (Ascii.eqb (deref (next arg)) "c");
        [apply (Step _ (step_c env o) rest); [lia | exact H]|].
      destruct (Ascii.eqb (deref (next arg)) "n");
        [apply (Step _ (step_n env o) rest); [lia | exact H]|].
      destruct (Ascii.eqb (deref (next arg)) "f");
        [apply (Value (fun v => with_file_pattern (strncpy 255 v) o));
           [intros v; constructor | exact H]|].
      destruct (Ascii.eqb (deref (next arg)) "d");
        [apply (Value (fun v => with_max_depth (atoi v) o));
           [intros v; constructor | exact H]|].
      destruct (Ascii.eqb (deref (next arg)) "s");
        [apply (Value (fun v => with_min_size (atol v) o));
           [intros v; constructor | exact H]|].
      destruct (Ascii.eqb (deref (next arg)) "S");
        [apply (Value (fun v => with_max_size (atol v) o));
           [intros v; constructor | exact H]|].
      destruct (Ascii.eqb (deref (next arg)) "h"); discriminate.
    + destruct (Z.eqb_spec (keyword_count o) 0) as [K0 | K0]; simpl in H.
      * destruct (names_directory env arg) eqn:D.
        -- apply (Step _ (step_dir env o arg K0 NoDash D) rest); [lia | exact H].
        -- destruct (Z.ltb_spec (keyword_count o) MAX_KEYWORDS) as [K | K].
           ++ apply (Step _ (step_keyword env o arg K NoDash) rest);
                [lia | exact H].
           ++ apply (IH rest o msgs o'); [lia | exact H].
      * destruct (Z.ltb_spec (keyword_count o) MAX_KEYWORDS) as [K | K].
        -- apply (Step _ (step_keyword env o arg K NoDash) rest);
             [lia | exact H].
        -- apply (IH rest o msgs o'); [lia | exact H].
Qed.

(** What every assignment of the parser keeps, the parser keeps. *)
Lemma parse_steps_invariant env (Inv : SearchOptions -> Prop) :
  (forall o o', parse_step env o o' -> Inv o -> Inv o') ->
  forall o o', parse_steps env o o' -> Inv o -> Inv o'.
Proof.
  intros Hstep o o' H. induction H as [o | o1 o2 o3 S _ IH]; [auto|].
  intros H1. apply IH. apply (Hstep o1 o2 S H1).
Qed.

Lemma substring_length_le : forall s n,
  (String.length (substring 0 n s) <= n)%nat.
Proof.
  induction s as [|c s IH]; intros [|n]; simpl; try lia.
  specialize (IH n). lia.
Qed.

Lemma strncpy_fits n src : strlen (strncpy n src) <= Z.of_nat n.
Proof.
  unfold strlen, strncpy. pose proof (substring_length_le src n). lia.
Qed.

Lemma parse_step_fits env o o' : parse_step env o o' -> fits o -> fits o'.
Proof.
  unfold fits, keyword_count, MAX_KEYWORDS, MAX_PATH.
  intros S (K & L & P & D).
  destruct S; simpl; repeat split; auto;
    try (pose proof (strncpy_fits 255 value); lia);
    try (pose proof (strncpy_fits 4095 arg); lia).
  - rewrite length_app. simpl. unfold keyword_count, MAX_KEYWORDS in *. lia.
  - apply Forall_app. split; [exact L|]. constructor; [|constructor].
    pose proof (strncpy_fits 255 arg). lia.
Qed.

(** X18. The options [parse_arguments] returns fit the buffers of
    [SearchOptions] whatever the arguments are: at most [MAX_KEYWORDS]
    keywords of at most 255 characters each (longer arguments are cut, and
    keywords after the twentieth dropped), a file pattern of at most 255
    characters, a start directory shorter than [MAX_PATH]. *)
Theorem X18_parsed_options_fit env argv msgs o :
  parse_arguments env argv init_options = (msgs, Options o) ->
  keyword_count o <= MAX_KEYWORDS /\
  Forall (fun k => strlen k <= 255) (keywords o) /\
  strlen (file_pattern o) <= 255 /\
  strlen (start_dir o) < MAX_PATH.
Proof.
  intros H. unfold parse_arguments in H.
  destruct (parse_loop_steps env _ _ _ _ _ (le_n _) H) as (S & _ & _).
  apply (parse_steps_invariant env fits (parse_step_fits env) _ _ S).
  unfold fits, keyword_count, MAX_KEYWORDS, MAX_PATH, strlen. simpl.
  repeat split; try lia. constructor.
Qed.

Lemma X18_parsed_options_fit_witness :
  let env := mkAccess (fun _ => false) (fun _ => None) in
  let o := mkOptions ["main"; "init"]%string false true true true true
             2 true false 0 (-1) "*.c" "." in
  parse_arguments env
    ["fwalker"; "-i"; "-d"; "2"; "-f"; "*.c"; "main"; "-l"; "init"]%string
    init_options = ([], Options o) /\
  keyword_count o <= MAX_KEYWORDS.
Proof.
  cbv zeta. split; [reflexivity|].
  exact (proj1 (X18_parsed_options_fit
                  (mkAccess (fun _ => false) (fun _ => None))
                  ["fwalker"; "-i"; "-d"; "2"; "-f"; "*.c"; "main"; "-l";
                   "init"]%string [] _ eq_refl)).
Defined.

Lemma deref_strncpy n src : deref (strncpy (S n) src) = deref src.
Proof. destruct src; reflexivity. Qed.

Lemma parse_step_keeps env o o' :
  parse_step env o o' -> parser_keeps o -> parser_keeps o'.
Proof.
  unfold parser_keeps. intros S (R & F & C & N & K).
  destruct S; simpl; repeat split; auto.
  apply Forall_app. split; [exact K|]. constructor; [|constructor].
  change 255%nat with (S 254). rewrite deref_strncpy. assumption.
Qed.

(** X19. When [parse_arguments] returns options it has printed nothing and
    stored at least one keyword; no keyword starts with '-'; and the flags
    [recursive], [search_filenames], [search_content] and
    [show_line_numbers] are all set: no argument clears them, so that [-r]
    and [-n] change nothing. *)
Theorem X19_parsed_options_are_searchable env argv msgs o :
  parse_arguments env argv init_options = (msgs, Options o) ->
  msgs = [] /\ keywords o <> [] /\
  Forall (fun k => deref k <> "-"%char) (keywords o) /\
  recursive o = true /\ search_filenames o = true /\
  search_content o = true /\ show_line_numbers o = true.
Proof.
  intros H. unfold parse_arguments in H.
  destruct (parse_loop_steps env _ _ _ _ _ (le_n _) H) as (S & M & K).
  assert (P : parser_keeps o).
  { apply (parse_steps_invariant env parser_keeps (parse_step_keeps env) _ _ S).
    unfold parser_keeps. simpl. repeat split; auto. }
  destruct P as (R & F & C & N & D). repeat split; auto.
  intros E. apply K. unfold keyword_count. rewrite E. reflexivity.
Qed.

Lemma X19_parsed_options_are_searchable_witness :
  let env := mkAccess (fun _ => false) (fun _ => None) in
  let o := default_options [""%string] in
  parse_arguments env ["fwalker"; ""]%string init_options = ([], Options o) /\
  search_content o = true /\ search_filenames o = true.
Proof.
  cbv zeta. split; [reflexivity|].
  destruct (X19_parsed_options_are_searchable
              (mkAccess (fun _ => false) (fun _ => None))
              ["fwalker"; ""]%string [] _ eq_refl)
    as (_ & _ & _ & _ & F & C & _).
  split; assumption.
Defined.





Lemma parse_loop_exits env : forall n args o msgs status,
  (List.length args <= n)%nat ->
  parse_loop env args o = (msgs, Exit status) ->
  (status = EXIT_SUCCESS /\ msgs = [PrintHelp] /\ Exists asks_help args)
  \/ (status = EXIT_FAILURE /\ exists text, msgs = [Stderr text; PrintHelp]).
Proof.
  induction n as [|n IH]; intros args o msgs status Hlen H.
  - destruct args; [|simpl in Hlen; lia]. simpl in H.
    destruct (keyword_count o =? 0); [|discriminate].
    injection H as <- <-. right. eauto.
  - destruct args as [|arg rest].
    { simpl in H. destruct (keyword_count o =? 0); [|discriminate].
      injection H as <- <-. right. eauto. }
    simpl in Hlen. cbn [parse_loop] in H.
    assert (Later : forall args' o2,
              (List.length args' <= n)%nat ->
              (forall a, In a args' -> In a rest) ->
              parse_loop env args' o2 = (msgs, Exit status) ->
              (status = EXIT_SUCCESS /\ msgs = [PrintHelp] /\
               Exists asks_help (arg :: rest))
              \/ (status = EXIT_FAILURE /\
                  exists text, msgs = [Stderr text; PrintHelp])).
    { intros args' o2 L Sub H'.
      destruct (IH _ _ _ _ L H') as [(A & B & C) | R]; [left | right; exact R].
      repeat split; auto. apply Exists_cons_tl.
      apply Exists_exists in C. destruct C as (a & Ia & Ha).
      apply Exists_exists. eauto. }
    assert (Value : forall (f : string -> SearchOptions),
              match rest with
              | value :: rest' => parse_loop env rest' (f value)
              | [] => parse_loop env rest o
              end = (msgs, Exit status) ->
              (status = EXIT_SUCCESS /\ msgs = [PrintHelp] /\
               Exists asks_help (arg :: rest))
              \/ (status = EXIT_FAILURE /\
                  exists text, msgs = [Stderr text; PrintHelp])).
    { intros f H'. destruct rest as [|value rest'].
      - apply (Later [] o); [simpl; lia | auto | exact H'].
      - apply (Later rest' (f value));
          [simpl in Hlen; lia | intros a Ia; right; exact Ia | exact H']. }
    destruct (Ascii.eqb_spec (deref arg) "-"%char) as [Dash | NoDash].
    + destruct (Ascii.eqb (deref (next arg)) "i");
        [eapply (Later rest); [lia | auto | exact H]|].
      destruct (Ascii.eqb (deref (next arg)) "r");
        [eapply (Later rest); [lia | auto | exact H]|].
      destruct (Ascii.eqb (deref (next arg)) "l");
        [eapply (Later rest); [lia | auto | exact H]|].
      destruct (Ascii.eqb (deref (next arg)) "c");
        [eapply (Later rest); [lia | auto | exact H]|].
      destruct (Ascii.eqb (deref (next arg)) "n");
        [eapply (Later rest); [lia | auto | exact H]|].
      destruct (Ascii.eqb (deref (next arg)) "f");
        [apply (Value (fun v => with_file_pattern (strncpy 255 v) o)), H|].
      destruct (Ascii.eqb (deref (next arg)) "d");
        [apply (Value (fun v => with_max_depth (atoi v) o)), H|].
      destruct (Ascii.eqb (deref (next arg)) "s");
        [apply (Value (fun v => with_min_size (atol v) o)), H|].
      destruct (Ascii.eqb (deref (next arg)) "S");
        [apply (Value (fun v => with_max_size (atol v) o)), H|].
      destruct (Ascii.eqb_spec (deref (next arg)) "h") as [Hh | _];
        injection H as <- <-.
      * left. repeat split. apply Exists_cons_hd. split; assumption.
      * right. eauto.
    + destruct ((keyword_count o =? 0) && names_directory env arg);
        [eapply (Later rest); [lia | auto | exact H]|].
      destruct (keyword_count o <? MAX_KEYWORDS);
        (eapply (Later rest); [lia | auto | exact H]).
Qed.

(** X21. When [parse_arguments] leaves the program it has printed the help
    text, last.  The status is [EXIT_SUCCESS] only when some argument is an
    option [-h], and nothing else is printed then; in every other case a
    message went to standard error first and the status is
    [EXIT_FAILURE]. *)
Theorem X21_parser_exits env argv o msgs status :
  parse_arguments env argv o = (msgs, Exit status) ->
  (status = EXIT_SUCCESS /\ msgs = [PrintHelp] /\ Exists asks_help (tl argv))
  \/ (status = EXIT_FAILURE /\ exists text, msgs = [Stderr text; PrintHelp]).
Proof.
  intros H. apply (parse_loop_exits env _ _ _ _ _ (le_n _) H).
Qed.

Lemma X21_parser_exits_witness :
  let env := mkAccess (fun _ => false) (fun _ => None) in
  exists text,
    parse_arguments env ["fwalker"; "-i"; "-x"; "foo"]%string init_options
    = ([Stderr text; PrintHelp], Exit EXIT_FAILURE).
Proof.
  cbv zeta.
  destruct (X21_parser_exits (mkAccess (fun _ => false) (fun _ => None))
              ["fwalker"; "-i"; "-x"; "foo"]%string init_options
              [Stderr ("Unknown option: -x" ++ String LF "")%string; PrintHelp]
              EXIT_FAILURE eq_refl) as [(E & _) | (_ & text & E)].
  - discriminate.
  - exists text. rewrite <- E. reflexivity.
Defined.

(** ** A walk only adds *)



















(** ** The whole program *)

Lemma parse_loop_silent env : forall n args o msgs o',
  (List.length args <= n)%nat ->
  parse_loop env args o = (msgs, Options o') -> msgs = [].
Proof.
  induction n as [|n IH]; intros args o msgs o' Hlen H.
  - destruct args; [|simpl in Hlen; lia]. simpl in H.
    destruct (keyword_count o =? 0); [discriminate|].
    injection H as <- _. reflexivity.
  - destruct args as [|arg rest].
    { simpl in H. destruct (keyword_count o =? 0); [discriminate|].
      injection H as <- _. reflexivity. }
    simpl in Hlen. cbn [parse_loop] in H.
    assert (Value : forall (f : string -> SearchOptions),
              match rest with
              | value :: rest' => parse_loop env rest' (f value)
              | [] => parse_loop env rest o
              end = (msgs, Options o') -> msgs = []).
    { intros f H'. destruct rest as [|value rest'].
      - apply (IH [] o _ o'); [simpl; lia | exact H'].
      - apply (IH rest' (f value) _ o'); [simpl in Hlen; lia | exact H']. }
    destruct (Ascii.eqb (deref arg) "-").
    + destruct (Ascii.eqb (deref (next arg)) "i");
        [eapply (IH rest); [lia | exact H]|].
      destruct (Ascii.eqb (deref (next arg)) "r");
        [eapply (IH rest); [lia | exact H]|].
      destruct (Ascii.eqb (deref (next arg)) "l");
        [eapply (IH rest); [lia | exact H]|].
      destruct (Ascii.eqb (deref (next arg)) "c");
        [eapply (IH rest); [lia | exact H]|].
      destruct (Ascii.eqb (deref (next arg)) "n");
        [eapply (IH rest); [lia | exact H]|].
      destruct (Ascii.eqb (deref (next arg)) "f");
        [apply (Value (fun v => with_file_pattern (strncpy 255 v) o)), H|].
      destruct (Ascii.eqb (deref (next arg)) "d");
        [apply (Value (fun v => with_max_depth (atoi v) o)), H|].
      destruct (Ascii.eqb (deref (next arg)) "s");
        [apply (Value (fun v => with_min_size (atol v) o)), H|].
      destruct (Ascii.eqb (deref (next arg)) "S");
        [apply (Value (fun v => with_max_size (atol v) o)), H|].
      destruct (Ascii.eqb (deref (next arg)) "h"); discriminate.
    + destruct ((keyword_count o =? 0) && names_directory env arg);
        [eapply (IH rest); [lia | exact H]|].
      destruct (keyword_count o <? MAX_KEYWORDS);
        (eapply (IH rest); [lia | exact H]).
Qed.

Lemma search_file_start_time fs filename opts w :
  start_time (w_stats (snd (search_file fs filename opts w)))
  = start_time (w_stats w).
Proof.
  search_file_paths fs filename opts w.
  - world_simpl. unfold opened. destruct (fstat file); reflexivity.
  - world_simpl. unfold opened. destruct (fstat file); reflexivity.
  - unfold after_quiet_content, filename_match.
    destruct (search_filenames opts && name_matches opts filename),
      (count_only opts), (search_content opts); world_simpl;
      unfold opened; destruct (fstat file); reflexivity.
  - simpl. unfold opened. destruct (fstat file); reflexivity.
  - reflexivity.
Qed.

Lemma search_directory_start_time fs opts path depth w :
  exists w',
    search_directory enough_fuel fs path depth opts w = Some w' /\
    start_time (w_stats w') = start_time (w_stats w).
Proof.
  apply (search_directory_establishes fs opts
           (fun w w' => start_time (w_stats w') = start_time (w_stats w))).
  - reflexivity.
  - intros a b c H1 H2. congruence.
  - reflexivity.
  - intros f w0. apply search_file_start_time.
Qed.

(** The records and the matches of a walk outside count-only and names-only
    mode. *)
Lemma search_directory_plain fs opts path depth w :
  count_only opts = false -> only_matching_files opts = false ->
  exists w' recs,
    search_directory enough_fuel fs path depth opts w = Some w' /\
    w_out w' = w_out w ++ recs /\
    total_matches (w_stats w')
    = total_matches (w_stats w) + Z.of_nat (List.length recs).
Proof.
  intros Hco Hno.
  destruct (search_directory_establishes fs opts
              (fun w w' => exists recs,
                 w_out w' = w_out w ++ recs /\
                 total_matches (w_stats w')
                 = total_matches (w_stats w) + Z.of_nat (List.length recs)))
    with (path := path) (depth := depth) (w := w) as (w' & E & recs & O & T).
  - intros w0. exists []. rewrite app_nil_r. split; [reflexivity | simpl; lia].
  - intros a b c (r1 & O1 & T1) (r2 & O2 & T2). exists (r1 ++ r2).
    rewrite O2, O1, T2, T1, app_assoc, length_app, Nat2Z.inj_add.
    split; [reflexivity | lia].
  - intros e w0 _. exists []. simpl. rewrite app_nil_r.
    split; [reflexivity | lia].
  - intros f w0. apply search_file_plain; assumption.
  - exists w', recs. auto.
Qed.


(** X24. When the arguments are accepted and ask neither for counts only
    nor for names only, [main] shows the heading, one line per match, the
    empty line and the statistics, in this order; the total of matches in
    the statistics is the number of lines shown, and their start time is
    the time read before the walk. *)
Theorem X24_total_matches_shown env fs now later argv msgs o :
  (2 <= List.length argv)%nat ->
  parse_arguments env argv init_options = (msgs, Options o) ->
  count_only o = false -> only_matching_files o = false ->
  exists recs s log,
    main enough_fuel env fs now later argv
    = Some (Heading (heading o) :: map Line recs ++ [Blank; PrintStats s later],
            log, EXIT_SUCCESS) /\
    total_matches s = Z.of_nat (List.length recs) /\
    start_time s = now.
Proof.
  intros Hargc P Hco Hno. unfold main.
  destruct (Z.ltb_spec (Z.of_nat (List.length argv)) 2) as [L | _]; [lia|].
  rewrite P. cbv zeta.
  assert (M : msgs = []).
  { apply (parse_loop_silent env _ _ _ _ _ (le_n _) P). }
  subst msgs.
  destruct (search_directory_plain fs o (Some (start_dir o)) 0
              (mkWorld (set_start_time now stats0) [] []) Hco Hno)
    as (w' & recs & E & O & T).
  destruct (search_directory_start_time fs o (Some (start_dir o)) 0
              (mkWorld (set_start_time now stats0) [] [])) as (w2 & E2 & St).
  rewrite E in E2. injection E2 as <-.
  rewrite E, Hco, Hno. simpl in O, T, St. rewrite O.
  exists recs, (w_stats w'), (w_log w'). simpl.
  repeat split; [lia | exact St].
Qed.

Lemma X24_total_matches_shown_witness :
  let env := mkAccess (fun _ => false) (fun _ => None) in
  exists recs s log,
    main enough_fuel env demo_fs 7 9 ["fwalker"; "foo"]%string
    = Some (Heading (heading (default_options ["foo"%string]))
              :: map Line recs ++ [Blank; PrintStats s 9],
            log, EXIT_SUCCESS) /\
    total_matches s = Z.of_nat (List.length recs) /\ start_time s = 7.
Proof.
  cbv zeta.
  apply (X24_total_matches_shown (mkAccess (fun _ => false) (fun _ => None))
           demo_fs 7 9 ["fwalker"; "foo"]%string []
           (default_options ["foo"%string])).
  - simpl. lia.
  - reflexivity.
  - reflexivity.
  - reflexivity.
Defined.
